(** * ib-kubernetes: the reconciliation passes of the daemon

    A shallow embedding of [pkg/daemon/daemon.go]: the two periodic passes
    [AddPeriodicUpdate] and [DeletePeriodicUpdate] over the pending-work maps
    of the pod watcher, together with theorems about what each pass does to
    its map, to the GUID pool and to the subnet manager.

    The collaborators of the daemon (Kubernetes client, GUID pool, subnet
    manager client) are Go interfaces; they are type classes over an abstract
    world here, and every call made on them is logged with its result.  The
    helpers of [pkg/utils], the JSON codec and [net.ParseMAC] are parameters
    as well: the theorems hold for every implementation of them. *)

From Stdlib Require Import ZArith String Ascii Bool.
From stdpp Require Import base option list gmap strings.

Local Open Scope nat_scope.

(** ** Data model *)

(** A Go [error] is represented by the text of [err.Error()]; a nil error
    is [None]. *)
Definition error := string.

Inductive result (A : Type) : Type :=
| Ok (a : A)
| Err (e : error).
Arguments Ok {A} a.
Arguments Err {A} e.

Definition UID := string.

(** [net.HardwareAddr] is a byte slice. *)
Definition HardwareAddr := list Byte.byte.

(** A value of a [cni-args] map ([map[string]interface{}]): a JSON string,
    or any other JSON value kept as text. *)
Inductive CNIArgValue : Type :=
| ArgString (s : string)
| ArgOther (raw : string).

(** [v1.NetworkSelectionElement], restricted to what the daemon touches.
    [CNIArgs] is a pointer to a map in Go: [None] is the nil pointer. *)
Record NetworkSelectionElement : Type := mkNetwork {
  Name : string;
  NetNamespace : string;
  CNIArgs : option (gmap string CNIArgValue);
}.

(** The [guid] field of the [cni-args] of a selection entry. *)
Definition guidField (n : NetworkSelectionElement) : option CNIArgValue :=
  match CNIArgs n with
  | Some args => args !! "guid"
  | None => None
  end.

(** [kapi.Pod], restricted to what the daemon touches. *)
Record Pod : Type := mkPod {
  PodUID : UID;
  Namespace : string;
  PodName : string;
  Annotations : gmap string string;
}.

(** Pods are handled through pointers ([*kapi.Pod]): an address in the pod
    heap.  An address outside the heap plays the role of a nil pointer. *)
Definition PodRef := nat.

(** The value stored under a network name in a pending-work map is an
    [interface{}]: a pod list, or something else. *)
Inductive Value : Type :=
| VPods (pods : list PodRef)
| VOther (descr : string).

(** [v1.NetworkAttachmentDefinition]: only [Spec.Config] is read. *)
Record NetworkAttachmentDefinition : Type := mkNAD {
  SpecConfig : string;
}.

(** The IB-SRIOV CNI spec: only [PKey] is read. *)
Record IbSriovCniSpec : Type := mkIbSpec {
  PKey : string;
}.

(** Modelled from the spec: the constant [utils.InfiniBandAnnotation] is
    declared in [pkg/utils], which is not part of the sources at hand; the
    annotation schema gives the key of the marker,
    ["mellanox.infiniband.app"]. *)
Definition InfiniBandAnnotation : string := "mellanox.infiniband.app".

(** Modelled from the spec: the constant [utils.ConfiguredInfiniBandPod] is
    declared in [pkg/utils] as well; the annotation schema gives the value
    of the marker, ["configured"]. *)
Definition ConfiguredInfiniBandPod : CNIArgValue := ArgString "configured".

(** Modelled from the spec: [UnSafeRemove] is a method of the synchronized
    map of [pkg/utils], which is not part of the sources at hand; it removes
    the network entry from the map, and does nothing when there is none. *)
Definition UnSafeRemove (key : string) (items : gmap string Value)
    : gmap string Value :=
  delete key items.

(** Modelled from the spec: [UnSafeSet] is a method of the synchronized map
    of [pkg/utils] as well; it replaces the value of the network entry. *)
Definition UnSafeSet (key : string) (value : Value)
    (items : gmap string Value) : gmap string Value :=
  <[key := value]> items.

(** [v1.NetworkAttachmentAnnot] of the network-attachment-definition client:
    the key of the network selection annotation. *)
Definition NetworkAttachmentAnnot : string := "k8s.v1.cni.cncf.io/networks".

(** ** Calls on the collaborators *)

Inductive Event : Type :=
| EvGetNetworkAttachmentDefinition (namespace name : string)
    (r : result NetworkAttachmentDefinition)
| EvSetAnnotationsOnPod (pod : Pod) (annotations : gmap string string)
    (r : option error)
| EvAllocateGUID (uid : UID) (network guid : string) (r : option error)
| EvGenerateGUID (r : result HardwareAddr)
| EvReleaseGUID (guid : string) (r : option error)
| EvAddGuidsToPKey (pKey : Z) (guids : list HardwareAddr) (r : option error)
| EvRemoveGuidsFromPKey (pKey : Z) (guids : list HardwareAddr)
    (r : option error).

Definition isSMCall (e : Event) : bool :=
  match e with
  | EvAddGuidsToPKey _ _ _ | EvRemoveGuidsFromPKey _ _ _ => true
  | _ => false
  end.

Definition isOrchestratorCall (e : Event) : bool :=
  match e with
  | EvGetNetworkAttachmentDefinition _ _ _ | EvSetAnnotationsOnPod _ _ _ => true
  | _ => false
  end.

Definition isRelease (e : Event) : bool :=
  match e with
  | EvReleaseGUID _ _ => true
  | _ => false
  end.

(** The interfaces of the daemon's fields, over a world [W] that holds the
    state of the cluster, of the pool and of the fabric. *)
Class Client (W : Type) : Type := {
  GetNetworkAttachmentDefinition :
    string → string → W → result NetworkAttachmentDefinition * W;
  SetAnnotationsOnPod : Pod → gmap string string → W → option error * W;
}.

Class GuidPool (W : Type) : Type := {
  AllocateGUID : UID → string → string → W → option error * W;
  GenerateGUID : W → result HardwareAddr * W;
  ReleaseGUID : string → W → option error * W;
}.

Class SubnetManagerClient (W : Type) : Type := {
  AddGuidsToPKey : Z → list HardwareAddr → W → option error * W;
  RemoveGuidsFromPKey : Z → list HardwareAddr → W → option error * W;
}.

(** The pure helpers the passes call: [encoding/json], [net],
    [netAttUtils] and [pkg/utils].  [GetPodNetwork] returns a pointer to one
    of the entries of the slice it is given; the model represents that
    pointer by the position of the entry, and a position outside the slice
    stands for a nil entry returned without an error, on which the passes
    panic.  [SetPodNetworkGuid] mutates the entry it is given: it returns
    the entry after the call.  [ParsePKey] returns its integer together with
    the error, as the add pass reads the integer while it drops the
    error. *)
Class Helpers : Type := {
  NetworkSpec : Type;
  jsonUnmarshal : string → result NetworkSpec;
  jsonMarshal : list NetworkSelectionElement → result string;
  ParsePodNetworkAnnotation : Pod → result (list NetworkSelectionElement);
  GetIbSriovCniFromNetwork : NetworkSpec → result IbSriovCniSpec;
  GetPodNetwork : list NetworkSelectionElement → string → result nat;
  GetPodNetworkGuid : NetworkSelectionElement → result string;
  SetPodNetworkGuid :
    NetworkSelectionElement → string → NetworkSelectionElement * option error;
  IsPodNetworkConfiguredWithInfiniBand : NetworkSelectionElement → bool;
  ParsePKey : string → Z * option error;
  ParseMAC : string → result HardwareAddr;
  HardwareAddrString : HardwareAddr → string;
}.

(** [strings.Contains(strings.ToLower(msg), "not found")].  The case mapping
    is the one of ASCII letters; no other letter lowers to a letter of
    ["not found"], so the test agrees with Go's on every message. *)
Definition lowerAscii (c : ascii) : ascii :=
  let n := nat_of_ascii c in
  if (65 <=? n) && (n <=? 90) then ascii_of_nat (n + 32) else c.

Fixpoint ToLower (s : string) : string :=
  match s with
  | EmptyString => EmptyString
  | String c r => String (lowerAscii c) (ToLower r)
  end.

Fixpoint Contains (s substr : string) : bool :=
  if String.prefix substr s then true
  else match s with
       | EmptyString => false
       | String _ r => Contains r substr
       end.

Definition isNotFound (err : error) : bool :=
  Contains (ToLower err) "not found".

(** ** The state the passes run in *)

Section Store.

Context {W : Type}.

Record State : Type := mkState {
  world : W;
  calls : list Event;
  heap : gmap PodRef Pod;
  addMap : gmap string Value;
  deleteMap : gmap string Value;
  podNetworksMap : gmap UID (list NetworkSelectionElement);
}.

Definition setWorldCalls (w : W) (c : list Event) (s : State) : State :=
  mkState w c (heap s) (addMap s) (deleteMap s) (podNetworksMap s).
Definition setHeap (h : gmap PodRef Pod) (s : State) : State :=
  mkState (world s) (calls s) h (addMap s) (deleteMap s) (podNetworksMap s).
Definition setAddMap (m : gmap string Value) (s : State) : State :=
  mkState (world s) (calls s) (heap s) m (deleteMap s) (podNetworksMap s).
Definition setDeleteMap (m : gmap string Value) (s : State) : State :=
  mkState (world s) (calls s) (heap s) (addMap s) m (podNetworksMap s).
Definition setPodNetworksMap
    (m : gmap UID (list NetworkSelectionElement)) (s : State) : State :=
  mkState (world s) (calls s) (heap s) (addMap s) (deleteMap s) m.

(** A computation either finishes with a value or panics (a nil
    dereference aborts the daemon); the state reached is kept in both
    cases. *)
Inductive Res (A : Type) : Type :=
| Done (a : A)
| Panicked.
Arguments Done {A} a.
Arguments Panicked {A}.

Definition M (A : Type) : Type := State → Res A * State.

Definition ret {A} (a : A) : M A := λ s, (Done a, s).

Definition bind {A B} (m : M A) (k : A → M B) : M B :=
  λ s, match m s with
       | (Done a, s') => k a s'
       | (Panicked, s') => (Panicked, s')
       end.

Definition panic {A} : M A := λ s, (Panicked, s).

Definition gets {A} (f : State → A) : M A := λ s, (Done (f s), s).

Definition modify (f : State → State) : M unit := λ s, (Done tt, f s).

(** A call on a collaborator: the world moves and the call is logged with
    its result. *)
Definition call {A} (op : W → A * W) (ev : A → Event) : M A :=
  λ s, let (r, w') := op (world s) in
       (Done r, setWorldCalls w' (calls s ++ [ev r]) s).

End Store.

Arguments State W : clear implicits.
Arguments M W A : clear implicits.
Arguments Done {A} a.
Arguments Panicked {A}.

Notation "'do' x '<-' m ; k" := (bind m (λ x, k))
  (at level 10, x name, m at level 100, k at level 200,
   format "'[v' 'do'  x  '<-'  m ; '/' k ']'").

Section Daemon.

Context {W : Type}.
Context {client : Client W} {pool : GuidPool W} {sm : SubnetManagerClient W}.
Context {helpers : Helpers}.

#[local] Abbreviation M := (M W).
#[local] Abbreviation State := (State W).

Fixpoint foldM {A B} (f : B → A → M B) (l : list A) (b : B) : M B :=
  match l with
  | [] => ret b
  | a :: l' => do b' <- f b a; foldM f l' b'
  end.

(** [for index, x := range l] *)
Fixpoint foldMi {A B} (f : B → nat → A → M B) (index : nat) (l : list A)
    (b : B) : M B :=
  match l with
  | [] => ret b
  | a :: l' => do b' <- f b index a; foldMi f (S index) l' b'
  end.

(** Dereference of a pod pointer. *)
Definition derefPod (p : PodRef) : M Pod :=
  do o <- gets (λ s, heap s !! p);
  match o with
  | Some pod => ret pod
  | None => panic
  end.

(** [pod.Annotations[key] = value] *)
Definition setPodAnnotation (p : PodRef) (key value : string) : M unit :=
  modify (λ s,
    match heap s !! p with
    | Some pod =>
        setHeap (<[p := mkPod (PodUID pod) (Namespace pod) (PodName pod)
                         (<[key := value]> (Annotations pod))]> (heap s)) s
    | None => s
    end).

(** [addMap.UnSafeRemove], [addMap.UnSafeSet] and the same on
    [deleteMap]. *)
Definition addMapUnSafeRemove (networkName : string) : M unit :=
  modify (λ s, setAddMap (UnSafeRemove networkName (addMap s)) s).
Definition addMapUnSafeSet (networkName : string) (v : Value) : M unit :=
  modify (λ s, setAddMap (UnSafeSet networkName v (addMap s)) s).
Definition deleteMapUnSafeRemove (networkName : string) : M unit :=
  modify (λ s, setDeleteMap (UnSafeRemove networkName (deleteMap s)) s).
Definition deleteMapUnSafeSet (networkName : string) (v : Value) : M unit :=
  modify (λ s, setDeleteMap (UnSafeSet networkName v (deleteMap s)) s).

(** ** The add pass *)

(** The lists the add pass builds for one network. *)
Record AddAcc : Type := mkAddAcc {
  guidList : list HardwareAddr;
  passedPods : list PodRef;
  failedPods : list PodRef;
  podNetworkMap : gmap UID nat;
}.

Definition emptyAddAcc : AddAcc := mkAddAcc [] [] [] ∅.

(** [failedPods = append(failedPods, pod); continue] *)
Definition addFailed (p : PodRef) (acc : AddAcc) : AddAcc :=
  mkAddAcc (guidList acc) (passedPods acc) (failedPods acc ++ [p])
    (podNetworkMap acc).

(** [guidList = append(guidList, guidAddr);
     passedPods = append(passedPods, pod)] *)
Definition addPassed (p : PodRef) (guidAddr : HardwareAddr) (acc : AddAcc)
    : AddAcc :=
  mkAddAcc (guidList acc ++ [guidAddr]) (passedPods acc ++ [p])
    (failedPods acc) (podNetworkMap acc).

(** [podNetworkMap[pod.UID] = network] *)
Definition addNetworkOf (uid : UID) (i : nat) (acc : AddAcc) : AddAcc :=
  mkAddAcc (guidList acc) (passedPods acc) (failedPods acc)
    (<[uid := i]> (podNetworkMap acc)).

(** Lines 178-189: the networks of the pod, from the cache of the pass or
    parsed from the pod's annotations and then cached. *)
Definition podNetworks (pod : Pod)
    : M (result (list NetworkSelectionElement)) :=
  do cached <- gets (λ s, podNetworksMap s !! PodUID pod);
  match cached with
  | Some networks => ret (Ok networks)
  | None =>
      match ParsePodNetworkAnnotation pod with
      | Err e => ret (Err e)
      | Ok networks =>
          do _ <- modify (λ s,
                    setPodNetworksMap
                      (<[PodUID pod := networks]> (podNetworksMap s)) s);
          ret (Ok networks)
      end
  end.

(** Lines 200-248 on the entry [network], which is entry [i] of
    [networks], the slice cached for the pod. *)
Definition addAllocate (networkName : string) (p : PodRef) (pod : Pod)
    (networks : list NetworkSelectionElement) (i : nat)
    (network : NetworkSelectionElement) (acc : AddAcc) : M AddAcc :=
  match GetPodNetworkGuid network with
  | Ok allocatedGuid =>
      (* User allocated guid manually *)
      do r <- call (AllocateGUID (PodUID pod) networkName allocatedGuid)
                (EvAllocateGUID (PodUID pod) networkName allocatedGuid);
      match r with
      | Some _ => ret (addFailed p acc)
      | None =>
          match ParseMAC allocatedGuid with
          | Err _ => ret (addFailed p acc)
          | Ok guidAddr => ret (addPassed p guidAddr acc)
          end
      end
  | Err _ =>
      do g <- call GenerateGUID EvGenerateGUID;
      match g with
      | Err _ => ret (addFailed p acc)
      | Ok guidAddr =>
          let allocatedGuid := HardwareAddrString guidAddr in
          do r <- call (AllocateGUID (PodUID pod) networkName allocatedGuid)
                    (EvAllocateGUID (PodUID pod) networkName allocatedGuid);
          match r with
          | Some _ => ret (addFailed p acc)
          | None =>
              let (network', err) := SetPodNetworkGuid network allocatedGuid in
              let networks' := <[i := network']> networks in
              do _ <- modify (λ s,
                        setPodNetworksMap
                          (<[PodUID pod := networks']> (podNetworksMap s)) s);
              match err with
              | Some _ => ret (addFailed p acc)
              | None =>
                  match jsonMarshal networks' with
                  | Err _ => ret (addFailed p acc)
                  | Ok netAnnotations =>
                      do _ <- setPodAnnotation p NetworkAttachmentAnnot
                                netAnnotations;
                      ret (addPassed p guidAddr acc)
                  end
              end
          end
      end
  end.

(** Lines 176-249: the body of [for _, pod := range pods]. *)
Definition addPodStep (networkName : string) (acc : AddAcc) (p : PodRef)
    : M AddAcc :=
  do pod <- derefPod p;
  do parsed <- podNetworks pod;
  match parsed with
  | Err _ => ret (addFailed p acc)
  | Ok networks =>
      match GetPodNetwork networks networkName with
      | Err _ => ret (addFailed p acc)
      | Ok i =>
          let acc := addNetworkOf (PodUID pod) i acc in
          match networks !! i with
          | None => panic
          | Some network =>
              addAllocate networkName p pod networks i network acc
          end
      end
  end.

(** The lists the annotation loop extends. *)
Record UpdAcc : Type := mkUpdAcc {
  updFailedPods : list PodRef;
  removedGuidList : list HardwareAddr;
}.

(** Lines 272-293: the annotations of the pod are serialized from
    [networks], written on the pod object and sent to the cluster. *)
Definition addCommit (acc : AddAcc) (u : UpdAcc) (index : nat) (p : PodRef)
    (networks : list NetworkSelectionElement) : M UpdAcc :=
  match jsonMarshal networks with
  | Err _ => ret (mkUpdAcc (updFailedPods u ++ [p]) (removedGuidList u))
  | Ok netAnnotations =>
      do _ <- setPodAnnotation p NetworkAttachmentAnnot netAnnotations;
      do pod <- derefPod p;
      do r <- call (SetAnnotationsOnPod pod (Annotations pod))
                (EvSetAnnotationsOnPod pod (Annotations pod));
      match r with
      | None => ret u
      | Some err =>
          if negb (isNotFound err) then
            ret (mkUpdAcc (updFailedPods u ++ [p]) (removedGuidList u))
          else
            match guidList acc !! index with
            | None => panic
            | Some guidAddr =>
                do _ <- call (ReleaseGUID (HardwareAddrString guidAddr))
                          (EvReleaseGUID (HardwareAddrString guidAddr));
                ret (mkUpdAcc (updFailedPods u)
                       (removedGuidList u ++ [guidAddr]))
            end
      end
  end.

(** Line 269: the map [network.CNIArgs] points to gets the entry
    [utils.InfiniBandAnnotation = utils.ConfiguredInfiniBandPod]. *)
Definition markConfigured (network : NetworkSelectionElement)
    (args : gmap string CNIArgValue) : NetworkSelectionElement :=
  mkNetwork (Name network) (NetNamespace network)
    (Some (<[InfiniBandAnnotation := ConfiguredInfiniBandPod]> args)).

(** Lines 267-294: the body of [for index, pod := range passedPods].  The
    entry [podNetworkMap[pod.UID]] is entry [i] of the slice cached for the
    pod; the pass stored both in the allocation loop. *)
Definition addAnnotateStep (acc : AddAcc) (u : UpdAcc) (index : nat)
    (p : PodRef) : M UpdAcc :=
  do pod <- derefPod p;
  do cached <- gets (λ s, podNetworksMap s !! PodUID pod);
  match podNetworkMap acc !! PodUID pod, cached with
  | Some i, Some networks =>
      match networks !! i with
      | None => panic
      | Some network =>
          match CNIArgs network with
          | None => panic
          | Some args =>
              let networks' := <[i := markConfigured network args]> networks in
              do _ <- modify (λ s,
                        setPodNetworksMap
                          (<[PodUID pod := networks']> (podNetworksMap s)) s);
              addCommit acc u index p networks'
          end
      end
  | _, _ => panic
  end.

(** Lines 306-310. *)
Definition addBookkeeping (networkName : string) (failed : list PodRef)
    : M unit :=
  if length failed =? 0 then addMapUnSafeRemove networkName
  else addMapUnSafeSet networkName (VPods failed).

(** Lines 296-310. *)
Definition addWithdraw (networkName : string) (ibCniSpec : IbSriovCniSpec)
    (u : UpdAcc) : M unit :=
  if negb (String.eqb (PKey ibCniSpec) "")
     && negb (length (removedGuidList u) =? 0) then
    (* Already check the parse above *)
    let pKey := fst (ParsePKey (PKey ibCniSpec)) in
    do r <- call (RemoveGuidsFromPKey pKey (removedGuidList u))
              (EvRemoveGuidsFromPKey pKey (removedGuidList u));
    match r with
    | Some _ => ret tt
    | None => addBookkeeping networkName (updFailedPods u)
    end
  else addBookkeeping networkName (updFailedPods u).

(** Lines 265-310. *)
Definition addAnnotate (networkName : string) (ibCniSpec : IbSriovCniSpec)
    (acc : AddAcc) : M unit :=
  do u <- foldMi (addAnnotateStep acc) 0 (passedPods acc)
            (mkUpdAcc (failedPods acc) []);
  addWithdraw networkName ibCniSpec u.

(** Lines 251-310. *)
Definition addProgram (networkName : string) (ibCniSpec : IbSriovCniSpec)
    (acc : AddAcc) : M unit :=
  if negb (String.eqb (PKey ibCniSpec) "")
     && negb (length (guidList acc) =? 0) then
    let (pKey, err) := ParsePKey (PKey ibCniSpec) in
    match err with
    | Some _ => ret tt
    | None =>
        do r <- call (AddGuidsToPKey pKey (guidList acc))
                  (EvAddGuidsToPKey pKey (guidList acc));
        match r with
        | Some _ => ret tt
        | None => addAnnotate networkName ibCniSpec acc
        end
    end
  else addAnnotate networkName ibCniSpec acc.

(** Lines 172-310. *)
Definition addPods (networkName : string) (ibCniSpec : IbSriovCniSpec)
    (pods : list PodRef) : M unit :=
  do acc <- foldM (addPodStep networkName) pods emptyAddAcc;
  addProgram networkName ibCniSpec acc.

(** Lines 134-310: the body of
    [for networkName, podsInterface := range addMap.Items]. *)
Definition addNetwork (networkName : string) (podsInterface : Value)
    : M unit :=
  match podsInterface with
  | VOther _ => ret tt
  | VPods pods =>
      match pods with
      | [] => ret tt
      | p0 :: _ =>
          do pod0 <- derefPod p0;
          let networkNamespace := Namespace pod0 in
          do r <- call
                    (GetNetworkAttachmentDefinition networkNamespace
                       networkName)
                    (EvGetNetworkAttachmentDefinition networkNamespace
                       networkName);
          match r with
          | Err _ => ret tt
          | Ok netAttInfo =>
              match jsonUnmarshal (SpecConfig netAttInfo) with
              | Err _ => ret tt
              | Ok networkSpec =>
                  match GetIbSriovCniFromNetwork networkSpec with
                  | Err _ => addMapUnSafeRemove networkName
                  | Ok ibCniSpec => addPods networkName ibCniSpec pods
                  end
              end
          end
      end
  end.

(** One iteration of the range over [addMap.Items]: an entry removed before
    the range reaches it is not produced. *)
Definition addVisit (networkName : string) : M unit :=
  do entry <- gets (λ s, addMap s !! networkName);
  match entry with
  | None => ret tt
  | Some podsInterface => addNetwork networkName podsInterface
  end.

(** [AddPeriodicUpdate]; [order] is the order in which the range produces
    the keys of [addMap.Items], which Go leaves unspecified. *)
Definition AddPeriodicUpdate (order : list string) : M unit :=
  do _ <- modify (setPodNetworksMap ∅);
  foldM (λ _ networkName, addVisit networkName) order tt.

(** ** The delete pass *)

Record DelAcc : Type := mkDelAcc {
  delGuidList : list HardwareAddr;
  delFailedPods : list PodRef;
}.

Definition delFailed (p : PodRef) (acc : DelAcc) : DelAcc :=
  mkDelAcc (delGuidList acc) (delFailedPods acc ++ [p]).

(** Lines 360-398: the body of [for _, pod := range pods]. *)
Definition deletePodStep (networkName : string) (acc : DelAcc) (p : PodRef)
    : M DelAcc :=
  do pod <- derefPod p;
  match ParsePodNetworkAnnotation pod with
  | Err _ => ret (delFailed p acc)
  | Ok networks =>
      match GetPodNetwork networks networkName with
      | Err _ => ret (delFailed p acc)
      | Ok i =>
          match networks !! i with
          | None => panic
          | Some network =>
              if negb (IsPodNetworkConfiguredWithInfiniBand network) then
                ret acc
              else
                match GetPodNetworkGuid network with
                | Err _ => ret (delFailed p acc)
                | Ok allocatedGuid =>
                    match ParseMAC allocatedGuid with
                    | Err _ => ret (delFailed p acc)
                    | Ok guidAddr =>
                        ret (mkDelAcc (delGuidList acc ++ [guidAddr])
                               (delFailedPods acc))
                    end
                end
          end
      end
  end.

(** Lines 414-419. *)
Definition deleteReleaseStep (_ : unit) (guidAddr : HardwareAddr) : M unit :=
  do _ <- call (ReleaseGUID (HardwareAddrString guidAddr))
            (EvReleaseGUID (HardwareAddrString guidAddr));
  ret tt.

(** Lines 420-424. *)
Definition deleteBookkeeping (networkName : string) (failed : list PodRef)
    : M unit :=
  if length failed =? 0 then deleteMapUnSafeRemove networkName
  else deleteMapUnSafeSet networkName (VPods failed).

(** Lines 414-424. *)
Definition deleteRelease (networkName : string) (acc : DelAcc) : M unit :=
  do _ <- foldM deleteReleaseStep (delGuidList acc) tt;
  deleteBookkeeping networkName (delFailedPods acc).

(** Lines 400-424. *)
Definition deleteWithdraw (networkName : string) (ibCniSpec : IbSriovCniSpec)
    (acc : DelAcc) : M unit :=
  if negb (String.eqb (PKey ibCniSpec) "")
     && negb (length (delGuidList acc) =? 0) then
    let (pKey, pkeyErr) := ParsePKey (PKey ibCniSpec) in
    match pkeyErr with
    | Some _ => ret tt
    | None =>
        do r <- call (RemoveGuidsFromPKey pKey (delGuidList acc))
                  (EvRemoveGuidsFromPKey pKey (delGuidList acc));
        match r with
        | Some _ => ret tt
        | None => deleteRelease networkName acc
        end
    end
  else deleteRelease networkName acc.

(** Lines 358-424. *)
Definition deletePods (networkName : string) (ibCniSpec : IbSriovCniSpec)
    (pods : list PodRef) : M unit :=
  do acc <- foldM (deletePodStep networkName) pods (mkDelAcc [] []);
  deleteWithdraw networkName ibCniSpec acc.

(** Lines 321-424: the body of
    [for networkName, podsInterface := range deleteMap.Items]. *)
Definition deleteNetwork (networkName : string) (podsInterface : Value)
    : M unit :=
  match podsInterface with
  | VOther _ => ret tt
  | VPods pods =>
      match pods with
      | [] => ret tt
      | p0 :: _ =>
          do pod0 <- derefPod p0;
          let networkNamespace := Namespace pod0 in
          do r <- call
                    (GetNetworkAttachmentDefinition networkNamespace
                       networkName)
                    (EvGetNetworkAttachmentDefinition networkNamespace
                       networkName);
          match r with
          | Err _ => ret tt
          | Ok netAttInfo =>
              match jsonUnmarshal (SpecConfig netAttInfo) with
              | Err _ => ret tt
              | Ok networkSpec =>
                  match GetIbSriovCniFromNetwork networkSpec with
                  | Err _ => ret tt
                  | Ok ibCniSpec => deletePods networkName ibCniSpec pods
                  end
              end
          end
      end
  end.

Definition deleteVisit (networkName : string) : M unit :=
  do entry <- gets (λ s, deleteMap s !! networkName);
  match entry with
  | None => ret tt
  | Some podsInterface => deleteNetwork networkName podsInterface
  end.

(** [DeletePeriodicUpdate]; [order] is the order in which the range produces
    the keys of [deleteMap.Items]. *)
Definition DeletePeriodicUpdate (order : list string) : M unit :=
  foldM (λ _ networkName, deleteVisit networkName) order tt.

End Daemon.

(** ** Startup *)

(** The steps of [NewDaemon], in the order of the source. *)
Inductive BootStep : Type :=
| StepReadConfig
| StepValidateConfig
| StepNewPodEventHandler
| StepNewK8sClient
| StepNewGuidPool
| StepInitPool
| StepNewPluginLoader
| StepLoadPlugin
| StepGetSmClient
| StepValidate
| StepNewWatcher.

(** A call made by [NewDaemon], with the error it returned; the call that
    loads the plugin is logged with the path and the symbol it asked for. *)
Inductive BootEvent : Type :=
| EvBoot (step : BootStep) (failure : option error)
| EvLoadPlugin (path symbol : string) (failure : option error).

Definition stepOf (e : BootEvent) : BootStep :=
  match e with
  | EvBoot step _ => step
  | EvLoadPlugin _ _ _ => StepLoadPlugin
  end.

Definition failureOf (e : BootEvent) : option error :=
  match e with
  | EvBoot _ failure => failure
  | EvLoadPlugin _ _ failure => failure
  end.

Definition errorOf {A} (r : result A) : option error :=
  match r with
  | Ok _ => None
  | Err e => Some e
  end.

(** What [NewDaemon] calls: the configuration, the constructors of the
    client, of the pool and of the watcher, and the plugin loader, over a
    world [B] that holds the environment of the process.  [pathJoin] is
    [path.Join] and [InitializePluginFunc] the constant of [pkg/sm]. *)
Class Boot (B : Type) : Type := {
  DaemonConfig : Type;
  GuidPoolConfig : Type;
  PodEventHandler : Type;
  KubeClient : Type;
  Pool : Type;
  PluginLoader : Type;
  GetSmClientFunc : Type;
  SmClient : Type;
  PodWatcher : Type;
  emptyDaemonConfig : DaemonConfig;
  Plugin : DaemonConfig → string;
  GuidPoolOf : DaemonConfig → GuidPoolConfig;
  ReadConfig : DaemonConfig → B → (DaemonConfig * option error) * B;
  ValidateConfig : DaemonConfig → B → option error * B;
  NewPodEventHandler : B → PodEventHandler * B;
  NewK8sClient : B → result KubeClient * B;
  NewGuidPool : GuidPoolConfig → KubeClient → B → result Pool * B;
  InitPool : Pool → B → option error * B;
  NewPluginLoader : B → PluginLoader * B;
  LoadPlugin : PluginLoader → string → string → B → result GetSmClientFunc * B;
  getSmClient : GetSmClientFunc → B → result SmClient * B;
  Validate : SmClient → B → option error * B;
  NewWatcher : PodEventHandler → KubeClient → B → PodWatcher * B;
  pathJoin : string → string → string;
  InitializePluginFunc : string;
}.

Section Startup.

Context {B : Type} {boot : Boot B}.

(** The [daemon] struct. *)
Record daemon : Type := mkDaemon {
  config : DaemonConfig;
  watcher : PodWatcher;
  kubeClient : KubeClient;
  guidPool : Pool;
  smClient : SmClient;
}.

(** The world of the process and the log of the calls made so far. *)
Definition BootState : Type := B * list BootEvent.
Definition BootM (A : Type) : Type := BootState → A * BootState.

Definition bootRet {A} (a : A) : BootM A := λ st, (a, st).

Definition bootBind {A C} (m : BootM A) (k : A → BootM C) : BootM C :=
  λ st, let (a, st') := m st in k a st'.

Definition bootCall {A} (op : B → A * B) (ev : A → BootEvent) : BootM A :=
  λ st, let (r, b') := op (fst st) in (r, (b', snd st ++ [ev r])).

Notation "'boot' x '<-' m ; k" := (bootBind m (λ x, k))
  (at level 10, x name, m at level 100, k at level 200,
   format "'[v' 'boot'  x  '<-'  m ; '/' k ']'").

(** [NewDaemon], lines 46-103. *)
Definition NewDaemon : BootM (result daemon) :=
  boot read <- bootCall (ReadConfig emptyDaemonConfig)
                 (λ r, EvBoot StepReadConfig (snd r));
  let daemonConfig := fst read in
  match snd read with
  | Some err => bootRet (Err err)
  | None =>
  boot invalid <- bootCall (ValidateConfig daemonConfig)
                    (EvBoot StepValidateConfig);
  match invalid with
  | Some err => bootRet (Err err)
  | None =>
  boot podEventHandler <- bootCall NewPodEventHandler
                            (λ _, EvBoot StepNewPodEventHandler None);
  boot c <- bootCall NewK8sClient (λ r, EvBoot StepNewK8sClient (errorOf r));
  match c with
  | Err err => bootRet (Err err)
  | Ok client =>
  boot g <- bootCall (NewGuidPool (GuidPoolOf daemonConfig) client)
              (λ r, EvBoot StepNewGuidPool (errorOf r));
  match g with
  | Err err => bootRet (Err err)
  | Ok guidPool =>
  boot uninitialized <- bootCall (InitPool guidPool) (EvBoot StepInitPool);
  match uninitialized with
  | Some err => bootRet (Err err)
  | None =>
  boot pluginLoader <- bootCall NewPluginLoader
                         (λ _, EvBoot StepNewPluginLoader None);
  let pluginPath := pathJoin "/plugins" (Plugin daemonConfig +:+ ".so") in
  boot l <- bootCall (LoadPlugin pluginLoader pluginPath InitializePluginFunc)
              (λ r, EvLoadPlugin pluginPath InitializePluginFunc (errorOf r));
  match l with
  | Err err => bootRet (Err err)
  | Ok getSmClientFunc =>
  boot m <- bootCall (getSmClient getSmClientFunc)
              (λ r, EvBoot StepGetSmClient (errorOf r));
  match m with
  | Err err => bootRet (Err err)
  | Ok smClient =>
  boot unvalidated <- bootCall (Validate smClient) (EvBoot StepValidate);
  match unvalidated with
  | Some err => bootRet (Err err)
  | None =>
  boot podWatcher <- bootCall (NewWatcher podEventHandler client)
                       (λ _, EvBoot StepNewWatcher None);
  bootRet (Ok (mkDaemon daemonConfig podWatcher client guidPool smClient))
  end end end end end end end end.

(** The steps of a startup that goes through. *)
Definition startupSteps : list BootStep :=
  [StepReadConfig; StepValidateConfig; StepNewPodEventHandler;
   StepNewK8sClient; StepNewGuidPool; StepInitPool; StepNewPluginLoader;
   StepLoadPlugin; StepGetSmClient; StepValidate; StepNewWatcher].

End Startup.

(** ** Vocabulary of the theorems *)

Section Vocabulary.

Context {W : Type}.
Context {client : Client W} {pool : GuidPool W} {sm : SubnetManagerClient W}.
Context {helpers : Helpers}.

(** The state reached by a computation, and what it returned. *)
Definition after {A} (m : M W A) (s : State W) : State W := snd (m s).
Definition outcome {A} (m : M W A) (s : State W) : Res A := fst (m s).

(** From [s] to [s'] both pending-work maps are unchanged and every call
    made satisfies [P]. *)
Definition quiet (P : Event → bool) (s s' : State W) : Prop :=
  addMap s' = addMap s ∧ deleteMap s' = deleteMap s ∧
  ∃ d, calls s' = calls s ++ d ∧ forallb P d = true.

Definition stays (P : Event → bool) {A} (m : M W A) : Prop :=
  ∀ s, quiet P s (after m s).

(** Every value the computation returns satisfies [Q]. *)
Definition yields {A} (Q : A → Prop) (m : M W A) : Prop :=
  ∀ s a s', m s = (Done a, s') → Q a.

(** The network attachment definition of [networkName] was fetched for the
    namespace of the first pending pod and its IB-SRIOV spec [ibCniSpec]
    extracted (lines 145-170 and 332-356); [s1] is the state after the
    fetch. *)
Inductive Fetched (networkName : string) (pods : list PodRef)
    (ibCniSpec : IbSriovCniSpec) (s s1 : State W) : Prop :=
| fetched (p0 : PodRef) (ps : list PodRef) (pod0 : Pod)
    (netAttInfo : NetworkAttachmentDefinition) (w1 : W)
    (networkSpec : NetworkSpec) :
    pods = p0 :: ps →
    heap s !! p0 = Some pod0 →
    GetNetworkAttachmentDefinition (Namespace pod0) networkName (world s)
      = (Ok netAttInfo, w1) →
    jsonUnmarshal (SpecConfig netAttInfo) = Ok networkSpec →
    GetIbSriovCniFromNetwork networkSpec = Ok ibCniSpec →
    s1 = setWorldCalls w1
           (calls s ++ [EvGetNetworkAttachmentDefinition (Namespace pod0)
                          networkName (Ok netAttInfo)]) s →
    Fetched networkName pods ibCniSpec s s1.

(** What one step of the allocation loop does to the lists of the pass:
    the pod is recorded as failed, or it is passed together with a GUID. *)
Inductive Allocated (p : PodRef) (acc acc' : AddAcc) : Prop :=
| allocated_failed :
    guidList acc' = guidList acc →
    passedPods acc' = passedPods acc →
    failedPods acc' = failedPods acc ++ [p] →
    Allocated p acc acc'
| allocated_passed (guidAddr : HardwareAddr) :
    guidList acc' = guidList acc ++ [guidAddr] →
    passedPods acc' = passedPods acc ++ [p] →
    failedPods acc' = failedPods acc →
    Allocated p acc acc'.

(** The calls each loop may make. *)
Definition isAllocCall (e : Event) : bool :=
  match e with
  | EvAllocateGUID _ _ _ _ | EvGenerateGUID _ => true
  | _ => false
  end.

Definition isAnnotateCall (e : Event) : bool :=
  match e with
  | EvSetAnnotationsOnPod _ _ _ | EvReleaseGUID _ _ => true
  | _ => false
  end.

Definition noCall (e : Event) : bool := false.

Definition notSMCall (e : Event) : bool := negb (isSMCall e).
Definition notRelease (e : Event) : bool := negb (isRelease e).

(** A computation whose every run relates the state it starts in to the
    state it reaches. *)
Definition respects (R : relation (State W)) {A} (m : M W A) : Prop :=
  ∀ s, R s (after m s).

(** From [s] to [s'] the delete map is unchanged and the add map is
    unchanged outside the entry of [networkName]; and the same with the
    maps exchanged. *)
Definition addOnly (networkName : string) (s s' : State W) : Prop :=
  deleteMap s' = deleteMap s ∧
  ∀ n, n ≠ networkName → addMap s' !! n = addMap s !! n.

Definition deleteOnly (networkName : string) (s s' : State W) : Prop :=
  addMap s' = addMap s ∧
  ∀ n, n ≠ networkName → deleteMap s' !! n = deleteMap s !! n.

(** The end-of-pass bookkeeping on a map: the entry of [networkName] is
    removed when no pod failed, and holds the failed pods otherwise. *)
Definition bookkept (networkName : string) (failed : list PodRef)
    (m : gmap string Value) : gmap string Value :=
  match failed with
  | [] => delete networkName m
  | _ :: _ => <[networkName := VPods failed]> m
  end.

(** The subnet manager has to be called: the PKey is not empty and there
    are GUIDs. *)
Definition smNeeded (ibCniSpec : IbSriovCniSpec) (guids : list HardwareAddr)
    : bool :=
  negb (String.eqb (PKey ibCniSpec) "") && negb (length guids =? 0).

(** Lines 251-263 let the visit go on from [s] to [s']: nothing was to be
    programmed, or the PKey parsed and the subnet manager accepted the
    GUIDs. *)
Inductive Programmed (ibCniSpec : IbSriovCniSpec)
    (guids : list HardwareAddr) (s s' : State W) : Prop :=
| programmed_nothing :
    smNeeded ibCniSpec guids = false → s' = s →
    Programmed ibCniSpec guids s s'
| programmed_guids (pKey : Z) (w : W) :
    smNeeded ibCniSpec guids = true →
    ParsePKey (PKey ibCniSpec) = (pKey, None) →
    AddGuidsToPKey pKey guids (world s) = (None, w) →
    s' = setWorldCalls w (calls s ++ [EvAddGuidsToPKey pKey guids None]) s →
    Programmed ibCniSpec guids s s'.

(** Lines 296-304 let the visit go on from [s] to [s']: nothing was to be
    withdrawn, or the subnet manager withdrew the GUIDs. *)
Inductive Withdrawn (ibCniSpec : IbSriovCniSpec)
    (guids : list HardwareAddr) (s s' : State W) : Prop :=
| withdrawn_nothing :
    smNeeded ibCniSpec guids = false → s' = s →
    Withdrawn ibCniSpec guids s s'
| withdrawn_guids (w : W) :
    smNeeded ibCniSpec guids = true →
    RemoveGuidsFromPKey (fst (ParsePKey (PKey ibCniSpec))) guids (world s)
      = (None, w) →
    s' = setWorldCalls w
           (calls s ++ [EvRemoveGuidsFromPKey
                          (fst (ParsePKey (PKey ibCniSpec))) guids None]) s →
    Withdrawn ibCniSpec guids s s'.

(** Lines 400-412 let the visit go on from [s] to [s']: nothing was to be
    removed, or the PKey parsed and the subnet manager removed the GUIDs. *)
Inductive Removed (ibCniSpec : IbSriovCniSpec)
    (guids : list HardwareAddr) (s s' : State W) : Prop :=
| removed_nothing :
    smNeeded ibCniSpec guids = false → s' = s →
    Removed ibCniSpec guids s s'
| removed_guids (pKey : Z) (w : W) :
    smNeeded ibCniSpec guids = true →
    ParsePKey (PKey ibCniSpec) = (pKey, None) →
    RemoveGuidsFromPKey pKey guids (world s) = (None, w) →
    s' = setWorldCalls w
           (calls s ++ [EvRemoveGuidsFromPKey pKey guids None]) s →
    Removed ibCniSpec guids s s'.

(** The calls of a step of the annotation loop: writes of annotations, and
    releases of the GUID [guid] only. *)
Definition releasesOnly (guid : option string) (e : Event) : bool :=
  match e with
  | EvSetAnnotationsOnPod _ _ _ => true
  | EvReleaseGUID g _ => bool_decide (guid = Some g)
  | _ => false
  end.

(** The log of calls of [s'] extends the log of [s]. *)
Definition logGrows (s s' : State W) : Prop :=
  ∃ d, calls s' = calls s ++ d.

(** Every slice of selection entries cached in [s'] was cached in [s],
    with the same [guid] fields. *)
Definition keepsGuids (s s' : State W) : Prop :=
  ∀ uid l', podNetworksMap s' !! uid = Some l' →
    ∃ l, podNetworksMap s !! uid = Some l ∧ guidField <$> l' = guidField <$> l.

(** The cache of parsed selections is the same in [s'] as in [s]. *)
Definition sameNetworks (s s' : State W) : Prop :=
  podNetworksMap s' = podNetworksMap s.

(** A computation that never panics. *)
Definition total {A} (m : M W A) : Prop :=
  ∀ s, ∃ a s', m s = (Done a, s').

(** What one step of the annotation loop does to its lists: they are
    extended. *)
Definition Extended (u u' : UpdAcc) : Prop :=
  (∃ fs, updFailedPods u' = updFailedPods u ++ fs) ∧
  (∃ gs, removedGuidList u' = removedGuidList u ++ gs).

(** The pod [p] has a selection entry for [networkName] that is not marked
    as configured with InfiniBand. *)
Inductive Unconfigured (networkName : string) (h : gmap PodRef Pod)
    (p : PodRef) : Prop :=
| unconfigured (pod : Pod) (networks : list NetworkSelectionElement)
    (i : nat) (network : NetworkSelectionElement) :
    h !! p = Some pod →
    ParsePodNetworkAnnotation pod = Ok networks →
    GetPodNetwork networks networkName = Ok i →
    networks !! i = Some network →
    IsPodNetworkConfiguredWithInfiniBand network = false →
    Unconfigured networkName h p.

(** The entry of [networkName] holds [v] in whichever of the two maps held
    it before. *)
Definition holds (networkName : string) (v : Value) (s s' : State W) : Prop :=
  (addMap s !! networkName = Some v → addMap s' !! networkName = Some v) ∧
  (deleteMap s !! networkName = Some v →
   deleteMap s' !! networkName = Some v).

(** An entry neither pass works on: an empty pod list, or a value that is
    no pod list. *)
Definition inert (v : Value) : bool :=
  match v with
  | VPods [] => true
  | VPods (_ :: _) => false
  | VOther _ => true
  end.

(** A sequence of passes, each with the order in which it ranges over its
    map. *)
Inductive Pass : Type :=
| AddPass (order : list string)
| DeletePass (order : list string).

Definition runPass (p : Pass) : M W unit :=
  match p with
  | AddPass order => AddPeriodicUpdate order
  | DeletePass order => DeletePeriodicUpdate order
  end.

Definition runPasses (l : list Pass) : M W unit :=
  foldM (λ _ p, runPass p) l tt.

(** What one step of the annotation loop does to its lists: nothing when
    the annotations were written, the pod is appended to the failed pods, or
    the GUID at the index of the pod is appended to the removed GUIDs. *)
Inductive Annotated (acc : AddAcc) (index : nat) (p : PodRef)
    (u u' : UpdAcc) : Prop :=
| annotated_written : u' = u → Annotated acc index p u u'
| annotated_failed :
    u' = mkUpdAcc (updFailedPods u ++ [p]) (removedGuidList u) →
    Annotated acc index p u u'
| annotated_removed (guidAddr : HardwareAddr) :
    guidList acc !! index = Some guidAddr →
    u' = mkUpdAcc (updFailedPods u) (removedGuidList u ++ [guidAddr]) →
    Annotated acc index p u u'.

(** What one step of the scan of the delete pass does to its lists. *)
Inductive Scanned (p : PodRef) (acc acc' : DelAcc) : Prop :=
| scanned_skipped : acc' = acc → Scanned p acc acc'
| scanned_failed : acc' = delFailed p acc → Scanned p acc acc'
| scanned_guid (guidAddr : HardwareAddr) :
    acc' = mkDelAcc (delGuidList acc ++ [guidAddr]) (delFailedPods acc) →
    Scanned p acc acc'.

(** The entry holds pods of [pods] only, each no more often than [pods]
    does; and the same keeping the order of [pods]. *)
Definition withinPods (pods : list PodRef) (entry : option Value) : Prop :=
  match entry with
  | None => True
  | Some (VPods l) => l ⊆+ pods
  | Some (VOther _) => False
  end.

Definition subsequenceOfPods (pods : list PodRef) (entry : option Value)
    : Prop :=
  match entry with
  | None => True
  | Some (VPods l) => sublist l pods
  | Some (VOther _) => False
  end.

(** The calls of the delete pass. *)
Definition isDeleteCall (e : Event) : bool :=
  match e with
  | EvGetNetworkAttachmentDefinition _ _ _ | EvRemoveGuidsFromPKey _ _ _
  | EvReleaseGUID _ _ => true
  | _ => false
  end.

(** From [s] to [s'] the delete pass may have gone: the add map, the pods
    and the cache of parsed selections are unchanged, and the calls made are
    calls of the delete pass. *)
Definition deleteFrame (s s' : State W) : Prop :=
  addMap s' = addMap s ∧ heap s' = heap s ∧
  podNetworksMap s' = podNetworksMap s ∧
  ∃ d, calls s' = calls s ++ d ∧ forallb isDeleteCall d = true.

(** The GUID a call releases. *)
Definition releasedGuid (e : Event) : option string :=
  match e with
  | EvReleaseGUID guid _ => Some guid
  | _ => None
  end.

Definition notAnnotateCall (e : Event) : bool := negb (isAnnotateCall e).

(** From [s] to [s'] calls were made, and the list of them satisfies [Q]. *)
Definition emits (Q : list Event → Prop) (s s' : State W) : Prop :=
  ∃ d, calls s' = calls s ++ d ∧ Q d.

(** The calls a visit of the add pass makes before it writes annotations. *)
Definition isProgramCall (e : Event) : bool :=
  match e with
  | EvGetNetworkAttachmentDefinition _ _ _ | EvAllocateGUID _ _ _ _
  | EvGenerateGUID _ | EvAddGuidsToPKey _ _ _ => true
  | _ => false
  end.

Definition isWithdrawal (e : Event) : bool :=
  match e with
  | EvRemoveGuidsFromPKey _ _ _ => true
  | _ => false
  end.

(** Every withdrawal of GUIDs from a PKey in the log [d] comes after a
    programming of that PKey in [d] which the subnet manager accepted, for
    a batch that holds the withdrawn GUIDs in their order; and no
    withdrawal is empty. *)
Definition withdrawalsProgrammed (d : list Event) : Prop :=
  ∀ i pKey removed r,
    d !! i = Some (EvRemoveGuidsFromPKey pKey removed r) →
    removed ≠ [] ∧
    ∃ j guids, j < i ∧ d !! j = Some (EvAddGuidsToPKey pKey guids None) ∧
               sublist removed guids.

(** A write of annotations sends the annotations of the pod object, and
    their network selection is the serialization of a slice with an entry
    marked as configured. *)
Definition configuredWrite (e : Event) : Prop :=
  match e with
  | EvSetAnnotationsOnPod pod annotations _ =>
      annotations = Annotations pod ∧
      ∃ networks i network args netAnnotations,
        networks !! i = Some network ∧
        CNIArgs network = Some args ∧
        args !! InfiniBandAnnotation = Some ConfiguredInfiniBandPod ∧
        jsonMarshal networks = Ok netAnnotations ∧
        annotations !! NetworkAttachmentAnnot = Some netAnnotations
  | _ => True
  end.

(** From [s] to [s'] no pod object appeared or disappeared, and each kept
    its UID, its namespace, its name and its annotations other than the
    network selection. *)
Definition sameIdentity (s s' : State W) : Prop :=
  ∀ p, match heap s !! p, heap s' !! p with
       | None, None => True
       | Some pod, Some pod' =>
           PodUID pod' = PodUID pod ∧ Namespace pod' = Namespace pod ∧
           PodName pod' = PodName pod ∧
           ∀ key, key ≠ NetworkAttachmentAnnot →
                  Annotations pod' !! key = Annotations pod !! key
       | _, _ => False
       end.

(** The selection entry of the pod [p] for [networkName] is marked as
    configured and carries the GUID [guidAddr]. *)
Inductive Releasable (networkName : string) (h : gmap PodRef Pod)
    (p : PodRef) (guidAddr : HardwareAddr) : Prop :=
| releasable (pod : Pod) (networks : list NetworkSelectionElement)
    (i : nat) (network : NetworkSelectionElement) (allocatedGuid : string) :
    h !! p = Some pod →
    ParsePodNetworkAnnotation pod = Ok networks →
    GetPodNetwork networks networkName = Ok i →
    networks !! i = Some network →
    IsPodNetworkConfiguredWithInfiniBand network = true →
    GetPodNetworkGuid network = Ok allocatedGuid →
    ParseMAC allocatedGuid = Ok guidAddr →
    Releasable networkName h p guidAddr.

(** The GUID was accepted by the pool for the pod: [AllocateGUID] returned
    no error for the UID of the pod, the network and the text of the GUID,
    which the pod carried or which was generated. *)
Definition allocatedFor (networkName : string) (uid : UID)
    (guidAddr : HardwareAddr) (d : list Event) : Prop :=
  ∃ allocatedGuid,
    EvAllocateGUID uid networkName allocatedGuid None ∈ d ∧
    (ParseMAC allocatedGuid = Ok guidAddr ∨
     allocatedGuid = HardwareAddrString guidAddr).

(** Every release in the log [d] releases the text of a GUID of [guids]. *)
Definition releasesOf (guids : list HardwareAddr) (d : list Event) : Prop :=
  ∀ guid r, EvReleaseGUID guid r ∈ d →
    ∃ guidAddr, guidAddr ∈ guids ∧ guid = HardwareAddrString guidAddr.

(** Every release in the log [d] releases the text of a GUID that the pool
    accepted earlier in [d]. *)
Definition releasesAllocated (d : list Event) : Prop :=
  ∀ i guid r,
    d !! i = Some (EvReleaseGUID guid r) →
    ∃ j uid network allocatedGuid guidAddr,
      j < i ∧
      d !! j = Some (EvAllocateGUID uid network allocatedGuid None) ∧
      (ParseMAC allocatedGuid = Ok guidAddr ∨
       allocatedGuid = HardwareAddrString guidAddr) ∧
      guid = HardwareAddrString guidAddr.

(** The GUID is the GUID of the configured selection entry of a pod that
    is pending in the map [m], for the network it is pending for. *)
Definition pendingGuid (h : gmap PodRef Pod) (m : gmap string Value)
    (guidAddr : HardwareAddr) : Prop :=
  ∃ networkName pods p,
    m !! networkName = Some (VPods pods) ∧ p ∈ pods ∧
    Releasable networkName h p guidAddr.

(** Every withdrawal and every release in the log [d] is for GUIDs of
    configured selection entries of pods pending in [m]. *)
Definition touchesPending (h : gmap PodRef Pod) (m : gmap string Value)
    (d : list Event) : Prop :=
  ∀ e, e ∈ d →
    match e with
    | EvReleaseGUID guid _ =>
        ∃ guidAddr, pendingGuid h m guidAddr ∧
                    guid = HardwareAddrString guidAddr
    | EvRemoveGuidsFromPKey _ guids _ => Forall (pendingGuid h m) guids
    | _ => True
    end.

(** Every pod list of the map [m'] is a subsequence of the pod list the
    map [m] has for the same network. *)
Definition shrunk (m m' : gmap string Value) : Prop :=
  ∀ networkName l, m' !! networkName = Some (VPods l) →
    ∃ pods, m !! networkName = Some (VPods pods) ∧ sublist l pods.

(** The step of the pod [p] in the allocation loop, begun in [s], reaches
    the allocation (lines 176-199): the pod object is [pod], its selection
    entries [networks] are cached for its UID, or parse from its annotations
    and are cached then, and [GetPodNetwork] finds the entry [network] of
    the network at position [i]. *)
Inductive Selected (networkName : string) (p : PodRef) (pod : Pod)
    (networks : list NetworkSelectionElement) (i : nat)
    (network : NetworkSelectionElement) (s : State W) : Prop :=
| selected :
    heap s !! p = Some pod →
    (podNetworksMap s !! PodUID pod = Some networks ∨
     (podNetworksMap s !! PodUID pod = None ∧
      ParsePodNetworkAnnotation pod = Ok networks)) →
    GetPodNetwork networks networkName = Ok i →
    networks !! i = Some network →
    Selected networkName p pod networks i network s.


(** Every release in the log [d] releases the text of the GUID that stands
    in the GUID list at the index of a passed pod. *)
Definition releasesPassed (acc : AddAcc) (d : list Event) : Prop :=
  ∀ guid r, EvReleaseGUID guid r ∈ d →
    ∃ index p guidAddr,
      passedPods acc !! index = Some p ∧
      guidList acc !! index = Some guidAddr ∧
      guid = HardwareAddrString guidAddr.

(** A computation that keeps the property [G] of the state. *)
Definition preserves (G : State W → Prop) (s s' : State W) : Prop :=
  G s → G s'.

(** From [s] to [s'] the pod object [p] and the entries cached for [uid]
    are the same. *)
Definition untouched (p : PodRef) (uid : UID) (s s' : State W) : Prop :=
  heap s' !! p = heap s !! p ∧
  podNetworksMap s' !! uid = podNetworksMap s !! uid.

(** The pod object [p] is [pod] and the entries cached for its UID are
    [networks]. *)
Definition carries (p : PodRef) (pod : Pod)
    (networks : list NetworkSelectionElement) (s : State W) : Prop :=
  heap s !! p = Some pod ∧ podNetworksMap s !! PodUID pod = Some networks.

(** The [guid] fields of the pod [p] are those of [networks]: in the
    entries cached for its UID, and in the network selection annotation of
    the pod object, which is the one of [pod] or the serialization of
    entries with these [guid] fields. *)
Definition guidKept (p : PodRef) (pod : Pod)
    (networks : list NetworkSelectionElement) (s : State W) : Prop :=
  (∃ l, podNetworksMap s !! PodUID pod = Some l ∧
        guidField <$> l = guidField <$> networks) ∧
  ∃ pod', heap s !! p = Some pod' ∧ PodUID pod' = PodUID pod ∧
    (Annotations pod' !! NetworkAttachmentAnnot
       = Annotations pod !! NetworkAttachmentAnnot ∨
     ∃ l netAnnotations,
       guidField <$> l = guidField <$> networks ∧
       jsonMarshal l = Ok netAnnotations ∧
       Annotations pod' !! NetworkAttachmentAnnot = Some netAnnotations).

End Vocabulary.

(** ** A concrete cluster

    A small implementation of the collaborators and of the helpers, on which
    the passes can be run: a pool over an explicit range, a subnet manager
    that records partition membership and can be made to fail, and a client
    whose pods can disappear. *)

Module Demo.

Record World : Type := mkWorld {
  nads : list (string * string);
  poolRange : list HardwareAddr;
  poolAllocated : list (string * (UID * string));
  membership : list (Z * HardwareAddr);
  smAddFails : bool;
  smRemoveFails : bool;
  gonePods : list UID;
  writeFails : bool;
  written : list (UID * gmap string string);
}.

Definition hexDigit (c : ascii) : option nat :=
  let n := nat_of_ascii (lowerAscii c) in
  if (48 <=? n) && (n <=? 57) then Some (n - 48)
  else if (97 <=? n) && (n <=? 102) then Some (n - 87)
  else None.

Fixpoint hexValue (s : string) (acc : nat) : option nat :=
  match s with
  | EmptyString => Some acc
  | String c r =>
      match hexDigit c with
      | Some d => hexValue r (16 * acc + d)
      | None => None
      end
  end.

Definition hexChar (n : nat) : ascii :=
  if n <? 10 then ascii_of_nat (48 + n) else ascii_of_nat (87 + n).

Definition hexOctet (b : Byte.byte) : string :=
  let n := Byte.to_nat b in
  String (hexChar (n / 16)) (String (hexChar (n mod 16)) EmptyString).

(** Eight colon-separated octets. *)
Fixpoint macOctets (fuel : nat) (s : string) : option (list Byte.byte) :=
  match fuel, s with
  | S fuel', String a (String b r) =>
      match hexValue (String a (String b EmptyString)) 0 with
      | Some n =>
          match Byte.of_nat n, r with
          | Some byte, EmptyString => Some [byte]
          | Some byte, String ":" r' =>
              match macOctets fuel' r' with
              | Some l => Some (byte :: l)
              | None => None
              end
          | _, _ => None
          end
      | None => None
      end
  | _, _ => None
  end.

Definition demoParseMAC (s : string) : result HardwareAddr :=
  match macOctets 8 s with
  | Some l => if length l =? 8 then Ok l else Err "invalid MAC address"
  | None => Err "invalid MAC address"
  end.

Fixpoint demoString (a : HardwareAddr) : string :=
  match a with
  | [] => EmptyString
  | [b] => hexOctet b
  | b :: r => hexOctet b +:+ ":" +:+ demoString r
  end.

(** Modelled from the spec: [utils.ParsePKey] is not part of the sources at
    hand.  A PKey is a hex string with an optional [0x] prefix, parsed
    case-insensitively; it must fit in 15 bits, and the values [0x0000] and
    [0x7fff] are rejected. *)
Definition demoParsePKey (s : string) : Z * option error :=
  let digits :=
    match s with
    | String "0" (String x r) =>
        if orb (Ascii.eqb x "x") (Ascii.eqb x "X") then r else s
    | _ => s
    end in
  match digits with
  | EmptyString => (0%Z, Some "invalid pkey")
  | _ =>
      match hexValue digits 0 with
      | None => (0%Z, Some "invalid pkey")
      | Some n =>
          let z := Z.of_nat n in
          if (32767 <? z)%Z then (0%Z, Some "pkey out of range")
          else if (z =? 0)%Z || (z =? 32767)%Z then (0%Z, Some "reserved pkey")
          else (z, None)
      end
  end.

Fixpoint assoc {A} (k : string) (l : list (string * A)) : option A :=
  match l with
  | [] => None
  | (k', v) :: r => if String.eqb k k' then Some v else assoc k r
  end.

Definition quote : string := String (ascii_of_nat 34) EmptyString.
Definition quoted (s : string) : string := quote +:+ s +:+ quote.
Definition field (k v : string) : string := quoted k +:+ ":" +:+ v.

(** The configuration of an IB-SRIOV network with the given PKey, and the
    configuration of a network of another CNI. *)
Definition ibSriovConfig (pkey : string) : string :=
  "{" +:+ field "type" (quoted "ib-sriov") +:+ ","
      +:+ field "pkey" (quoted pkey) +:+ "}".
Definition ibSriovConfigNoPKey : string :=
  "{" +:+ field "type" (quoted "ib-sriov") +:+ "}".
Definition macvlanConfig : string :=
  "{" +:+ field "type" (quoted "macvlan") +:+ "}".

(** The configurations the demo knows how to read. *)
Definition demoConfigs : list (string * result IbSriovCniSpec) :=
  [ (ibSriovConfig "0x5", Ok (mkIbSpec "0x5"));
    (ibSriovConfig "0x7fff", Ok (mkIbSpec "0x7fff"));
    (ibSriovConfig "0x0000", Ok (mkIbSpec "0x0000"));
    (ibSriovConfigNoPKey, Ok (mkIbSpec ""));
    (macvlanConfig, Err "not an ib-sriov network") ].

Definition demoUnmarshal (config : string) : result string :=
  match config with
  | String "{" _ => Ok config
  | _ => Err "invalid character looking for beginning of value"
  end.

Definition demoGetIbSriov (spec : string) : result IbSriovCniSpec :=
  match assoc spec demoConfigs with
  | Some r => r
  | None => Err "not an ib-sriov network"
  end.

(** Rendering of a network selection annotation. *)
Definition renderArg (args : gmap string CNIArgValue) (k : string)
    : list string :=
  match args !! k with
  | Some (ArgString v) => [field k (quoted v)]
  | Some (ArgOther raw) => [field k raw]
  | None => []
  end.

Fixpoint joinWith (sep : string) (l : list string) : string :=
  match l with
  | [] => EmptyString
  | [x] => x
  | x :: r => x +:+ sep +:+ joinWith sep r
  end.

Definition renderNetwork (n : NetworkSelectionElement) : string :=
  "{" +:+ joinWith ","
    ([field "name" (quoted (Name n)); field "namespace" (quoted (NetNamespace n))]
     ++ match CNIArgs n with
        | None => []
        | Some args =>
            [field "cni-args"
               ("{" +:+ joinWith ","
                          (renderArg args "guid"
                           ++ renderArg args InfiniBandAnnotation) +:+ "}")]
        end) +:+ "}".

Definition render (l : list NetworkSelectionElement) : string :=
  "[" +:+ joinWith "," (map renderNetwork l) +:+ "]".

Definition demoMarshal (l : list NetworkSelectionElement) : result string :=
  Ok (render l).

Definition guid1 : string := "02:00:00:00:00:00:00:01".
Definition guid2 : string := "02:00:00:00:00:00:00:02".
Definition guid3 : string := "02:00:00:00:00:00:00:03".

Definition plainNet (name : string) : NetworkSelectionElement :=
  mkNetwork name "default" None.
Definition guidNet (name guid : string) : NetworkSelectionElement :=
  mkNetwork name "default" (Some {[ "guid" := ArgString guid ]}).
Definition configuredNet (name guid : string) : NetworkSelectionElement :=
  mkNetwork name "default"
    (Some (<[InfiniBandAnnotation := ConfiguredInfiniBandPod]>
             {[ "guid" := ArgString guid ]})).

(** The selections the demo knows how to read back from their rendering. *)
Definition demoSelections : list (list NetworkSelectionElement) :=
  [ [plainNet "ibnet"];
    [guidNet "ibnet" guid1]; [guidNet "ibnet" guid2]; [guidNet "ibnet" guid3];
    [guidNet "ibnet" "zz"];
    [configuredNet "ibnet" guid1]; [configuredNet "ibnet" guid2];
    [configuredNet "ibnet" guid3];
    [plainNet "other"] ].

Definition demoParseAnnotation (pod : Pod)
    : result (list NetworkSelectionElement) :=
  match Annotations pod !! NetworkAttachmentAnnot with
  | None => Err "no network annotation"
  | Some text =>
      match find (λ l, String.eqb (render l) text) demoSelections with
      | Some l => Ok l
      | None => Err "malformed network annotation"
      end
  end.

Fixpoint demoFindNetwork (l : list NetworkSelectionElement) (name : string)
    (i : nat) : result nat :=
  match l with
  | [] => Err "network not found in pod annotations"
  | n :: r => if String.eqb (Name n) name then Ok i
              else demoFindNetwork r name (S i)
  end.

Definition demoGetGuid (n : NetworkSelectionElement) : result string :=
  match CNIArgs n with
  | None => Err "cni-args is missing"
  | Some args =>
      match args !! "guid" with
      | Some (ArgString g) => Ok g
      | _ => Err "guid is missing from cni-args"
      end
  end.

Definition demoSetGuid (n : NetworkSelectionElement) (guid : string)
    : NetworkSelectionElement * option error :=
  (mkNetwork (Name n) (NetNamespace n)
     (Some (<["guid" := ArgString guid]> (default ∅ (CNIArgs n)))), None).

Definition demoIsConfigured (n : NetworkSelectionElement) : bool :=
  match CNIArgs n with
  | None => false
  | Some args =>
      match args !! InfiniBandAnnotation with
      | Some (ArgString v) => String.eqb v "configured"
      | _ => false
      end
  end.

#[export] Instance demoHelpers : Helpers := {|
  NetworkSpec := string;
  jsonUnmarshal := demoUnmarshal;
  jsonMarshal := demoMarshal;
  ParsePodNetworkAnnotation := demoParseAnnotation;
  GetIbSriovCniFromNetwork := demoGetIbSriov;
  GetPodNetwork := λ l name, demoFindNetwork l name 0;
  GetPodNetworkGuid := demoGetGuid;
  SetPodNetworkGuid := demoSetGuid;
  IsPodNetworkConfiguredWithInfiniBand := demoIsConfigured;
  ParsePKey := demoParsePKey;
  ParseMAC := demoParseMAC;
  HardwareAddrString := demoString;
|}.


Definition setPool (a : list (string * (UID * string))) (w : World) : World :=
  mkWorld (nads w) (poolRange w) a (membership w) (smAddFails w)
    (smRemoveFails w) (gonePods w) (writeFails w) (written w).
Definition setMembership (m : list (Z * HardwareAddr)) (w : World) : World :=
  mkWorld (nads w) (poolRange w) (poolAllocated w) m (smAddFails w)
    (smRemoveFails w) (gonePods w) (writeFails w) (written w).
Definition setWritten (l : list (UID * gmap string string)) (w : World)
    : World :=
  mkWorld (nads w) (poolRange w) (poolAllocated w) (membership w)
    (smAddFails w) (smRemoveFails w) (gonePods w) (writeFails w) l.

Definition demoAllocate (uid : UID) (network guid : string) (w : World)
    : option error * World :=
  match demoParseMAC guid with
  | Err e => (Some e, w)
  | Ok a =>
      let g := demoString a in
      if negb (existsb (λ b, String.eqb (demoString b) g) (poolRange w)) then
        (Some "guid out of range", w)
      else
        match assoc g (poolAllocated w) with
        | Some (u, n) =>
            if String.eqb u uid && String.eqb n network then (None, w)
            else (Some "guid already allocated", w)
        | None => (None, setPool ((g, (uid, network)) :: poolAllocated w) w)
        end
  end.

Definition demoGenerate (w : World) : result HardwareAddr * World :=
  match find (λ a, match assoc (demoString a) (poolAllocated w) with
                   | None => true
                   | Some _ => false
                   end) (poolRange w) with
  | Some a => (Ok a, w)
  | None => (Err "guid pool is exhausted", w)
  end.

Definition demoRelease (guid : string) (w : World) : option error * World :=
  (None,
   setPool (filter (λ e, negb (String.eqb (fst e) guid)) (poolAllocated w)) w).

#[export] Instance demoPool : GuidPool World := {|
  AllocateGUID := demoAllocate;
  GenerateGUID := demoGenerate;
  ReleaseGUID := demoRelease;
|}.

Definition demoAddGuids (pKey : Z) (guids : list HardwareAddr) (w : World)
    : option error * World :=
  if smAddFails w then (Some "subnet manager unreachable", w)
  else (None, setMembership (membership w ++ map (pair pKey) guids) w).

Definition demoRemoveGuids (pKey : Z) (guids : list HardwareAddr) (w : World)
    : option error * World :=
  if smRemoveFails w then (Some "subnet manager unreachable", w)
  else
    (None,
     setMembership
       (filter (λ e, negb (Z.eqb (fst e) pKey
                           && existsb (λ g, String.eqb (demoString g)
                                              (demoString (snd e))) guids))
          (membership w)) w).

#[export] Instance demoSM : SubnetManagerClient World := {|
  AddGuidsToPKey := demoAddGuids;
  RemoveGuidsFromPKey := demoRemoveGuids;
|}.

Definition demoGetNAD (namespace name : string) (w : World)
    : result NetworkAttachmentDefinition * World :=
  match assoc name (nads w) with
  | Some config => (Ok (mkNAD config), w)
  | None => (Err "network attachment definition is missing", w)
  end.

Definition demoSetAnnotations (pod : Pod) (annotations : gmap string string)
    (w : World) : option error * World :=
  if existsb (String.eqb (PodUID pod)) (gonePods w) then
    (Some ("pods " +:+ quoted (PodName pod) +:+ " not found"), w)
  else if writeFails w then (Some "connection refused", w)
  else (None, setWritten ((PodUID pod, annotations) :: written w) w).

#[export] Instance demoClient : Client World := {|
  GetNetworkAttachmentDefinition := demoGetNAD;
  SetAnnotationsOnPod := demoSetAnnotations;
|}.

Definition addr (guid : string) : HardwareAddr :=
  match demoParseMAC guid with
  | Ok a => a
  | Err _ => []
  end.

(** A cluster whose pool ranges over three GUIDs and whose network [ibnet]
    has the given configuration. *)
Definition clusterWith (config : string)
    (allocated : list (string * (UID * string)))
    (members : list (Z * HardwareAddr)) (removeFails : bool)
    (gone : list UID) : World :=
  mkWorld [("ibnet", config)] [addr guid1; addr guid2; addr guid3] allocated
    members false removeFails gone false [].

Definition cluster (config : string) : World :=
  clusterWith config [] [] false [].

(** A pod whose network selection annotation is the rendering of [l]. *)
Definition podOf (uid : UID) (l : list NetworkSelectionElement) : Pod :=
  mkPod uid "default" uid {[ NetworkAttachmentAnnot := render l ]}.

Definition startState (w : World) (pods : gmap PodRef Pod)
    (adds deletes : gmap string Value) : State World :=
  mkState w [] pods adds deletes ∅.

Definition value {A} (d : A) (r : Res A) : A :=
  match r with
  | Done a => a
  | Panicked => d
  end.

(** The state after the fetch of the definition of [ibnet]. *)
Definition fetchedState (s : State World) : State World :=
  after (call (GetNetworkAttachmentDefinition "default" "ibnet")
           (EvGetNetworkAttachmentDefinition "default" "ibnet")) s.

(** One pod without a GUID is pending on [ibnet]. *)
Definition pod1 : Pod := podOf "w1" [plainNet "ibnet"].
Definition happyState : State World :=
  startState (cluster (ibSriovConfig "0x5")) {[ 1 := pod1 ]}
    {[ "ibnet" := VPods [1] ]} ∅.

(** The same, on a network whose configuration is no JSON, is of another
    CNI, or carries the PKey of the management partition. *)
Definition malformedState : State World :=
  startState (cluster "not json") {[ 1 := pod1 ]} {[ "ibnet" := VPods [1] ]} ∅.
Definition macvlanState : State World :=
  startState (cluster macvlanConfig) {[ 1 := pod1 ]}
    {[ "ibnet" := VPods [1] ]} ∅.
Definition reservedState : State World :=
  startState (cluster (ibSriovConfig "0x7fff")) {[ 1 := pod1 ]}
    {[ "ibnet" := VPods [1] ]} ∅.

(** A pod that brings its own GUID. *)
Definition pod2 : Pod := podOf "w2" [guidNet "ibnet" guid3].
Definition userState : State World :=
  startState (cluster (ibSriovConfig "0x5")) {[ 2 := pod2 ]}
    {[ "ibnet" := VPods [2] ]} ∅.

(** A pod that goes through allocation and programming and whose
    annotations cannot be written: the pod was deleted from the cluster
    while it was pending (with a subnet manager that withdraws GUIDs or that
    refuses to), or the cluster refuses the write. *)
Definition pod3 : Pod := podOf "w3" [plainNet "ibnet"].
Definition goneWorld (removeFails : bool) : World :=
  clusterWith (ibSriovConfig "0x5") [] [] removeFails ["w3"].
Definition refusingWorld : World :=
  mkWorld [("ibnet", ibSriovConfig "0x5")] [addr guid1; addr guid2; addr guid3]
    [] [] false false [] true [].
Definition lateState (w : World) : State World :=
  startState w {[ 3 := pod3 ]} {[ "ibnet" := VPods [3] ]} ∅.

Definition lateAlloc (w : World) : Res AddAcc * State World :=
  foldM (addPodStep "ibnet") [3] emptyAddAcc (fetchedState (lateState w)).
Definition lateAcc (w : World) : AddAcc := value emptyAddAcc (lateAlloc w).1.
Definition lateProgrammed (w : World) : State World :=
  after (call (AddGuidsToPKey 5 (guidList (lateAcc w)))
           (EvAddGuidsToPKey 5 (guidList (lateAcc w)))) (lateAlloc w).2.
Definition lateAnnotated (w : World) : Res UpdAcc * State World :=
  foldMi (addAnnotateStep (lateAcc w)) 0 (passedPods (lateAcc w))
    (mkUpdAcc (failedPods (lateAcc w)) []) (lateProgrammed w).
Definition lateUpd (w : World) : UpdAcc :=
  value (mkUpdAcc [] []) (lateAnnotated w).1.

(** The pod after the allocation loop wrote its GUID in its annotations,
    and after the annotation loop marked it. *)
Definition pod3Allocated : Pod := podOf "w3" [guidNet "ibnet" guid1].
Definition pod3Configured : Pod := podOf "w3" [configuredNet "ibnet" guid1].
Definition goneError : error := "pods " +:+ quoted "w3" +:+ " not found".

(** A pod whose annotations are fine and a pod whose annotations do not
    parse. *)
Definition pod4 : Pod := podOf "w4" [plainNet "ibnet"].
Definition pod5 : Pod :=
  mkPod "w5" "default" "w5" {[ NetworkAttachmentAnnot := "oops" ]}.
Definition partialState : State World :=
  startState (cluster (ibSriovConfig "0x5")) {[ 4 := pod4; 5 := pod5 ]}
    {[ "ibnet" := VPods [4; 5] ]} ∅.

Definition partialAlloc : Res AddAcc * State World :=
  foldM (addPodStep "ibnet") [4; 5] emptyAddAcc (fetchedState partialState).
Definition partialAcc : AddAcc := value emptyAddAcc partialAlloc.1.
Definition partialProgrammed : State World :=
  after (call (AddGuidsToPKey 5 (guidList partialAcc))
           (EvAddGuidsToPKey 5 (guidList partialAcc))) partialAlloc.2.
Definition partialAnnotated : Res UpdAcc * State World :=
  foldMi (addAnnotateStep partialAcc) 0 (passedPods partialAcc)
    (mkUpdAcc (failedPods partialAcc) []) partialProgrammed.
Definition partialUpd : UpdAcc := value (mkUpdAcc [] []) partialAnnotated.1.

(** A configured pod is pending for deletion; its GUID is allocated and
    admitted in partition 5. *)
Definition pod6 : Pod := podOf "w6" [configuredNet "ibnet" guid2].
Definition deleteState (removeFails : bool) : State World :=
  startState
    (clusterWith (ibSriovConfig "0x5") [(guid2, ("w6", "ibnet"))]
       [(5%Z, addr guid2)] removeFails [])
    {[ 6 := pod6 ]} ∅ {[ "ibnet" := VPods [6] ]}.

Definition deleteScanned (removeFails : bool) : Res DelAcc * State World :=
  foldM (deletePodStep "ibnet") [6] (mkDelAcc [] [])
    (fetchedState (deleteState removeFails)).
Definition deleteAcc (removeFails : bool) : DelAcc :=
  value (mkDelAcc [] []) (deleteScanned removeFails).1.
Definition deleteRemoved : State World :=
  after (call (RemoveGuidsFromPKey 5 (delGuidList (deleteAcc false)))
           (EvRemoveGuidsFromPKey 5 (delGuidList (deleteAcc false))))
    (deleteScanned false).2.

(** A pod that carries a GUID and no marker is pending for deletion. *)
Definition pod7 : Pod := podOf "w7" [guidNet "ibnet" guid1].
Definition unconfiguredState : State World :=
  startState (cluster (ibSriovConfig "0x5")) {[ 7 := pod7 ]} ∅
    {[ "ibnet" := VPods [7] ]}.

(** An entry without pods in the add map and an entry that is no pod list
    in the delete map. *)
Definition inertState : State World :=
  startState (cluster (ibSriovConfig "0x5")) ∅ {[ "ibnet" := VPods [] ]}
    {[ "ibnet" := VOther "string" ]}.

(** A pod is pending on [ibnet] while the subnet manager refuses to program
    PKeys. *)
Definition unreachableWorld : World :=
  mkWorld [("ibnet", ibSriovConfig "0x5")] [addr guid1; addr guid2; addr guid3]
    [] [] true false [] false [].
Definition unreachableState : State World :=
  startState unreachableWorld {[ 1 := pod1 ]} {[ "ibnet" := VPods [1] ]} ∅.
Definition unreachableAlloc : Res AddAcc * State World :=
  foldM (addPodStep "ibnet") [1] emptyAddAcc (fetchedState unreachableState).
Definition unreachableAcc : AddAcc := value emptyAddAcc unreachableAlloc.1.

(** A configured pod is pending in both maps on a network whose
    configuration has no PKey. *)
Definition noPKeyState : State World :=
  startState
    (clusterWith ibSriovConfigNoPKey [(guid2, ("w6", "ibnet"))] [] false [])
    {[ 6 := pod6 ]} {[ "ibnet" := VPods [6] ]} {[ "ibnet" := VPods [6] ]}.

(** A pod is pending in both maps on a network that has no definition. *)
Definition missingState : State World :=
  startState (cluster (ibSriovConfig "0x5")) {[ 1 := pod1 ]}
    {[ "gone" := VPods [1] ]} {[ "gone" := VPods [1] ]}.
Definition missingError : error := "network attachment definition is missing".

(** Three pods are pending for deletion: one that is not configured, one
    that is, and one whose annotations do not parse. *)
Definition mixedDeleteState : State World :=
  startState
    (clusterWith (ibSriovConfig "0x5") [(guid2, ("w6", "ibnet"))]
       [(5%Z, addr guid2)] false [])
    {[ 5 := pod5; 6 := pod6; 7 := pod7 ]} ∅
    {[ "ibnet" := VPods [7; 6; 5] ]}.

End Demo.

(** ** Properties of the passes *)

Section Properties.

Context {W : Type}.
Context {client : Client W} {pool : GuidPool W} {sm : SubnetManagerClient W}.
Context {helpers : Helpers}.

Implicit Types (s : State W) (P : Event → bool).

(** *** Calls and frames *)

Lemma quiet_refl P s : quiet P s s.
Proof.
  repeat split. exists []. by rewrite app_nil_r.
Qed.

Lemma quiet_trans P s1 s2 s3 : quiet P s1 s2 → quiet P s2 s3 → quiet P s1 s3.
Proof.
  intros (Ha1 & Hd1 & d1 & Hc1 & Hp1) (Ha2 & Hd2 & d2 & Hc2 & Hp2).
  split; [congruence|]. split; [congruence|].
  exists (d1 ++ d2). split.
  - by rewrite Hc2, Hc1, app_assoc.
  - by rewrite forallb_app, Hp1, Hp2.
Qed.

#[local] Instance quiet_preorder P : PreOrder (quiet (W:=W) P).
Proof.
  split; [intros s; apply quiet_refl|intros s1 s2 s3; apply quiet_trans].
Qed.

#[local] Instance addOnly_preorder networkName :
  PreOrder (addOnly (W:=W) networkName).
Proof.
  split.
  - by intros s.
  - intros s1 s2 s3 [Hd1 Ha1] [Hd2 Ha2]. split; [congruence|].
    intros n Hn. by rewrite Ha2, Ha1.
Qed.

#[local] Instance deleteOnly_preorder networkName :
  PreOrder (deleteOnly (W:=W) networkName).
Proof.
  split.
  - by intros s.
  - intros s1 s2 s3 [Hd1 Ha1] [Hd2 Ha2]. split; [congruence|].
    intros n Hn. by rewrite Ha2, Ha1.
Qed.

Lemma quiet_mono P Q s s' :
  (∀ e, P e = true → Q e = true) → quiet P s s' → quiet Q s s'.
Proof.
  intros HPQ (Ha & Hd & d & Hc & Hp). repeat split; try done.
  exists d. split; [done|].
  apply forallb_forall. intros e He.
  apply HPQ. by eapply forallb_forall in Hp.
Qed.

Lemma quiet_addOnly P networkName s s' : quiet P s s' → addOnly networkName s s'.
Proof. intros (Ha & Hd & _). split; [done|]. intros. by rewrite Ha. Qed.

Lemma quiet_deleteOnly P networkName s s' :
  quiet P s s' → deleteOnly networkName s s'.
Proof. intros (Ha & Hd & _). split; [done|]. intros. by rewrite Hd. Qed.

Section Respects.

Context (R : relation (State W)) `{!PreOrder R}.

Lemma respects_ret {A} (a : A) : respects R (ret a).
Proof. intros s. unfold after. simpl. reflexivity. Qed.

Lemma respects_panic {A} : respects R (panic (A:=A)).
Proof. intros s. unfold after. simpl. reflexivity. Qed.

Lemma respects_gets {A} (f : State W → A) : respects R (gets f).
Proof. intros s. unfold after. simpl. reflexivity. Qed.

Lemma respects_bind {A B} (m : M W A) (k : A → M W B) :
  respects R m → (∀ a, respects R (k a)) → respects R (bind m k).
Proof.
  intros Hm Hk s. unfold after, bind.
  specialize (Hm s). unfold after in Hm.
  destruct (m s) as [[a|] s1]; simpl in *; [|done].
  etransitivity; [done|]. apply Hk.
Qed.

Lemma respects_foldM {A B} (f : B → A → M W B) (l : list A) (b : B) :
  (∀ b a, respects R (f b a)) → respects R (foldM f l b).
Proof.
  intros Hf. revert b. induction l as [|a l IH]; intros b; simpl.
  - apply respects_ret.
  - apply respects_bind; [apply Hf|]. intros b'. apply IH.
Qed.

Lemma respects_foldMi {A B} (f : B → nat → A → M W B) (l : list A) i (b : B) :
  (∀ b i a, respects R (f b i a)) → respects R (foldMi f i l b).
Proof.
  intros Hf. revert i b. induction l as [|a l IH]; intros i b; simpl.
  - apply respects_ret.
  - apply respects_bind; [apply Hf|]. intros b'. apply IH.
Qed.

Lemma respects_derefPod p : respects R (derefPod p).
Proof.
  unfold derefPod. apply respects_bind; [apply respects_gets|].
  intros [pod|]; [apply respects_ret|apply respects_panic].
Qed.

Lemma respects_modify (f : State W → State W) :
  (∀ s, R s (f s)) → respects R (modify f).
Proof. intros Hf s. apply Hf. Qed.

Lemma respects_call {A} (op : W → A * W) (ev : A → Event) :
  (∀ s w c, R s (setWorldCalls w c s)) → respects R (call op ev).
Proof.
  intros Hc s. unfold after, call.
  destruct (op (world s)) as [r w']. apply Hc.
Qed.

End Respects.

#[local] Instance logGrows_preorder : PreOrder (logGrows (W:=W)).
Proof.
  split.
  - intros s. exists []. by rewrite app_nil_r.
  - intros s1 s2 s3 [d1 H1] [d2 H2]. exists (d1 ++ d2).
    by rewrite H2, H1, app_assoc.
Qed.

#[local] Instance sameNetworks_preorder : PreOrder (sameNetworks (W:=W)).
Proof.
  split; [by intros s|]. intros s1 s2 s3 H1 H2. unfold sameNetworks in *.
  congruence.
Qed.

#[local] Instance keepsGuids_preorder : PreOrder (keepsGuids (W:=W)).
Proof.
  split.
  - intros s uid l Hl. by exists l.
  - intros s1 s2 s3 H12 H23 uid l3 Hl3.
    destruct (H23 uid l3 Hl3) as (l2 & Hl2 & Heq2).
    destruct (H12 uid l2 Hl2) as (l1 & Hl1 & Heq1).
    exists l1. split; [done|congruence].
Qed.

Lemma total_ret {A} (a : A) : total (W:=W) (ret a).
Proof. intros s. by eexists _, _. Qed.

Lemma total_gets {A} (f : State W → A) : total (gets f).
Proof. intros s. by eexists _, _. Qed.

Lemma total_modify (f : State W → State W) : total (modify f).
Proof. intros s. by eexists _, _. Qed.

Lemma total_call {A} (op : W → A * W) (ev : A → Event) : total (call op ev).
Proof.
  intros s. unfold call. destruct (op (world s)). by eexists _, _.
Qed.

Lemma total_bind {A B} (m : M W A) (k : A → M W B) :
  total m → (∀ a, total (k a)) → total (bind m k).
Proof.
  intros Hm Hk s. unfold bind. destruct (Hm s) as (a & s1 & ->). apply Hk.
Qed.

Lemma respects_weaken (R R' : relation (State W)) {A} (m : M W A) :
  (∀ s s', R s s' → R' s s') → respects R m → respects R' m.
Proof. intros HR Hm s. apply HR, Hm. Qed.

Lemma stays_respects P {A} (m : M W A) : stays P m ↔ respects (quiet P) m.
Proof. done. Qed.

Lemma stays_mono P Q {A} (m : M W A) :
  (∀ e, P e = true → Q e = true) → stays P m → stays Q m.
Proof. intros HPQ Hm s. eapply quiet_mono; [done|apply Hm]. Qed.

Lemma stays_ret P {A} (a : A) : stays P (ret (W:=W) a).
Proof. apply (respects_ret (quiet P)). Qed.

Lemma stays_panic P {A} : stays P (panic (W:=W) (A:=A)).
Proof. apply (respects_panic (quiet P) (A:=A)). Qed.

Lemma stays_gets P {A} (f : State W → A) : stays P (gets f).
Proof. apply (respects_gets (quiet P)). Qed.

Lemma stays_bind P {A B} (m : M W A) (k : A → M W B) :
  stays P m → (∀ a, stays P (k a)) → stays P (bind m k).
Proof. apply (respects_bind (quiet P)). Qed.

Lemma stays_call P {A} (op : W → A * W) (ev : A → Event) :
  (∀ r, P (ev r) = true) → stays P (call op ev).
Proof.
  intros Hev s. unfold after, call.
  destruct (op (world s)) as [r w']. simpl.
  repeat split. exists [ev r]. split; [done|].
  simpl. by rewrite Hev.
Qed.

Lemma stays_modify P (f : State W → State W) :
  (∀ s, addMap (f s) = addMap s ∧ deleteMap (f s) = deleteMap s
        ∧ calls (f s) = calls s) →
  stays P (modify f).
Proof.
  intros Hf s. destruct (Hf s) as (Ha & Hd & Hc).
  unfold after, modify. simpl. repeat split; try done.
  exists []. by rewrite app_nil_r.
Qed.

Lemma stays_foldM P {A B} (f : B → A → M W B) (l : list A) (b : B) :
  (∀ b a, stays P (f b a)) → stays P (foldM f l b).
Proof. apply (respects_foldM (quiet P)). Qed.

Lemma stays_foldMi P {A B} (f : B → nat → A → M W B) (l : list A) i (b : B) :
  (∀ b i a, stays P (f b i a)) → stays P (foldMi f i l b).
Proof. apply (respects_foldMi (quiet P)). Qed.

Lemma stays_derefPod P p : stays P (derefPod (W:=W) p).
Proof. apply (respects_derefPod (quiet P)). Qed.

Lemma stays_setPodAnnotation P p key value :
  stays P (setPodAnnotation (W:=W) p key value).
Proof.
  apply stays_modify. intros s. by destruct (heap s !! p).
Qed.

Lemma stays_setNetworks P (f : State W → gmap UID (list NetworkSelectionElement)) :
  stays P (modify (λ s, setPodNetworksMap (f s) s)).
Proof. by apply stays_modify. Qed.

(** Splits a goal [stays P m] along the structure of [m]. *)
Ltac stays_step :=
  first
    [ apply stays_ret | apply stays_panic | apply stays_gets
    | apply stays_derefPod | apply stays_setPodAnnotation
    | apply stays_setNetworks
    | apply stays_call; intros; reflexivity
    | apply stays_bind; [|intros ?]
    | match goal with
      | |- stays _ (match ?x with _ => _ end) => destruct x
      end ].

Ltac stays_auto := repeat stays_step.

Lemma stays_podNetworks P pod : stays P (podNetworks (W:=W) pod).
Proof. unfold podNetworks. stays_auto. Qed.

Lemma stays_addPodStep networkName acc p :
  stays isAllocCall (addPodStep networkName acc p).
Proof.
  unfold addPodStep, addAllocate.
  apply stays_bind; [apply stays_derefPod|]. intros pod.
  apply stays_bind; [apply stays_podNetworks|]. intros parsed.
  stays_auto.
Qed.

Lemma stays_addAnnotateStep acc u index p :
  stays isAnnotateCall (addAnnotateStep acc u index p).
Proof. unfold addAnnotateStep, addCommit. stays_auto. Qed.

Lemma stays_deletePodStep networkName acc p :
  stays noCall (deletePodStep (W:=W) networkName acc p).
Proof. unfold deletePodStep. stays_auto. Qed.

(** *** What the loops return *)

Lemma yields_ret {A} (Q : A → Prop) (a : A) : Q a → yields (W:=W) Q (ret a).
Proof. intros HQ s a' s' [= <- _]. done. Qed.

Lemma yields_panic {A} (Q : A → Prop) : yields (W:=W) Q panic.
Proof. intros s a s' [=]. Qed.

Lemma yields_bind {A B} (Q : B → Prop) (m : M W A) (k : A → M W B) :
  (∀ a, yields Q (k a)) → yields Q (bind m k).
Proof.
  intros Hk s b s'. unfold bind.
  destruct (m s) as [[a|] s1]; [apply Hk|done].
Qed.

Ltac yields_step :=
  first
    [ apply yields_panic
    | apply yields_bind; intros ?
    | match goal with
      | |- yields _ (match ?x with _ => _ end) => destruct x
      end ].

Lemma addFailed_Allocated p acc uid i :
  Allocated p acc (addFailed p (addNetworkOf uid i acc)).
Proof. by apply allocated_failed. Qed.

Lemma addPassed_Allocated p g acc uid i :
  Allocated p acc (addPassed p g (addNetworkOf uid i acc)).
Proof. by apply (allocated_passed _ _ _ g). Qed.

Lemma yields_addPodStep networkName acc p :
  yields (W:=W) (Allocated p acc) (addPodStep networkName acc p).
Proof.
  unfold addPodStep, addAllocate.
  repeat yields_step;
    first [ apply yields_ret; by apply allocated_failed
          | apply yields_ret; apply addFailed_Allocated
          | apply yields_ret; apply addPassed_Allocated ].
Qed.

(** The allocation loop extends the three lists; the GUID list and the
    passed pods grow together, and when no pod passes every pod failed. *)
Lemma alloc_loop_lists networkName pods acc s acc' s' :
  foldM (addPodStep networkName) pods acc s = (Done acc', s') →
  ∃ gs ps fs,
    guidList acc' = guidList acc ++ gs ∧
    passedPods acc' = passedPods acc ++ ps ∧
    failedPods acc' = failedPods acc ++ fs ∧
    length gs = length ps ∧
    (ps = [] → fs = pods).
Proof.
  revert acc s. induction pods as [|p pods IH]; intros acc s; simpl.
  - intros [= <- _]. exists [], [], []. by rewrite !app_nil_r.
  - unfold bind.
    destruct (addPodStep networkName acc p s) as [[acc1|] s1] eqn:Hstep;
      [|done].
    intros Hrest. apply IH in Hrest as (gs & ps & fs & Hg & Hp & Hf & Hl & He).
    apply yields_addPodStep in Hstep as [Hg1 Hp1 Hf1|g Hg1 Hp1 Hf1].
    + exists gs, ps, (p :: fs).
      rewrite Hg, Hp, Hf, Hg1, Hp1, Hf1, <- app_assoc. repeat split; try done.
      intros Hps. by rewrite He.
    + exists (g :: gs), (p :: ps), fs.
      rewrite Hg, Hp, Hf, Hg1, Hp1, Hf1, <- !app_assoc.
      repeat split; try done. simpl. by rewrite Hl.
Qed.

(** The scan of the delete pass reads the pods and changes nothing. *)
Lemma deletePodStep_state networkName acc p s :
  after (deletePodStep networkName acc p) s = s.
Proof.
  symmetry. revert s. change (respects (W:=W) eq (deletePodStep networkName acc p)).
  unfold deletePodStep.
  repeat first
    [ apply respects_ret; apply _
    | apply respects_panic; apply _
    | apply respects_derefPod; apply _
    | apply respects_bind; [apply _| |intros ?]
    | match goal with
      | |- respects _ (match ?x with _ => _ end) => destruct x
      end ].
Qed.

Lemma delete_scan_state networkName pods acc s :
  after (foldM (deletePodStep networkName) pods acc) s = s.
Proof.
  symmetry. revert s.
  change (respects (W:=W) eq (foldM (deletePodStep networkName) pods acc)).
  apply respects_foldM; [apply _|].
  intros b a s. symmetry. apply deletePodStep_state.
Qed.

(** *** One visit works on one entry *)

Lemma respects_addMapRemove networkName :
  respects (addOnly networkName) (addMapUnSafeRemove (W:=W) networkName).
Proof.
  intros s. split; [done|]. intros n Hn. simpl. unfold UnSafeRemove.
  by rewrite lookup_delete_ne.
Qed.

Lemma respects_addMapSet networkName v :
  respects (addOnly networkName) (addMapUnSafeSet (W:=W) networkName v).
Proof.
  intros s. split; [done|]. intros n Hn. simpl. unfold UnSafeSet.
  by rewrite lookup_insert_ne.
Qed.

Lemma respects_deleteMapRemove networkName :
  respects (deleteOnly networkName) (deleteMapUnSafeRemove (W:=W) networkName).
Proof.
  intros s. split; [done|]. intros n Hn. simpl. unfold UnSafeRemove.
  by rewrite lookup_delete_ne.
Qed.

Lemma respects_deleteMapSet networkName v :
  respects (deleteOnly networkName) (deleteMapUnSafeSet (W:=W) networkName v).
Proof.
  intros s. split; [done|]. intros n Hn. simpl. unfold UnSafeSet.
  by rewrite lookup_insert_ne.
Qed.

Lemma respects_call_addOnly networkName {A} (op : W → A * W) ev :
  respects (addOnly networkName) (call op ev).
Proof.
  apply (respects_weaken (quiet (λ _, true))); [apply quiet_addOnly|].
  by apply stays_call.
Qed.

Lemma respects_call_deleteOnly networkName {A} (op : W → A * W) ev :
  respects (deleteOnly networkName) (call op ev).
Proof.
  apply (respects_weaken (quiet (λ _, true))); [apply quiet_deleteOnly|].
  by apply stays_call.
Qed.

Lemma addPods_addOnly networkName ibCniSpec pods :
  respects (addOnly networkName) (addPods networkName ibCniSpec pods).
Proof.
  unfold addPods. apply respects_bind; [apply _| |].
  { eapply respects_weaken; [apply quiet_addOnly|].
    apply stays_foldM, stays_addPodStep. }
  intros acc. unfold addProgram.
  assert (respects (addOnly networkName)
            (addAnnotate networkName ibCniSpec acc)) as Hann.
  { unfold addAnnotate. apply respects_bind; [apply _| |].
    { eapply respects_weaken; [apply quiet_addOnly|].
      apply stays_foldMi, stays_addAnnotateStep. }
    intros u. unfold addWithdraw, addBookkeeping.
    repeat first
      [ apply respects_addMapRemove | apply respects_addMapSet
      | apply respects_ret; apply _
      | apply respects_call_addOnly
      | apply respects_bind; [apply _| |intros ?]
      | match goal with
        | |- respects _ (match ?x with _ => _ end) => destruct x
        end ]. }
  repeat first
    [ done
    | apply respects_ret; apply _
    | apply respects_call_addOnly
    | apply respects_bind; [apply _| |intros ?]
    | match goal with
      | |- respects _ (match ?x with _ => _ end) => destruct x
      end ].
Qed.

Lemma addVisit_addOnly networkName :
  respects (addOnly networkName) (addVisit networkName).
Proof.
  unfold addVisit, addNetwork.
  repeat first
    [ apply addPods_addOnly | apply respects_addMapRemove
    | apply respects_ret; apply _
    | apply respects_gets; apply _
    | apply respects_derefPod; apply _
    | apply respects_call_addOnly
    | apply respects_bind; [apply _| |intros ?]
    | match goal with
      | |- respects _ (match ?x with _ => _ end) => destruct x
      end ].
Qed.

Lemma deletePods_deleteOnly networkName ibCniSpec pods :
  respects (deleteOnly networkName) (deletePods networkName ibCniSpec pods).
Proof.
  unfold deletePods. apply respects_bind; [apply _| |].
  { eapply respects_weaken; [apply quiet_deleteOnly|].
    apply stays_foldM, stays_deletePodStep. }
  intros acc. unfold deleteWithdraw, deleteRelease, deleteBookkeeping.
  assert (respects (deleteOnly networkName)
            (foldM deleteReleaseStep (delGuidList acc) tt)) as Hrel.
  { apply respects_foldM; [apply _|]. intros [] g. unfold deleteReleaseStep.
    apply respects_bind; [apply _|apply respects_call_deleteOnly|].
    intros. apply respects_ret; apply _. }
  repeat first
    [ done
    | apply respects_deleteMapRemove | apply respects_deleteMapSet
    | apply respects_ret; apply _
    | apply respects_call_deleteOnly
    | apply respects_bind; [apply _| |intros ?]
    | match goal with
      | |- respects _ (match ?x with _ => _ end) => destruct x
      end ].
Qed.

Lemma deleteVisit_deleteOnly networkName :
  respects (deleteOnly networkName) (deleteVisit networkName).
Proof.
  unfold deleteVisit, deleteNetwork.
  repeat first
    [ apply deletePods_deleteOnly
    | apply respects_ret; apply _
    | apply respects_gets; apply _
    | apply respects_derefPod; apply _
    | apply respects_call_deleteOnly
    | apply respects_bind; [apply _| |intros ?]
    | match goal with
      | |- respects _ (match ?x with _ => _ end) => destruct x
      end ].
Qed.

(** *** Entries the passes do not work on *)

Lemma addVisit_fetched networkName pods ibCniSpec s s1 :
  addMap s !! networkName = Some (VPods pods) →
  Fetched networkName pods ibCniSpec s s1 →
  addVisit networkName s = addPods networkName ibCniSpec pods s1.
Proof.
  intros Hentry [p0 ps pod0 nad w1 spec -> Hpod Hget Hjson Hib ->].
  unfold addVisit, addNetwork, derefPod, bind, gets, call; simpl.
  rewrite Hentry, Hpod. simpl. rewrite Hget. simpl.
  by rewrite Hjson, Hib.
Qed.

Lemma deleteVisit_fetched networkName pods ibCniSpec s s1 :
  deleteMap s !! networkName = Some (VPods pods) →
  Fetched networkName pods ibCniSpec s s1 →
  deleteVisit networkName s = deletePods networkName ibCniSpec pods s1.
Proof.
  intros Hentry [p0 ps pod0 nad w1 spec -> Hpod Hget Hjson Hib ->].
  unfold deleteVisit, deleteNetwork, derefPod, bind, gets, call; simpl.
  rewrite Hentry, Hpod. simpl. rewrite Hget. simpl.
  by rewrite Hjson, Hib.
Qed.

Lemma Fetched_quiet networkName pods ibCniSpec s s1 :
  Fetched networkName pods ibCniSpec s s1 →
  quiet isOrchestratorCall s s1 ∧ heap s1 = heap s ∧ pods ≠ [].
Proof.
  intros [p0 ps pod0 nad w1 spec -> Hpod Hget Hjson Hib ->]. simpl.
  repeat split; [|done]. by eexists.
Qed.

Lemma addVisit_inert networkName v s :
  inert v = true → addMap s !! networkName = Some v →
  addVisit networkName s = (Done tt, s).
Proof.
  intros Hv Hentry. unfold addVisit, bind, gets. simpl. rewrite Hentry.
  by destruct v as [[|p ps]|descr].
Qed.

Lemma deleteVisit_inert networkName v s :
  inert v = true → deleteMap s !! networkName = Some v →
  deleteVisit networkName s = (Done tt, s).
Proof.
  intros Hv Hentry. unfold deleteVisit, bind, gets. simpl. rewrite Hentry.
  by destruct v as [[|p ps]|descr].
Qed.

#[local] Instance holds_preorder networkName v :
  PreOrder (holds (W:=W) networkName v).
Proof.
  split.
  - by intros s.
  - intros s1 s2 s3 [Ha1 Hd1] [Ha2 Hd2]. split; auto.
Qed.

Lemma addVisit_holds networkName v n :
  inert v = true → respects (holds networkName v) (addVisit n).
Proof.
  intros Hv s. destruct (decide (n = networkName)) as [->|Hne].
  - destruct (addVisit_addOnly networkName s) as [Hd _].
    split; [|by rewrite Hd].
    intros Hentry. unfold after. by rewrite (addVisit_inert _ v).
  - destruct (addVisit_addOnly n s) as [Hd Ha].
    split; [|by rewrite Hd]. by rewrite Ha.
Qed.

Lemma deleteVisit_holds networkName v n :
  inert v = true → respects (holds networkName v) (deleteVisit n).
Proof.
  intros Hv s. destruct (decide (n = networkName)) as [->|Hne].
  - destruct (deleteVisit_deleteOnly networkName s) as [Ha _].
    split; [by rewrite Ha|].
    intros Hentry. unfold after. by rewrite (deleteVisit_inert _ v).
  - destruct (deleteVisit_deleteOnly n s) as [Ha Hd].
    split; [by rewrite Ha|]. by rewrite Hd.
Qed.

Lemma runPasses_holds networkName v passes :
  inert v = true → respects (holds networkName v) (runPasses passes).
Proof.
  intros Hv. unfold runPasses. apply respects_foldM; [apply _|].
  intros [] [order|order]; simpl.
  - unfold AddPeriodicUpdate. apply respects_bind; [apply _| |].
    + by intros s.
    + intros _. apply respects_foldM; [apply _|].
      intros _ n. by apply addVisit_holds.
  - unfold DeletePeriodicUpdate. apply respects_foldM; [apply _|].
    intros _ n. by apply deleteVisit_holds.
Qed.

(** C10. An entry whose value is an empty pod list or no pod list at all is
    skipped by both passes: the visit of the entry makes no call and leaves
    the whole state as it was, and the entry is still there, with the same
    value, after any sequence of add and delete passes. *)
Theorem inert_entry_persists (networkName : string) (v : Value) :
  inert v = true →
  (∀ s, addMap s !! networkName = Some v →
        addVisit networkName s = (Done tt, s)) ∧
  (∀ s, deleteMap s !! networkName = Some v →
        deleteVisit networkName s = (Done tt, s)) ∧
  (∀ passes s, addMap s !! networkName = Some v →
        addMap (after (runPasses passes) s) !! networkName = Some v) ∧
  (∀ passes s, deleteMap s !! networkName = Some v →
        deleteMap (after (runPasses passes) s) !! networkName = Some v).
Proof.
  intros Hv. repeat split.
  - intros s. by apply addVisit_inert.
  - intros s. by apply deleteVisit_inert.
  - intros passes s. apply (runPasses_holds networkName v passes Hv s).
  - intros passes s. apply (runPasses_holds networkName v passes Hv s).
Qed.

(** *** Unreadable network attachment definitions *)

(** An entry that is absent stays absent for the rest of the add pass. *)
Lemma add_pass_absent networkName order s :
  addMap s !! networkName = None →
  addMap (after (foldM (λ _ n, addVisit n) order tt) s) !! networkName = None.
Proof.
  revert s. induction order as [|n order IH]; intros s Hnone; [done|].
  simpl. unfold after, bind.
  destruct (addVisit n s) as [[[]|] s1] eqn:Hvisit; simpl.
  - apply IH. destruct (decide (n = networkName)) as [->|Hne].
    + unfold addVisit, bind, gets in Hvisit. simpl in Hvisit.
      rewrite Hnone in Hvisit. by injection Hvisit as <-.
    + destruct (addVisit_addOnly n s) as [_ Ha]. unfold after in Ha.
      rewrite Hvisit in Ha. simpl in Ha. by rewrite Ha.
  - destruct (decide (n = networkName)) as [->|Hne].
    + unfold addVisit, bind, gets in Hvisit. simpl in Hvisit.
      by rewrite Hnone in Hvisit.
    + destruct (addVisit_addOnly n s) as [_ Ha]. unfold after in Ha.
      rewrite Hvisit in Ha. simpl in Ha. by rewrite Ha.
Qed.

(** C1, as the code has it. When the network attachment definition of a
    pending network was fetched, the add pass removes the entry from the add
    map if the configuration parses as JSON and is no IB-SRIOV spec, and the
    entry is then absent for the rest of the pass; if the configuration is no
    JSON the visit ends there and the entry keeps its pods. *)
Theorem add_pass_unreadable_config (networkName : string) (p0 : PodRef)
    (ps : list PodRef) (pod0 : Pod) (netAttInfo : NetworkAttachmentDefinition)
    (w1 : W) (s : State W) :
  addMap s !! networkName = Some (VPods (p0 :: ps)) →
  heap s !! p0 = Some pod0 →
  GetNetworkAttachmentDefinition (Namespace pod0) networkName (world s)
    = (Ok netAttInfo, w1) →
  let s1 := setWorldCalls w1
              (calls s ++ [EvGetNetworkAttachmentDefinition (Namespace pod0)
                             networkName (Ok netAttInfo)]) s in
  (∀ e, jsonUnmarshal (SpecConfig netAttInfo) = Err e →
        addVisit networkName s = (Done tt, s1) ∧
        addMap s1 !! networkName = Some (VPods (p0 :: ps))) ∧
  (∀ networkSpec e,
        jsonUnmarshal (SpecConfig netAttInfo) = Ok networkSpec →
        GetIbSriovCniFromNetwork networkSpec = Err e →
        addVisit networkName s
          = (Done tt, setAddMap (delete networkName (addMap s)) s1) ∧
        ∀ order,
          addMap (after (do _ <- addVisit networkName;
                         foldM (λ _ n, addVisit n) order tt) s)
            !! networkName = None).
Proof.
  intros Hentry Hpod Hget s1. split.
  - intros e Hjson. split; [|done].
    unfold addVisit, addNetwork, derefPod, bind, gets, call; simpl.
    rewrite Hentry, Hpod. simpl. rewrite Hget. simpl. by rewrite Hjson.
  - intros spec e Hjson Hib.
    assert (addVisit networkName s
            = (Done tt, setAddMap (delete networkName (addMap s)) s1)) as Hv.
    { unfold addVisit, addNetwork, derefPod, bind, gets, call; simpl.
      rewrite Hentry, Hpod. simpl. rewrite Hget. simpl.
      by rewrite Hjson, Hib. }
    split; [done|]. intros order. unfold after, bind. rewrite Hv.
    apply add_pass_absent. simpl. apply lookup_delete_eq.
Qed.

(** *** PKeys that do not parse *)

Lemma pkey_gate_open (ibCniSpec : IbSriovCniSpec) {A} (l : list A) :
  PKey ibCniSpec ≠ "" → l ≠ [] →
  negb (String.eqb (PKey ibCniSpec) "") && negb (length l =? 0) = true.
Proof.
  intros Hk Hl. apply String.eqb_neq in Hk. rewrite Hk.
  by destruct l.
Qed.

Lemma pkey_gate_closed (ibCniSpec : IbSriovCniSpec) {A} (l : list A) :
  l = [] →
  negb (String.eqb (PKey ibCniSpec) "") && negb (length l =? 0) = false.
Proof. intros ->. simpl. apply andb_false_r. Qed.

(** When no pod passed the allocation loop, the rest of the visit makes no
    call and writes the failed pods back. *)
Lemma addProgram_nothing_passed networkName ibCniSpec acc s :
  guidList acc = [] → passedPods acc = [] → failedPods acc ≠ [] →
  addProgram networkName ibCniSpec acc s
    = (Done tt,
       setAddMap (<[networkName := VPods (failedPods acc)]> (addMap s)) s).
Proof.
  intros Hg Hp Hf. unfold addProgram.
  rewrite (pkey_gate_closed _ _ Hg).
  unfold addAnnotate. rewrite Hp. simpl. unfold bind, ret. simpl.
  unfold addWithdraw. simpl. rewrite andb_false_r.
  unfold addBookkeeping. by destruct (failedPods acc).
Qed.

(** C2, as the code has it. When the IB-SRIOV spec of a pending network has
    a PKey that is not empty and that [ParsePKey] rejects (a reserved value
    or a string that does not parse), the add pass makes no call on the
    subnet manager for that network, and it does not remove the entry: the
    add map is after the visit what it was before. *)
Theorem add_pass_rejected_pkey (networkName : string) (pods : list PodRef)
    (ibCniSpec : IbSriovCniSpec) (s s1 : State W) (e : error) :
  addMap s !! networkName = Some (VPods pods) →
  Fetched networkName pods ibCniSpec s s1 →
  PKey ibCniSpec ≠ "" →
  snd (ParsePKey (PKey ibCniSpec)) = Some e →
  addMap (after (addVisit networkName) s) = addMap s ∧
  ∃ d, calls (after (addVisit networkName) s) = calls s ++ d ∧
       forallb notSMCall d = true.
Proof.
  intros Hentry Hfetch Hkey Hparse.
  unfold after. rewrite (addVisit_fetched _ _ _ _ _ Hentry Hfetch).
  destruct (Fetched_quiet _ _ _ _ _ Hfetch) as (Hq1 & _ & Hpods).
  assert (quiet notSMCall s1 (addPods networkName ibCniSpec pods s1).2
          ∧ addMap (addPods networkName ibCniSpec pods s1).2 = addMap s)
    as [Hq2 Hmap].
  { unfold addPods, bind.
    pose proof (stays_foldM isAllocCall (addPodStep networkName) pods
                  emptyAddAcc (stays_addPodStep networkName) s1) as Hloop.
    unfold after in Hloop.
    destruct (foldM (addPodStep networkName) pods emptyAddAcc s1)
      as [[acc|] s2] eqn:Hrun; simpl in Hloop.
    all: assert (addMap s2 = addMap s) as Hmap2
      by (destruct Hloop as (? & _), Hq1 as (? & _); congruence).
    all: assert (quiet notSMCall s1 s2) as Hq2
      by (by eapply quiet_mono; [|done]; intros []).
    2:{ done. }
    apply alloc_loop_lists in Hrun
      as (gs & ps & fs & Hg & Hp & Hf & Hlen & Hall).
    simpl in Hg, Hp, Hf.
    destruct gs as [|g gs].
    - destruct ps; [|done]. rewrite Hall in Hf by done.
      rewrite addProgram_nothing_passed by (by rewrite ?Hf).
      simpl. rewrite Hf, insert_id by (by rewrite Hmap2).
      split; [|done].
      destruct Hq2 as (Ha & Hd & Hc). by repeat split.
    - unfold addProgram. rewrite pkey_gate_open by (by rewrite ?Hg).
      destruct (ParsePKey (PKey ibCniSpec)) as [pKey err].
      simpl in Hparse. subst err. done. }
  split; [done|].
  assert (quiet notSMCall s (addPods networkName ibCniSpec pods s1).2)
    as (_ & _ & Hd).
  { etransitivity; [|done]. by eapply quiet_mono; [|done]; intros []. }
  done.
Qed.

(** *** The end of a visit *)

Lemma addBookkeeping_run networkName failed s :
  addBookkeeping networkName failed s
    = (Done tt, setAddMap (bookkept networkName failed (addMap s)) s).
Proof. unfold addBookkeeping. by destruct failed. Qed.

Lemma deleteBookkeeping_run networkName failed s :
  deleteBookkeeping networkName failed s
    = (Done tt, setDeleteMap (bookkept networkName failed (deleteMap s)) s).
Proof. unfold deleteBookkeeping. by destruct failed. Qed.

Lemma annotate_loop_quiet acc l index u s :
  quiet isAnnotateCall s (after (foldMi (addAnnotateStep acc) index l u) s).
Proof. apply stays_foldMi, stays_addAnnotateStep. Qed.

Lemma alloc_loop_quiet networkName pods acc s :
  quiet isAllocCall s (after (foldM (addPodStep networkName) pods acc) s).
Proof. apply stays_foldM, stays_addPodStep. Qed.

(** C3, as the code has it. When GUIDs were released in the annotation loop
    of a network whose PKey is not empty, the add pass calls
    [RemoveGuidsFromPKey] with them. If that call returns an error the visit
    ends there: the end-of-pass bookkeeping is skipped and the add map is
    what it was, so the entry keeps all its pods. If the call succeeds the
    entry is removed when no pod failed and holds the failed pods
    otherwise. *)
Theorem add_pass_withdrawal (networkName : string)
    (ibCniSpec : IbSriovCniSpec) (acc : AddAcc) (u : UpdAcc)
    (s s1 : State W) (r : option error) (w2 : W) :
  foldMi (addAnnotateStep acc) 0 (passedPods acc)
    (mkUpdAcc (failedPods acc) []) s = (Done u, s1) →
  PKey ibCniSpec ≠ "" →
  removedGuidList u ≠ [] →
  RemoveGuidsFromPKey (fst (ParsePKey (PKey ibCniSpec))) (removedGuidList u)
    (world s1) = (r, w2) →
  let s2 := setWorldCalls w2
              (calls s1 ++ [EvRemoveGuidsFromPKey
                              (fst (ParsePKey (PKey ibCniSpec)))
                              (removedGuidList u) r]) s1 in
  match r with
  | Some _ =>
      addAnnotate networkName ibCniSpec acc s = (Done tt, s2) ∧
      addMap s2 = addMap s
  | None =>
      addAnnotate networkName ibCniSpec acc s
        = (Done tt,
           setAddMap (bookkept networkName (updFailedPods u) (addMap s)) s2)
  end.
Proof.
  intros Hloop Hkey Hrem Hsm s2.
  pose proof (annotate_loop_quiet acc (passedPods acc) 0
                (mkUpdAcc (failedPods acc) []) s) as (Hmap & _).
  unfold after in Hmap. rewrite Hloop in Hmap. simpl in Hmap.
  unfold addAnnotate, bind. rewrite Hloop.
  unfold addWithdraw. rewrite pkey_gate_open by done.
  unfold bind, call. rewrite Hsm. fold s2.
  destruct r as [e|]; [done|].
  rewrite addBookkeeping_run. simpl. by rewrite Hmap.
Qed.

Lemma release_loop_done guids s :
  foldM deleteReleaseStep guids tt s
    = (Done tt, after (foldM deleteReleaseStep guids tt) s).
Proof.
  revert s. induction guids as [|g guids IH]; intros s; [done|].
  simpl. unfold after, bind, deleteReleaseStep, bind, call. simpl.
  destruct (ReleaseGUID (HardwareAddrString g) (world s)) as [r w]. simpl.
  apply IH.
Qed.

Lemma release_loop_quiet guids s :
  quiet isRelease s (after (foldM deleteReleaseStep guids tt) s).
Proof.
  apply stays_foldM. intros [] g. unfold deleteReleaseStep. stays_auto.
Qed.

Lemma Programmed_maps ibCniSpec guids s s' :
  Programmed ibCniSpec guids s s' → addMap s' = addMap s.
Proof. by intros [_ ->|pKey w _ _ _ ->]. Qed.

Lemma Withdrawn_maps ibCniSpec guids s s' :
  Withdrawn ibCniSpec guids s s' → addMap s' = addMap s.
Proof. by intros [_ ->|w _ _ ->]. Qed.

Lemma Removed_maps ibCniSpec guids s s' :
  Removed ibCniSpec guids s s' → deleteMap s' = deleteMap s.
Proof. by intros [_ ->|pKey w _ _ _ ->]. Qed.

(** C7. A visit that goes through every stage ends with the bookkeeping of
    its map. In the add pass: when the network attachment definition was
    fetched, the allocation loop returned, the subnet manager accepted the
    GUIDs (or none had to be programmed), the annotation loop returned and
    the subnet manager withdrew the released GUIDs (or there were none), the
    add map is the one before the visit with the entry removed if no pod
    failed, and with the entry holding exactly the failed pods otherwise. In
    the delete pass: when the definition was fetched, the scan returned and
    the subnet manager removed the GUIDs (or none had to be removed), the
    GUIDs are released and the delete map is updated in the same way. *)
Theorem pass_bookkeeping (networkName : string) (pods : list PodRef)
    (ibCniSpec : IbSriovCniSpec) (s s1 : State W) :
  Fetched networkName pods ibCniSpec s s1 →
  (∀ acc s2 s3 u s4 s5,
     addMap s !! networkName = Some (VPods pods) →
     foldM (addPodStep networkName) pods emptyAddAcc s1 = (Done acc, s2) →
     Programmed ibCniSpec (guidList acc) s2 s3 →
     foldMi (addAnnotateStep acc) 0 (passedPods acc)
       (mkUpdAcc (failedPods acc) []) s3 = (Done u, s4) →
     Withdrawn ibCniSpec (removedGuidList u) s4 s5 →
     addVisit networkName s
       = (Done tt,
          setAddMap (bookkept networkName (updFailedPods u) (addMap s)) s5)) ∧
  (∀ acc s2 s3,
     deleteMap s !! networkName = Some (VPods pods) →
     foldM (deletePodStep networkName) pods (mkDelAcc [] []) s1
       = (Done acc, s2) →
     Removed ibCniSpec (delGuidList acc) s2 s3 →
     let s4 := after (foldM deleteReleaseStep (delGuidList acc) tt) s3 in
     deleteVisit networkName s
       = (Done tt,
          setDeleteMap
            (bookkept networkName (delFailedPods acc) (deleteMap s)) s4)).
Proof.
  intros Hfetch.
  destruct (Fetched_quiet _ _ _ _ _ Hfetch) as ((Ha1 & Hd1 & _) & _ & _).
  split.
  - intros acc s2 s3 u s4 s5 Hentry Halloc Hprog Hann Hwd.
    rewrite (addVisit_fetched _ _ _ _ _ Hentry Hfetch).
    assert (addMap s5 = addMap s) as Hmap.
    { pose proof (Withdrawn_maps _ _ _ _ Hwd) as H5.
      pose proof (annotate_loop_quiet acc (passedPods acc) 0
                    (mkUpdAcc (failedPods acc) []) s3) as (H4 & _).
      unfold after in H4. rewrite Hann in H4. simpl in H4.
      pose proof (Programmed_maps _ _ _ _ Hprog) as H3.
      pose proof (alloc_loop_quiet networkName pods emptyAddAcc s1)
        as (H2 & _).
      unfold after in H2. rewrite Halloc in H2. simpl in H2. congruence. }
    unfold addPods, bind. rewrite Halloc.
    assert (addProgram networkName ibCniSpec acc s2
            = addAnnotate networkName ibCniSpec acc s3) as ->.
    { unfold addProgram.
      destruct Hprog as [Hno ->|pKey w Hyes Hparse Hsm ->];
        unfold smNeeded in *.
      - by rewrite Hno.
      - rewrite Hyes, Hparse. unfold bind, call. by rewrite Hsm. }
    unfold addAnnotate, bind. rewrite Hann. unfold addWithdraw.
    destruct Hwd as [Hno ->|w Hyes Hsm ->]; unfold smNeeded in *.
    + rewrite Hno, addBookkeeping_run. by rewrite <- Hmap.
    + rewrite Hyes. unfold bind, call. rewrite Hsm.
      rewrite addBookkeeping_run. by rewrite <- Hmap.
  - intros acc s2 s3 Hentry Hscan Hrem s4.
    rewrite (deleteVisit_fetched _ _ _ _ _ Hentry Hfetch).
    assert (deleteMap s4 = deleteMap s) as Hmap.
    { pose proof (release_loop_quiet (delGuidList acc) s3) as (_ & H4 & _).
      fold s4 in H4.
      pose proof (Removed_maps _ _ _ _ Hrem) as H3.
      pose proof (delete_scan_state networkName pods (mkDelAcc [] []) s1)
        as Hs2.
      unfold after in Hs2. rewrite Hscan in Hs2. simpl in Hs2. congruence. }
    unfold deletePods, bind. rewrite Hscan.
    assert (deleteWithdraw networkName ibCniSpec acc s2
            = deleteRelease networkName acc s3) as ->.
    { unfold deleteWithdraw.
      destruct Hrem as [Hno ->|pKey w Hyes Hparse Hsm ->];
        unfold smNeeded in *.
      - by rewrite Hno.
      - rewrite Hyes, Hparse. unfold bind, call. by rewrite Hsm. }
    unfold deleteRelease, bind. rewrite release_loop_done. fold s4.
    rewrite deleteBookkeeping_run. by rewrite <- Hmap.
Qed.

(** *** The delete pass *)

Lemma release_not_first (e0 e1 : Event) (rest d1 d2 : list Event) guid r :
  isRelease e0 = false → isRelease e1 = false →
  e0 :: e1 :: rest = d1 ++ EvReleaseGUID guid r :: d2 →
  e1 ∈ d1.
Proof.
  intros H0 H1 Heq. destruct d1 as [|x [|y d1]]; simpl in Heq.
  - injection Heq as -> _. done.
  - injection Heq as _ -> _. done.
  - injection Heq as _ -> _. set_solver.
Qed.

Lemma no_release_split (d d1 d2 : list Event) guid r :
  forallb notRelease d = true → d ≠ d1 ++ EvReleaseGUID guid r :: d2.
Proof.
  intros Hd ->. rewrite forallb_app in Hd. simpl in Hd.
  by rewrite andb_false_r in Hd.
Qed.

(** C4. In the delete pass, on a network with a PKey that is not empty and
    a batch of GUIDs that is not empty, every call of [ReleaseGUID] comes
    after a call of [RemoveGuidsFromPKey] on the batch that returned no
    error; and when the removal returns an error no GUID is released in the
    visit and the delete map is what it was, so the entry is retried. *)
Theorem delete_pass_release_after_removal (networkName : string)
    (pods : list PodRef) (ibCniSpec : IbSriovCniSpec) (s s1 : State W)
    (acc : DelAcc) :
  deleteMap s !! networkName = Some (VPods pods) →
  Fetched networkName pods ibCniSpec s s1 →
  outcome (foldM (deletePodStep networkName) pods (mkDelAcc [] [])) s1
    = Done acc →
  PKey ibCniSpec ≠ "" →
  delGuidList acc ≠ [] →
  ∃ d, calls (after (deleteVisit networkName) s) = calls s ++ d ∧
    (∀ d1 guid r d2,
       d = d1 ++ EvReleaseGUID guid r :: d2 →
       ∃ pKey, EvRemoveGuidsFromPKey pKey (delGuidList acc) None ∈ d1) ∧
    (∀ pKey e w,
       ParsePKey (PKey ibCniSpec) = (pKey, None) →
       RemoveGuidsFromPKey pKey (delGuidList acc) (world s1) = (Some e, w) →
       EvRemoveGuidsFromPKey pKey (delGuidList acc) (Some e) ∈ d ∧
       forallb notRelease d = true ∧
       deleteMap (after (deleteVisit networkName) s) = deleteMap s).
Proof.
  intros Hentry Hfetch Hscan Hkey Hguids. unfold after.
  rewrite (deleteVisit_fetched _ _ _ _ _ Hentry Hfetch).
  destruct Hfetch as [p0 ps pod0 nad w1 spec -> Hpod Hget Hjson Hib ->].
  set (e0 := EvGetNetworkAttachmentDefinition (Namespace pod0) networkName
               (Ok nad)) in *.
  set (s1 := setWorldCalls w1 (calls s ++ [e0]) s) in *.
  unfold deletePods, bind.
  pose proof (delete_scan_state networkName (p0 :: ps) (mkDelAcc [] []) s1)
    as Hs2.
  unfold outcome in Hscan. unfold after in Hs2.
  destruct (foldM (deletePodStep networkName) (p0 :: ps) (mkDelAcc [] []) s1)
    as [r0 s2]. simpl in Hscan, Hs2. subst r0 s2.
  unfold deleteWithdraw. rewrite pkey_gate_open by done.
  destruct (ParsePKey (PKey ibCniSpec)) as [pKey [perr|]].
  { exists [e0]. split; [done|]. split; [|done].
    intros d1 guid r d2 Hd. by apply no_release_split in Hd. }
  unfold bind, call.
  destruct (RemoveGuidsFromPKey pKey (delGuidList acc) (world s1))
    as [[e|] w] eqn:Hsm.
  { exists [e0; EvRemoveGuidsFromPKey pKey (delGuidList acc) (Some e)].
    split; [by simpl; rewrite <- app_assoc|]. split.
    - intros d1 guid r d2 Hd. by apply no_release_split in Hd.
    - intros pKey' e' w' [= <-] Hsm'. rewrite Hsm in Hsm'.
      injection Hsm' as <- <-. split; [set_solver|done]. }
  set (s3 := setWorldCalls w _ s1).
  unfold deleteRelease, bind. rewrite release_loop_done.
  rewrite deleteBookkeeping_run.
  destruct (release_loop_quiet (delGuidList acc) s3) as (_ & _ & d & Hd & Hrel).
  exists (e0 :: EvRemoveGuidsFromPKey pKey (delGuidList acc) None :: d).
  split; [simpl; rewrite Hd; simpl; by rewrite <- !app_assoc|]. split.
  - intros d1 guid r d2 Hsplit. exists pKey.
    by eapply release_not_first in Hsplit.
  - intros pKey' e' w' [= <-] Hsm'. by rewrite Hsm in Hsm'.
Qed.

Lemma deletePodStep_unconfigured networkName acc p s :
  Unconfigured networkName (heap s) p →
  deletePodStep networkName acc p s = (Done acc, s).
Proof.
  intros [pod networks i network Hpod Hparse Hnet Hi Hconf].
  unfold deletePodStep, derefPod, bind, gets. simpl.
  rewrite Hpod. simpl. by rewrite Hparse, Hnet, Hi, Hconf.
Qed.

Lemma delete_scan_unconfigured networkName pods acc s :
  Forall (Unconfigured networkName (heap s)) pods →
  foldM (deletePodStep networkName) pods acc s = (Done acc, s).
Proof.
  induction 1 as [|p pods Hp _ IH]; [done|].
  simpl. unfold bind. by rewrite deletePodStep_unconfigured.
Qed.

(** C9. In the delete pass a pending pod whose selection entry for the
    network is not marked as configured with InfiniBand is skipped: its step
    adds no GUID to the batch, records no failure and makes no call. When
    the network attachment definition was fetched and every pending pod is
    such a pod, the visit makes no call besides the fetch, neither on the
    subnet manager nor on the pool, and it removes the entry from the delete
    map. *)
Theorem delete_pass_skips_unconfigured (networkName : string)
    (pods : list PodRef) (ibCniSpec : IbSriovCniSpec) (s s1 : State W) :
  deleteMap s !! networkName = Some (VPods pods) →
  Fetched networkName pods ibCniSpec s s1 →
  Forall (Unconfigured networkName (heap s)) pods →
  (∀ p acc s', p ∈ pods → heap s' = heap s →
     deletePodStep networkName acc p s' = (Done acc, s')) ∧
  deleteVisit networkName s
    = (Done tt, setDeleteMap (delete networkName (deleteMap s)) s1) ∧
  ∃ e, calls s1 = calls s ++ [e] ∧ isOrchestratorCall e = true.
Proof.
  intros Hentry Hfetch Hall. split; [|split].
  - intros p acc s' Hp Hheap. apply deletePodStep_unconfigured.
    rewrite Hheap. by eapply Forall_forall in Hall.
  - rewrite (deleteVisit_fetched _ _ _ _ _ Hentry Hfetch).
    destruct (Fetched_quiet _ _ _ _ _ Hfetch) as ((_ & Hd1 & _) & Hheap & _).
    unfold deletePods, bind.
    rewrite delete_scan_unconfigured by (by rewrite Hheap).
    unfold deleteWithdraw. simpl. rewrite andb_false_r.
    unfold deleteRelease, bind. simpl.
    rewrite deleteBookkeeping_run. simpl. by rewrite Hd1.
  - destruct Hfetch as [p0 ps pod0 nad w1 spec -> Hpod Hget Hjson Hib ->].
    by eexists.
Qed.

(** *** Failures after an allocation *)

Ltac total_step :=
  first
    [ apply total_ret | apply total_gets | apply total_modify
    | apply total_call
    | apply total_bind; [|intros ?]
    | match goal with
      | |- total (match ?x with _ => _ end) => destruct x
      end ].

Lemma total_addAllocate networkName p pod networks i network acc :
  total (addAllocate networkName p pod networks i network acc).
Proof. unfold addAllocate, setPodAnnotation. repeat total_step. Qed.

Lemma total_podNetworks pod : total (podNetworks (W:=W) pod).
Proof. unfold podNetworks. repeat total_step. Qed.

Lemma quiet_noCall s s' : quiet noCall s s' → calls s' = calls s.
Proof.
  intros (_ & _ & d & -> & Hd). destruct d; [by rewrite app_nil_r|done].
Qed.

(** A step of the allocation loop can only panic before it makes a call. *)
Lemma addPodStep_panic networkName acc p s s' :
  addPodStep networkName acc p s = (Panicked, s') → calls s' = calls s.
Proof.
  unfold addPodStep, derefPod, bind, gets. simpl.
  destruct (heap s !! p) as [pod|]; simpl; [|by intros [= <-]].
  destruct (total_podNetworks pod s) as (parsed & s1 & Hrun).
  pose proof (stays_podNetworks noCall pod s) as Hq.
  unfold after in Hq. rewrite Hrun in Hq. apply quiet_noCall in Hq.
  rewrite Hrun. destruct parsed as [networks|e]; [|by intros [=]].
  destruct (GetPodNetwork networks networkName) as [i|e]; [|by intros [=]].
  destruct (networks !! i) as [network|]; [|by intros [= <-]].
  destruct (total_addAllocate networkName p pod networks i network
              (addNetworkOf (PodUID pod) i acc) s1) as (acc' & s2 & ->).
  by intros [=].
Qed.

Lemma stays_annotate_releases acc u index p :
  stays (releasesOnly (HardwareAddrString <$> guidList acc !! index))
    (addAnnotateStep acc u index p).
Proof.
  unfold addAnnotateStep, addCommit.
  repeat first
    [ apply stays_ret | apply stays_panic | apply stays_gets
    | apply stays_derefPod | apply stays_setPodAnnotation
    | apply stays_setNetworks
    | apply stays_call; intros; reflexivity
    | apply stays_bind; [|intros ?]
    | match goal with
      | |- stays _ (match ?x with _ => _ end) => destruct x eqn:?
      end ].
  apply stays_call. intros r. simpl. by apply bool_decide_eq_true.
Qed.

(** *** Annotation writes that fail *)

Lemma yields_addAnnotateStep acc u index p :
  yields (W:=W) (Extended u) (addAnnotateStep acc u index p).
Proof.
  unfold addAnnotateStep, addCommit.
  repeat yields_step; apply yields_ret; split; simpl;
    first [ by exists [] ; rewrite app_nil_r | by eexists ].
Qed.

Lemma annotate_loop_extends acc l index u s u' s' :
  foldMi (addAnnotateStep acc) index l u s = (Done u', s') → Extended u u'.
Proof.
  revert index u s. induction l as [|p l IH]; intros index u s; simpl.
  - intros [= <- _]. split; exists []; by rewrite app_nil_r.
  - unfold bind.
    destruct (addAnnotateStep acc u index p s) as [[u1|] s1] eqn:Hstep;
      [|done].
    intros Hrest. apply IH in Hrest as [[fs Hf] [gs Hg]].
    apply yields_addAnnotateStep in Hstep as [[fs1 Hf1] [gs1 Hg1]].
    split; [exists (fs1 ++ fs)|exists (gs1 ++ gs)];
      rewrite ?Hf, ?Hg, ?Hf1, ?Hg1; by rewrite app_assoc.
Qed.

(** The allocation loop leaves a GUID in the GUID list at the index of each
    passed pod. *)
Lemma alloc_loop_aligned networkName pods s acc s' index p :
  foldM (addPodStep networkName) pods emptyAddAcc s = (Done acc, s') →
  passedPods acc !! index = Some p →
  is_Some (guidList acc !! index).
Proof.
  intros Hloop Hp.
  apply alloc_loop_lists in Hloop as (gs & ps & fs & Hg & Hps & _ & Hlen & _).
  simpl in *. subst. apply lookup_lt_is_Some. rewrite Hlen.
  by eapply lookup_lt_Some.
Qed.

(** C5. When the write of the annotations of a passed pod returns an error,
    the step of the annotation loop looks at the message. If it contains
    [not found], whatever the case of its letters, the GUID that stands in
    the GUID list at the index of the pod is released with [ReleaseGUID]
    and appended to the removed GUIDs, the failed pods are unchanged, and
    the removed GUIDs the loop returns contain it. Otherwise the pod is
    appended to the failed pods, the removed GUIDs are unchanged and the
    write is the only call of the step: no GUID is released. *)
Theorem annotation_write_failure (acc : AddAcc) (u : UpdAcc) (index : nat)
    (p : PodRef) (s : State W) (pod : Pod) (i : nat)
    (networks : list NetworkSelectionElement)
    (network : NetworkSelectionElement) (args : gmap string CNIArgValue)
    (netAnnotations : string) (err : error) (w1 : W)
    (guidAddr : HardwareAddr) :
  heap s !! p = Some pod →
  podNetworkMap acc !! PodUID pod = Some i →
  podNetworksMap s !! PodUID pod = Some networks →
  networks !! i = Some network →
  CNIArgs network = Some args →
  jsonMarshal (<[i := markConfigured network args]> networks)
    = Ok netAnnotations →
  let pod' := mkPod (PodUID pod) (Namespace pod) (PodName pod)
                (<[NetworkAttachmentAnnot := netAnnotations]>
                   (Annotations pod)) in
  SetAnnotationsOnPod pod' (Annotations pod') (world s) = (Some err, w1) →
  guidList acc !! index = Some guidAddr →
  let write := EvSetAnnotationsOnPod pod' (Annotations pod') (Some err) in
  let guid := HardwareAddrString guidAddr in
  let s' := after (addAnnotateStep acc u index p) s in
  if isNotFound err then
    outcome (addAnnotateStep acc u index p) s
      = Done (mkUpdAcc (updFailedPods u) (removedGuidList u ++ [guidAddr])) ∧
    calls s' = calls s ++ [write; EvReleaseGUID guid (ReleaseGUID guid w1).1] ∧
    world s' = (ReleaseGUID guid w1).2 ∧
    ∀ rest u' s'',
      foldMi (addAnnotateStep acc) (S index) rest
        (mkUpdAcc (updFailedPods u) (removedGuidList u ++ [guidAddr])) s'
        = (Done u', s'') →
      guidAddr ∈ removedGuidList u'
  else
    outcome (addAnnotateStep acc u index p) s
      = Done (mkUpdAcc (updFailedPods u ++ [p]) (removedGuidList u)) ∧
    calls s' = calls s ++ [write] ∧
    world s' = w1.
Proof.
  intros Hpod Hi Hcache Hnet Hargs Hmarshal pod' Hwrite Hguid write guid.
  assert (addAnnotateStep acc u index p s
          = (if isNotFound err then
               do _ <- call (ReleaseGUID guid) (EvReleaseGUID guid);
               ret (mkUpdAcc (updFailedPods u)
                      (removedGuidList u ++ [guidAddr]))
             else ret (mkUpdAcc (updFailedPods u ++ [p]) (removedGuidList u)))
              (mkState w1 (calls s ++ [write]) (<[p := pod']> (heap s))
                 (addMap s) (deleteMap s)
                 (<[PodUID pod := <[i := markConfigured network args]> networks]>
                    (podNetworksMap s)))) as Hstep.
  { unfold addAnnotateStep, derefPod, bind, gets. simpl.
    rewrite Hpod. simpl. rewrite Hi, Hcache, Hnet, Hargs. simpl.
    unfold addCommit. rewrite Hmarshal.
    unfold setPodAnnotation, derefPod, bind, gets, modify, call. simpl.
    rewrite Hpod. simpl. rewrite lookup_insert_eq. simpl.
    subst pod' write. simpl in Hwrite |- *. rewrite Hwrite. simpl.
    destruct (isNotFound err); simpl; [|done].
    by rewrite Hguid. }
  intros s'. subst s'. unfold outcome, after. rewrite Hstep.
  destruct (isNotFound err); [|done].
  unfold bind, call. simpl.
  destruct (ReleaseGUID guid w1) as [r w2]. simpl.
  split; [done|]. split; [by rewrite <- app_assoc|]. split; [done|].
  intros rest u' s'' Hrest.
  apply annotate_loop_extends in Hrest as [_ [gs Hgs]]. simpl in Hgs.
  rewrite Hgs. set_solver.
Qed.

(** *** GUIDs supplied by the user *)

Lemma guidField_markConfigured network args :
  CNIArgs network = Some args →
  guidField (markConfigured network args) = guidField network.
Proof.
  unfold guidField, markConfigured. simpl. intros ->.
  by rewrite lookup_insert_ne.
Qed.

Lemma addCommit_sameNetworks acc u index p networks :
  respects (W:=W) sameNetworks (addCommit acc u index p networks).
Proof.
  unfold addCommit, setPodAnnotation.
  repeat first
    [ apply respects_ret; apply _
    | apply respects_panic; apply _
    | apply respects_derefPod; apply _
    | apply respects_call; done
    | apply respects_modify; intros s; by destruct (heap s !! p)
    | apply respects_bind; [apply _| |intros ?]
    | match goal with
      | |- respects _ (match ?x with _ => _ end) => destruct x
      end ].
Qed.

Lemma annotate_step_keepsGuids acc u index p :
  respects keepsGuids (addAnnotateStep acc u index p).
Proof.
  intros s. unfold after, addAnnotateStep, derefPod, bind, gets. simpl.
  destruct (heap s !! p) as [pod|]; simpl; [|reflexivity].
  destruct (podNetworkMap acc !! PodUID pod) as [i|]; [|reflexivity].
  destruct (podNetworksMap s !! PodUID pod) as [networks|] eqn:Hc;
    [|reflexivity].
  destruct (networks !! i) as [network|] eqn:Hn; [|reflexivity].
  destruct (CNIArgs network) as [args|] eqn:Ha; [|reflexivity].
  set (networks' := <[i := markConfigured network args]> networks).
  set (s1 := setPodNetworksMap _ s).
  pose proof (addCommit_sameNetworks acc u index p networks' s1) as Hsame.
  unfold after, sameNetworks in Hsame.
  destruct (addCommit acc u index p networks' s1) as [r s2]. simpl in *.
  assert (podNetworksMap s2 = podNetworksMap s1) as Hs2 by (by destruct r).
  assert (keepsGuids s s2) as Hkeep.
  { intros uid l'. rewrite Hs2. subst s1. simpl.
    destruct (decide (uid = PodUID pod)) as [->|Hne].
    - rewrite lookup_insert_eq. intros [= <-]. exists networks.
      split; [done|]. subst networks'.
      rewrite list_fmap_insert, guidField_markConfigured by done.
      apply list_insert_id. by rewrite list_lookup_fmap, Hn.
    - rewrite lookup_insert_ne by done. intros Hl. by exists l'. }
  by destruct r.
Qed.

Lemma respects_call_logGrows {A} (op : W → A * W) (ev : A → Event) :
  respects logGrows (call op ev).
Proof.
  intros s. unfold after, call. destruct (op (world s)) as [r w].
  by eexists.
Qed.

Lemma quiet_logGrows P s s' : quiet P s s' → logGrows s s'.
Proof. intros (_ & _ & d & Hd & _). by exists d. Qed.

Lemma addAnnotate_logGrows networkName ibCniSpec acc :
  respects logGrows (addAnnotate networkName ibCniSpec acc).
Proof.
  unfold addAnnotate. apply respects_bind; [apply _| |].
  { eapply respects_weaken; [apply quiet_logGrows|].
    apply stays_foldMi, stays_addAnnotateStep. }
  intros u. unfold addWithdraw, addBookkeeping, addMapUnSafeRemove,
    addMapUnSafeSet.
  repeat first
    [ apply respects_ret; apply _
    | apply respects_call_logGrows
    | apply respects_modify; intros s; exists []; by rewrite app_nil_r
    | apply respects_bind; [apply _| |intros ?]
    | match goal with
      | |- respects _ (match ?x with _ => _ end) => destruct x
      end ].
Qed.

(** *** What the loops do to the pending pods *)

Lemma alloc_loop_partition networkName pods acc s acc' s' :
  foldM (addPodStep networkName) pods acc s = (Done acc', s') →
  ∃ gs ps fs,
    guidList acc' = guidList acc ++ gs ∧
    passedPods acc' = passedPods acc ++ ps ∧
    failedPods acc' = failedPods acc ++ fs ∧
    length gs = length ps ∧
    sublist ps pods ∧ sublist fs pods ∧ ps ++ fs ≡ₚ pods.
Proof.
  revert acc s. induction pods as [|p pods IH]; intros acc s; simpl.
  - intros [= <- _]. exists [], [], []. by rewrite !app_nil_r.
  - unfold bind.
    destruct (addPodStep networkName acc p s) as [[acc1|] s1] eqn:Hstep;
      [|done].
    intros Hrest.
    apply IH in Hrest
      as (gs & ps & fs & Hg & Hp & Hf & Hlen & Hsp & Hsf & Hperm).
    apply yields_addPodStep in Hstep as [Hg1 Hp1 Hf1|g Hg1 Hp1 Hf1].
    + exists gs, ps, (p :: fs).
      rewrite Hg, Hp, Hf, Hg1, Hp1, Hf1, <- app_assoc.
      repeat split; try done.
      * by apply sublist_cons.
      * by apply sublist_skip.
      * by rewrite <- Permutation_middle, Hperm.
    + exists (g :: gs), (p :: ps), fs.
      rewrite Hg, Hp, Hf, Hg1, Hp1, Hf1, <- !app_assoc.
      repeat split; try done.
      * simpl. by rewrite Hlen.
      * by apply sublist_skip.
      * by apply sublist_cons.
      * simpl. by rewrite Hperm.
Qed.

(** X2. The allocation loop sorts the pending pods of a network in two
    lists: each pending pod is either passed or failed, once; both lists
    keep the order of the pending pods; and there are as many GUIDs in the
    GUID list as there are passed pods, so that the GUID of the passed pod
    at an index stands at that index. *)
Theorem allocation_loop_partition (networkName : string)
    (pods : list PodRef) (s s' : State W) (acc : AddAcc) :
  foldM (addPodStep networkName) pods emptyAddAcc s = (Done acc, s') →
  passedPods acc ++ failedPods acc ≡ₚ pods ∧
  sublist (passedPods acc) pods ∧
  sublist (failedPods acc) pods ∧
  length (guidList acc) = length (passedPods acc) ∧
  ∀ index p, passedPods acc !! index = Some p →
    is_Some (guidList acc !! index).
Proof.
  intros Hloop.
  apply alloc_loop_partition in Hloop
    as (gs & ps & fs & Hg & Hp & Hf & Hlen & Hsp & Hsf & Hperm).
  simpl in Hg, Hp, Hf. rewrite Hg, Hp, Hf.
  repeat split; try done.
  intros index p Hin. apply lookup_lt_is_Some. rewrite Hlen.
  by eapply lookup_lt_Some.
Qed.

Lemma yields_Annotated acc u index p :
  yields (W:=W) (Annotated acc index p u) (addAnnotateStep acc u index p).
Proof.
  unfold addAnnotateStep, addCommit.
  repeat first
    [ apply yields_panic
    | apply yields_bind; intros ?
    | match goal with
      | |- yields _ (match ?x with _ => _ end) => destruct x eqn:?
      end ];
    apply yields_ret;
    first [ by apply annotated_written
          | by apply annotated_failed
          | by eapply annotated_removed ].
Qed.

Lemma sublist_drop_S {A} (l k : list A) (i : nat) :
  sublist k (drop (S i) l) → sublist k (drop i l).
Proof.
  intros Hk. etransitivity; [done|].
  replace (drop (S i) l) with (drop 1 (drop i l)).
  - apply sublist_drop.
  - by rewrite drop_drop, Nat.add_1_r.
Qed.

Lemma annotate_loop_lists acc l index u s u' s' :
  foldMi (addAnnotateStep acc) index l u s = (Done u', s') →
  ∃ fs gs,
    updFailedPods u' = updFailedPods u ++ fs ∧
    removedGuidList u' = removedGuidList u ++ gs ∧
    sublist fs l ∧
    sublist gs (drop index (guidList acc)) ∧
    length fs + length gs ≤ length l.
Proof.
  revert index u s. induction l as [|p l IH]; intros index u s; simpl.
  - intros [= <- _]. exists [], []. rewrite !app_nil_r.
    repeat split; try done. apply sublist_nil_l.
  - unfold bind.
    destruct (addAnnotateStep acc u index p s) as [[u1|] s1] eqn:Hstep;
      [|done].
    intros Hrest.
    apply IH in Hrest as (fs & gs & Hf & Hg & Hsf & Hsg & Hlen).
    apply yields_Annotated in Hstep as [->| ->|g Hlook ->]; simpl in *.
    + exists fs, gs. repeat split; try done.
      * by apply sublist_cons.
      * by apply sublist_drop_S.
      * lia.
    + exists (p :: fs), gs. rewrite Hf, <- app_assoc.
      repeat split; try done.
      * by apply sublist_skip.
      * by apply sublist_drop_S.
      * simpl. lia.
    + exists fs, (g :: gs). rewrite Hg, <- app_assoc.
      repeat split; try done.
      * by apply sublist_cons.
      * rewrite (drop_S _ _ _ Hlook). by apply sublist_skip.
      * simpl. lia.
Qed.

(** X3. The annotation loop, as the add pass runs it, only moves passed
    pods: the failed pods it returns are the failed pods of the allocation
    loop followed by passed pods, in their order; the removed GUIDs are
    GUIDs of the GUID list, in their order; and no passed pod counts
    twice. *)
Theorem annotation_loop_outcome (acc : AddAcc) (u : UpdAcc)
    (s s' : State W) :
  foldMi (addAnnotateStep acc) 0 (passedPods acc)
    (mkUpdAcc (failedPods acc) []) s = (Done u, s') →
  (∃ fs, updFailedPods u = failedPods acc ++ fs ∧
         sublist fs (passedPods acc) ∧
         length fs + length (removedGuidList u) ≤ length (passedPods acc)) ∧
  sublist (removedGuidList u) (guidList acc).
Proof.
  intros Hloop.
  apply annotate_loop_lists in Hloop as (fs & gs & Hf & Hg & Hsf & Hsg & Hlen).
  simpl in *. rewrite Hg. split; [|done].
  exists fs. by repeat split.
Qed.

(** *** What a pass does to its map *)

Lemma annotation_loop_lists_from acc u s s' :
  foldMi (addAnnotateStep acc) 0 (passedPods acc)
    (mkUpdAcc (failedPods acc) []) s = (Done u, s') →
  ∃ fs, updFailedPods u = failedPods acc ++ fs ∧ sublist fs (passedPods acc).
Proof.
  intros Hloop.
  apply annotate_loop_lists in Hloop as (fs & gs & Hf & _ & Hsf & _).
  by exists fs.
Qed.

Lemma addAnnotate_entry networkName ibCniSpec acc s :
  addMap (after (addAnnotate networkName ibCniSpec acc) s) = addMap s ∨
  ∃ fs, sublist fs (passedPods acc) ∧
        addMap (after (addAnnotate networkName ibCniSpec acc) s)
        = bookkept networkName (failedPods acc ++ fs) (addMap s).
Proof.
  unfold after, addAnnotate, bind.
  pose proof (annotate_loop_quiet acc (passedPods acc) 0
                (mkUpdAcc (failedPods acc) []) s) as (Hmap & _).
  unfold after in Hmap.
  destruct (foldMi (addAnnotateStep acc) 0 (passedPods acc)
              (mkUpdAcc (failedPods acc) []) s) as [[u|] s1] eqn:Hloop;
    simpl in Hmap; [|by left].
  apply annotation_loop_lists_from in Hloop as (fs & Hf & Hsf).
  unfold addWithdraw.
  destruct (negb (String.eqb (PKey ibCniSpec) "")
            && negb (length (removedGuidList u) =? 0)).
  - unfold bind, call.
    destruct (RemoveGuidsFromPKey _ _ (world s1)) as [[e|] w]; simpl.
    + by left.
    + right. exists fs. split; [done|].
      rewrite addBookkeeping_run. simpl. by rewrite Hmap, Hf.
  - right. exists fs. split; [done|].
    rewrite addBookkeeping_run. simpl. by rewrite Hmap, Hf.
Qed.

Lemma submseteq_failed (pods passed failed fs : list PodRef) :
  passed ++ failed ≡ₚ pods → sublist fs passed → failed ++ fs ⊆+ pods.
Proof.
  intros Hperm Hfs. rewrite <- Hperm, (comm (++) passed).
  apply submseteq_app; [done|]. by apply sublist_submseteq.
Qed.

Lemma addPods_entry networkName ibCniSpec pods s :
  addMap (after (addPods networkName ibCniSpec pods) s) = addMap s ∨
  ∃ failed, failed ⊆+ pods ∧
            addMap (after (addPods networkName ibCniSpec pods) s)
            = bookkept networkName failed (addMap s).
Proof.
  unfold after, addPods, bind.
  pose proof (alloc_loop_quiet networkName pods emptyAddAcc s) as (Hmap & _).
  unfold after in Hmap.
  destruct (foldM (addPodStep networkName) pods emptyAddAcc s)
    as [[acc|] s2] eqn:Hloop; simpl in Hmap; [|by left].
  apply alloc_loop_partition in Hloop
    as (gs & ps & fs & _ & Hp & Hf & _ & _ & _ & Hperm).
  simpl in Hp, Hf. rewrite <- Hp, <- Hf in Hperm.
  assert (∀ s3, addMap s3 = addMap s2 →
            addMap (addAnnotate networkName ibCniSpec acc s3).2 = addMap s ∨
            ∃ failed, failed ⊆+ pods ∧
              addMap (addAnnotate networkName ibCniSpec acc s3).2
              = bookkept networkName failed (addMap s)) as Hann.
  { intros s3 H3.
    destruct (addAnnotate_entry networkName ibCniSpec acc s3)
      as [Hsame|(fs' & Hfs' & Hbook)]; unfold after in *.
    - left. congruence.
    - right. exists (failedPods acc ++ fs'). split.
      + by eapply submseteq_failed.
      + rewrite Hbook. congruence. }
  unfold addProgram.
  destruct (negb (String.eqb (PKey ibCniSpec) "")
            && negb (length (guidList acc) =? 0)); [|by apply Hann].
  destruct (ParsePKey (PKey ibCniSpec)) as [pKey [err|]]; [by left|].
  unfold bind, call.
  destruct (AddGuidsToPKey pKey (guidList acc) (world s2)) as [[e|] w];
    simpl; [by left|].
  by apply Hann.
Qed.

Lemma withinPods_trans pods l entry :
  l ⊆+ pods → withinPods l entry → withinPods pods entry.
Proof.
  intros Hl. destruct entry as [[l'|]|]; simpl; [|done..].
  intros Hl'. by etransitivity.
Qed.

Lemma withinPods_bookkept networkName failed pods m :
  failed ⊆+ pods → withinPods pods (bookkept networkName failed m !! networkName).
Proof.
  intros Hf. destruct failed; simpl.
  - by rewrite lookup_delete_eq.
  - by rewrite lookup_insert_eq.
Qed.

Lemma addVisit_within networkName pods s :
  addMap s !! networkName = Some (VPods pods) →
  withinPods pods (addMap (after (addVisit networkName) s) !! networkName).
Proof.
  intros Hentry.
  assert (withinPods pods (addMap s !! networkName)) as Hsame.
  { rewrite Hentry. simpl. reflexivity. }
  unfold after, addVisit, addNetwork, derefPod, bind, gets, call. simpl.
  rewrite Hentry. destruct pods as [|p0 ps]; [done|].
  destruct (heap s !! p0) as [pod0|]; simpl; [|done].
  destruct (GetNetworkAttachmentDefinition (Namespace pod0) networkName
              (world s)) as [[nad|e] w1]; simpl; [|done].
  destruct (jsonUnmarshal (SpecConfig nad)) as [spec|e]; [|done].
  destruct (GetIbSriovCniFromNetwork spec) as [ib|e].
  - set (s1 := setWorldCalls w1 _ s).
    destruct (addPods_entry networkName ib (p0 :: ps) s1)
      as [Heq|(failed & Hsub & Heq)]; unfold after in Heq; rewrite Heq.
    + done.
    + by apply withinPods_bookkept.
  - simpl. unfold UnSafeRemove. by rewrite lookup_delete_eq.
Qed.

Lemma addVisit_None networkName s :
  addMap s !! networkName = None → addVisit networkName s = (Done tt, s).
Proof.
  intros Hnone. unfold addVisit, bind, gets. simpl. by rewrite Hnone.
Qed.

Lemma addVisits_within networkName pods order s :
  withinPods pods (addMap s !! networkName) →
  withinPods pods
    (addMap (after (foldM (λ _ n, addVisit n) order tt) s) !! networkName).
Proof.
  revert s. induction order as [|n order IH]; intros s Hs; [done|].
  simpl. unfold after, bind.
  assert (withinPods pods (addMap (addVisit n s).2 !! networkName)) as Hstep.
  { destruct (decide (n = networkName)) as [->|Hne].
    - destruct (addMap s !! networkName) as [[l|descr]|] eqn:Hentry;
        simpl in Hs; [|done|].
      + eapply withinPods_trans; [done|].
        by apply (addVisit_within networkName l s).
      + rewrite (addVisit_None _ _ Hentry). simpl. by rewrite Hentry.
    - destruct (addVisit_addOnly n s) as [_ Ha]. unfold after in Ha.
      by rewrite Ha. }
  destruct (addVisit n s) as [[[]|] s1]; simpl in *; [by apply IH|done].
Qed.

(** X4. The add pass never puts a pod in an entry of the add map: after a
    pass, in whatever order it visits the networks, an entry that held pods
    is gone or holds pods it held before, none more often than before. *)
Theorem add_pass_never_adds_pods (networkName : string)
    (pods : list PodRef) (order : list string) (s : State W) :
  addMap s !! networkName = Some (VPods pods) →
  withinPods pods
    (addMap (after (AddPeriodicUpdate order) s) !! networkName).
Proof.
  intros Hentry.
  assert (after (AddPeriodicUpdate order) s
          = after (foldM (λ _ n, addVisit n) order tt)
              (setPodNetworksMap ∅ s)) as -> by done.
  apply addVisits_within. simpl. rewrite Hentry. simpl. reflexivity.
Qed.

Lemma addVisits_other networkName order s :
  networkName ∉ order →
  addMap (after (foldM (λ _ n, addVisit n) order tt) s) !! networkName
  = addMap s !! networkName.
Proof.
  revert s. induction order as [|n order IH]; intros s Hnot; [done|].
  apply not_elem_of_cons in Hnot as [Hne Hnot].
  simpl. unfold after, bind.
  destruct (addVisit_addOnly n s) as [_ Ha]. unfold after in Ha.
  destruct (addVisit n s) as [[[]|] s1]; simpl in *.
  - rewrite <- Ha by done. by apply IH.
  - by apply Ha.
Qed.

Lemma addVisits_deleteMap order s :
  deleteMap (after (foldM (λ _ n, addVisit n) order tt) s) = deleteMap s.
Proof.
  revert s. induction order as [|n order IH]; intros s; [done|].
  simpl. unfold after, bind.
  destruct (addVisit_addOnly n s) as [Hd _]. unfold after in Hd.
  destruct (addVisit n s) as [[[]|] s1]; simpl in *; [|done].
  rewrite <- Hd. apply IH.
Qed.

(** X5. The add pass works on the entries it visits and on nothing else in
    the two maps: it leaves the delete map as it is, it leaves every entry
    of the add map whose network is not visited as it is, and it creates no
    entry. *)
Theorem add_pass_frame (order : list string) (s : State W) :
  let s' := after (AddPeriodicUpdate order) s in
  deleteMap s' = deleteMap s ∧
  (∀ n, n ∉ order → addMap s' !! n = addMap s !! n) ∧
  (∀ n, addMap s !! n = None → addMap s' !! n = None).
Proof.
  intros s'. subst s'.
  assert (after (AddPeriodicUpdate order) s
          = after (foldM (λ _ n, addVisit n) order tt)
              (setPodNetworksMap ∅ s)) as -> by done.
  split; [|split].
  - by rewrite addVisits_deleteMap.
  - intros n Hn. by rewrite addVisits_other.
  - intros n Hn. by apply add_pass_absent.
Qed.

Lemma yields_Scanned networkName acc p :
  yields (W:=W) (Scanned p acc) (deletePodStep networkName acc p).
Proof.
  unfold deletePodStep.
  repeat yields_step; apply yields_ret;
    first [ by apply scanned_skipped
          | by apply scanned_failed
          | by eapply scanned_guid ].
Qed.

Lemma delete_scan_lists networkName pods acc s acc' s' :
  foldM (deletePodStep networkName) pods acc s = (Done acc', s') →
  ∃ gs fs,
    delGuidList acc' = delGuidList acc ++ gs ∧
    delFailedPods acc' = delFailedPods acc ++ fs ∧
    sublist fs pods ∧
    length gs + length fs ≤ length pods.
Proof.
  revert acc s. induction pods as [|p pods IH]; intros acc s; simpl.
  - intros [= <- _]. exists [], []. by rewrite !app_nil_r.
  - unfold bind.
    destruct (deletePodStep networkName acc p s) as [[acc1|] s1] eqn:Hstep;
      [|done].
    intros Hrest. apply IH in Hrest as (gs & fs & Hg & Hf & Hsf & Hlen).
    apply yields_Scanned in Hstep as [->| ->|g ->]; simpl in *.
    + exists gs, fs. repeat split; try done; [by apply sublist_cons|lia].
    + exists gs, (p :: fs). rewrite Hf, <- app_assoc.
      repeat split; try done; [by apply sublist_skip|simpl; lia].
    + exists (g :: gs), fs. rewrite Hg, <- app_assoc.
      repeat split; try done; [by apply sublist_cons|simpl; lia].
Qed.

Lemma deletePods_entry networkName ibCniSpec pods s :
  deleteMap (after (deletePods networkName ibCniSpec pods) s) = deleteMap s ∨
  ∃ failed, sublist failed pods ∧
            deleteMap (after (deletePods networkName ibCniSpec pods) s)
            = bookkept networkName failed (deleteMap s).
Proof.
  unfold after, deletePods, bind.
  pose proof (delete_scan_state networkName pods (mkDelAcc [] []) s) as Hs2.
  unfold after in Hs2.
  destruct (foldM (deletePodStep networkName) pods (mkDelAcc [] []) s)
    as [[acc|] s2] eqn:Hscan; simpl in Hs2; subst s2; [|by left].
  apply delete_scan_lists in Hscan as (gs & fs & _ & Hf & Hsf & _).
  simpl in Hf.
  assert (∀ s3, deleteMap s3 = deleteMap s →
            ∃ failed, sublist failed pods ∧
              deleteMap (deleteRelease networkName acc s3).2
              = bookkept networkName failed (deleteMap s)) as Hrel.
  { intros s3 H3. exists fs. split; [done|].
    unfold deleteRelease, bind. rewrite release_loop_done.
    rewrite deleteBookkeeping_run. simpl.
    destruct (release_loop_quiet (delGuidList acc) s3) as (_ & Hd & _).
    by rewrite Hd, H3, Hf. }
  unfold deleteWithdraw.
  destruct (negb (String.eqb (PKey ibCniSpec) "")
            && negb (length (delGuidList acc) =? 0)); [|right; by apply Hrel].
  destruct (ParsePKey (PKey ibCniSpec)) as [pKey [err|]]; [by left|].
  unfold bind, call.
  destruct (RemoveGuidsFromPKey pKey (delGuidList acc) (world s)) as [[e|] w];
    simpl; [by left|].
  right. by apply Hrel.
Qed.

Lemma subsequenceOfPods_trans pods l entry :
  sublist l pods → subsequenceOfPods l entry → subsequenceOfPods pods entry.
Proof.
  intros Hl. destruct entry as [[l'|]|]; simpl; [|done..].
  intros Hl'. by etransitivity.
Qed.

Lemma deleteVisit_subsequence networkName pods s :
  deleteMap s !! networkName = Some (VPods pods) →
  subsequenceOfPods pods
    (deleteMap (after (deleteVisit networkName) s) !! networkName).
Proof.
  intros Hentry.
  assert (subsequenceOfPods pods (deleteMap s !! networkName)) as Hsame.
  { rewrite Hentry. simpl. reflexivity. }
  unfold after, deleteVisit, deleteNetwork, derefPod, bind, gets, call. simpl.
  rewrite Hentry. destruct pods as [|p0 ps]; [done|].
  destruct (heap s !! p0) as [pod0|]; simpl; [|done].
  destruct (GetNetworkAttachmentDefinition (Namespace pod0) networkName
              (world s)) as [[nad|e] w1]; simpl; [|done].
  destruct (jsonUnmarshal (SpecConfig nad)) as [spec|e]; [|done].
  destruct (GetIbSriovCniFromNetwork spec) as [ib|e]; [|done].
  set (s1 := setWorldCalls w1 _ s).
  destruct (deletePods_entry networkName ib (p0 :: ps) s1)
    as [Heq|(failed & Hsub & Heq)]; unfold after in Heq; rewrite Heq.
  - done.
  - simpl. destruct failed; simpl.
    + by rewrite lookup_delete_eq.
    + by rewrite lookup_insert_eq.
Qed.

Lemma deleteVisit_None networkName s :
  deleteMap s !! networkName = None →
  deleteVisit networkName s = (Done tt, s).
Proof.
  intros Hnone. unfold deleteVisit, bind, gets. simpl. by rewrite Hnone.
Qed.

(** X6. The delete pass never puts a pod in an entry of the delete map:
    after a pass, in whatever order it visits the networks, an entry that
    held pods is gone or holds some of the pods it held before, in the order
    they had. *)
Theorem delete_pass_never_adds_pods (networkName : string)
    (pods : list PodRef) (order : list string) (s : State W) :
  deleteMap s !! networkName = Some (VPods pods) →
  subsequenceOfPods pods
    (deleteMap (after (DeletePeriodicUpdate order) s) !! networkName).
Proof.
  intros Hentry.
  assert (subsequenceOfPods pods (deleteMap s !! networkName)) as Hs.
  { rewrite Hentry. simpl. reflexivity. }
  clear Hentry. unfold DeletePeriodicUpdate.
  revert s Hs. induction order as [|n order IH]; intros s Hs; [done|].
  simpl. unfold after, bind.
  assert (subsequenceOfPods pods
            (deleteMap (deleteVisit n s).2 !! networkName)) as Hstep.
  { destruct (decide (n = networkName)) as [->|Hne].
    - destruct (deleteMap s !! networkName) as [[l|descr]|] eqn:Hentry;
        simpl in Hs; [|done|].
      + eapply subsequenceOfPods_trans; [done|].
        by apply (deleteVisit_subsequence networkName l s).
      + rewrite (deleteVisit_None _ _ Hentry). simpl. by rewrite Hentry.
    - destruct (deleteVisit_deleteOnly n s) as [_ Hd]. unfold after in Hd.
      by rewrite Hd. }
  destruct (deleteVisit n s) as [[[]|] s1]; simpl in *; [by apply IH|done].
Qed.

#[local] Instance deleteFrame_preorder : PreOrder (deleteFrame (W:=W)).
Proof.
  split.
  - intros s. repeat split. exists []. by rewrite app_nil_r.
  - intros s1 s2 s3 (Ha1 & Hh1 & Hn1 & d1 & Hc1 & Hp1)
      (Ha2 & Hh2 & Hn2 & d2 & Hc2 & Hp2).
    repeat split; try congruence.
    exists (d1 ++ d2). split.
    + by rewrite Hc2, Hc1, app_assoc.
    + by rewrite forallb_app, Hp1, Hp2.
Qed.

Lemma respects_call_deleteFrame {A} (op : W → A * W) (ev : A → Event) :
  (∀ r, isDeleteCall (ev r) = true) → respects deleteFrame (call op ev).
Proof.
  intros Hev s. unfold after, call. destruct (op (world s)) as [r w].
  repeat split. exists [ev r]. split; [done|]. simpl. by rewrite Hev.
Qed.

Lemma deleteVisit_deleteFrame networkName :
  respects deleteFrame (deleteVisit networkName).
Proof.
  unfold deleteVisit, deleteNetwork, deletePods, deleteWithdraw,
    deleteRelease, deleteBookkeeping, deletePodStep, deleteReleaseStep,
    deleteMapUnSafeRemove, deleteMapUnSafeSet.
  repeat first
    [ apply respects_ret; apply _
    | apply respects_panic; apply _
    | apply respects_gets; apply _
    | apply respects_derefPod; apply _
    | apply respects_call_deleteFrame; intros; reflexivity
    | apply respects_modify; intros s; repeat split; exists [];
      by rewrite app_nil_r
    | apply respects_foldM; [apply _|intros ? ?]
    | apply respects_bind; [apply _| |intros ?]
    | match goal with
      | |- respects _ (match ?x with _ => _ end) => destruct x
      end ].
Qed.

(** X7. The delete pass touches nothing but its map and the collaborators:
    it leaves the add map, the pod objects and the parsed selections as they
    are, the only calls it makes are fetches of network attachment
    definitions, [RemoveGuidsFromPKey] and [ReleaseGUID], it leaves every
    entry whose network is not visited as it is, and it creates no entry. *)
Theorem delete_pass_frame (order : list string) (s : State W) :
  let s' := after (DeletePeriodicUpdate order) s in
  deleteFrame s s' ∧
  (∀ n, n ∉ order → deleteMap s' !! n = deleteMap s !! n) ∧
  (∀ n, deleteMap s !! n = None → deleteMap s' !! n = None).
Proof.
  intros s'. subst s'. unfold DeletePeriodicUpdate. split; [|split].
  - apply respects_foldM; [apply _|]. intros _ n.
    apply deleteVisit_deleteFrame.
  - revert s. induction order as [|n order IH]; intros s k Hnot; [done|].
    apply not_elem_of_cons in Hnot as [Hne Hnot].
    simpl. unfold after, bind.
    destruct (deleteVisit_deleteOnly n s) as [_ Hd]. unfold after in Hd.
    specialize (IH (deleteVisit n s).2 k Hnot). unfold after in IH.
    destruct (deleteVisit n s) as [[[]|] s1]; simpl in *.
    + rewrite <- Hd by done. apply IH.
    + by apply Hd.
  - revert s. induction order as [|n order IH]; intros s k Hnone; [done|].
    simpl. unfold after, bind.
    assert (deleteMap (deleteVisit n s).2 !! k = None) as Hstep.
    { destruct (decide (n = k)) as [->|Hne].
      - by rewrite (deleteVisit_None _ _ Hnone).
      - destruct (deleteVisit_deleteOnly n s) as [_ Hd]. unfold after in Hd.
        by rewrite Hd. }
    specialize (IH (deleteVisit n s).2 k Hstep). unfold after in IH.
    destruct (deleteVisit n s) as [[[]|] s1]; simpl in *; done.
Qed.

(** *** Failures before the workload loops and at the subnet manager *)

(** X8. When the subnet manager refuses the batch of a network in the add
    pass, the visit of the network ends with that call: the add map is as
    it was, so that every pending pod is tried again, and the visit has
    written no annotation to the cluster, released no GUID and withdrawn
    none. *)
Theorem add_pass_programming_failure (networkName : string)
    (pods : list PodRef) (ibCniSpec : IbSriovCniSpec) (s s1 s2 : State W)
    (acc : AddAcc) (pKey : Z) (e : error) (w : W) :
  addMap s !! networkName = Some (VPods pods) →
  Fetched networkName pods ibCniSpec s s1 →
  foldM (addPodStep networkName) pods emptyAddAcc s1 = (Done acc, s2) →
  smNeeded ibCniSpec (guidList acc) = true →
  ParsePKey (PKey ibCniSpec) = (pKey, None) →
  AddGuidsToPKey pKey (guidList acc) (world s2) = (Some e, w) →
  let s3 := setWorldCalls w
              (calls s2 ++ [EvAddGuidsToPKey pKey (guidList acc) (Some e)])
              s2 in
  addVisit networkName s = (Done tt, s3) ∧
  addMap s3 = addMap s ∧
  ∃ d, calls s3 = calls s ++ d ∧ forallb isProgramCall d = true.
Proof.
  intros Hentry Hfetched Hloop Hgate Hparse Hadd s3.
  pose proof (alloc_loop_quiet networkName pods emptyAddAcc s1)
    as (Hmap & _ & d & Hd & Hall).
  unfold after in Hmap, Hd. rewrite Hloop in Hmap, Hd. simpl in Hmap, Hd.
  split; [|split].
  - rewrite (addVisit_fetched _ _ _ _ _ Hentry Hfetched).
    unfold addPods, bind. rewrite Hloop. unfold addProgram.
    unfold smNeeded in Hgate. rewrite Hgate, Hparse.
    unfold bind, call. by rewrite Hadd.
  - subst s3. simpl. rewrite Hmap.
    by destruct (Fetched_quiet _ _ _ _ _ Hfetched) as ((-> & _) & _).
  - destruct Hfetched as [p0 ps pod0 nad w1 spec _ _ _ _ _ ->].
    subst s3. simpl in *. rewrite Hd, <- !app_assoc. eexists. split; [done|].
    simpl. rewrite forallb_app. simpl. rewrite andb_true_r.
    apply forallb_forall. intros ev Hev.
    rewrite forallb_forall in Hall. specialize (Hall ev Hev).
    by destruct ev.
Qed.

(** X9. A network whose attachment definition cannot be used is left to the
    next pass with all its pods, the fetch being the only call made: in both
    passes when the fetch fails, and in the delete pass also when the
    configuration is no JSON or no IB-SRIOV configuration. *)
Theorem visit_unusable_definition (networkName : string) (p0 : PodRef)
    (ps : list PodRef) (pod0 : Pod)
    (r : result NetworkAttachmentDefinition) (w1 : W) (s : State W) :
  heap s !! p0 = Some pod0 →
  GetNetworkAttachmentDefinition (Namespace pod0) networkName (world s)
    = (r, w1) →
  let s1 := setWorldCalls w1
              (calls s ++ [EvGetNetworkAttachmentDefinition (Namespace pod0)
                             networkName r]) s in
  (errorOf r ≠ None →
   addMap s !! networkName = Some (VPods (p0 :: ps)) →
   addVisit networkName s = (Done tt, s1)) ∧
  (errorOf r ≠ None ∨
   (∃ netAttInfo, r = Ok netAttInfo ∧
      errorOf (jsonUnmarshal (SpecConfig netAttInfo)) ≠ None) ∨
   (∃ netAttInfo networkSpec, r = Ok netAttInfo ∧
      jsonUnmarshal (SpecConfig netAttInfo) = Ok networkSpec ∧
      errorOf (GetIbSriovCniFromNetwork networkSpec) ≠ None) →
   deleteMap s !! networkName = Some (VPods (p0 :: ps)) →
   deleteVisit networkName s = (Done tt, s1)).
Proof.
  intros Hpod Hget s1. split.
  - intros Herr Hentry.
    unfold addVisit, addNetwork, derefPod, bind, gets, call. simpl.
    rewrite Hentry, Hpod. simpl. rewrite Hget.
    by destruct r.
  - intros Hcase Hentry.
    unfold deleteVisit, deleteNetwork, derefPod, bind, gets, call. simpl.
    rewrite Hentry, Hpod. simpl. rewrite Hget.
    destruct Hcase as [Herr|[(nad & -> & Herr)|(nad & spec & -> & Hs & Herr)]].
    + by destruct r.
    + by destruct (jsonUnmarshal (SpecConfig nad)).
    + rewrite Hs. by destruct (GetIbSriovCniFromNetwork spec).
Qed.

Lemma emits_preorder (Q : list Event → Prop) :
  Q [] → (∀ a b, Q a → Q b → Q (a ++ b)) → PreOrder (emits (W:=W) Q).
Proof.
  intros Hnil Happ. split.
  - intros s. exists []. by rewrite app_nil_r.
  - intros s1 s2 s3 (d1 & H1 & Q1) (d2 & H2 & Q2).
    exists (d1 ++ d2). split; [by rewrite H2, H1, app_assoc|by apply Happ].
Qed.

#[local] Instance emits_forallb_preorder P :
  PreOrder (emits (W:=W) (λ d, forallb P d = true)).
Proof.
  apply emits_preorder; [done|].
  intros a b Ha Hb. by rewrite forallb_app, Ha, Hb.
Qed.

Lemma respects_call_emits P {A} (op : W → A * W) (ev : A → Event) :
  (∀ r, P (ev r) = true) →
  respects (emits (λ d, forallb P d = true)) (call op ev).
Proof.
  intros Hev s. unfold after, call. destruct (op (world s)) as [r w].
  exists [ev r]. split; [done|]. simpl. by rewrite Hev.
Qed.

Lemma emits_unlogged (Q : list Event → Prop) s s' :
  Q [] → calls s' = calls s → emits Q s s'.
Proof. intros Hnil Hc. exists []. by rewrite app_nil_r. Qed.

Ltac unlogged :=
  apply emits_unlogged; [done|]; first [done | by destruct (heap _ !! _)].

Ltac emits_step :=
  first
    [ apply respects_ret; apply _
    | apply respects_panic; apply _
    | apply respects_gets; apply _
    | apply respects_derefPod; apply _
    | apply respects_call_emits; intros; reflexivity
    | apply respects_modify; intros ?; unlogged
    | apply respects_foldM; [apply _|intros ? ?]
    | apply respects_foldMi; [apply _|intros ? ? ?]
    | apply respects_bind; [apply _| |intros ?]
    | match goal with
      | |- respects _ (match ?x with _ => _ end) => destruct x
      | |- respects _ (if ?x then _ else _) => destruct x
      | |- respects _ (let (_, _) := ?x in _) => destruct x
      end ].

Lemma addPods_without_pkey networkName ibCniSpec pods :
  PKey ibCniSpec = "" →
  respects (emits (λ d, forallb notSMCall d = true))
    (addPods networkName ibCniSpec pods).
Proof.
  intros Hkey.
  unfold addPods, addProgram, addAnnotate, addWithdraw, addBookkeeping,
    addAnnotateStep, addCommit, addPodStep, addAllocate, podNetworks,
    setPodAnnotation, addMapUnSafeRemove, addMapUnSafeSet.
  rewrite Hkey. simpl.
  repeat emits_step.
Qed.

Lemma deletePods_without_pkey networkName ibCniSpec pods :
  PKey ibCniSpec = "" →
  respects (emits (λ d, forallb notSMCall d = true))
    (deletePods networkName ibCniSpec pods).
Proof.
  intros Hkey.
  unfold deletePods, deleteWithdraw, deleteRelease, deleteBookkeeping,
    deletePodStep, deleteReleaseStep, deleteMapUnSafeRemove,
    deleteMapUnSafeSet.
  rewrite Hkey. simpl.
  repeat emits_step.
Qed.

(** X10. A network whose IB-SRIOV configuration has no PKey never reaches
    the subnet manager: neither pass makes a call on it in the visit of the
    network. *)
Theorem visit_without_pkey (networkName : string) (pods : list PodRef)
    (ibCniSpec : IbSriovCniSpec) (s s1 : State W) :
  Fetched networkName pods ibCniSpec s s1 →
  PKey ibCniSpec = "" →
  (addMap s !! networkName = Some (VPods pods) →
   emits (λ d, forallb notSMCall d = true) s
     (after (addVisit networkName) s)) ∧
  (deleteMap s !! networkName = Some (VPods pods) →
   emits (λ d, forallb notSMCall d = true) s
     (after (deleteVisit networkName) s)).
Proof.
  intros Hfetched Hkey.
  assert (emits (λ d, forallb notSMCall d = true) s s1) as Hfetch.
  { destruct Hfetched as [p0 ps pod0 nad w1 spec _ _ _ _ _ ->].
    by eexists. }
  split; intros Hentry; unfold after.
  - rewrite (addVisit_fetched _ _ _ _ _ Hentry Hfetched).
    etransitivity; [done|].
    apply (addPods_without_pkey networkName ibCniSpec pods Hkey s1).
  - rewrite (deleteVisit_fetched _ _ _ _ _ Hentry Hfetched).
    etransitivity; [done|].
    apply (deletePods_without_pkey networkName ibCniSpec pods Hkey s1).
Qed.

(** *** The calls of the add pass on the subnet manager *)

Lemma withdrawalsProgrammed_nil : withdrawalsProgrammed [].
Proof. intros i pKey removed r Hlook. done. Qed.

Lemma withdrawalsProgrammed_app (a b : list Event) :
  withdrawalsProgrammed a → withdrawalsProgrammed b →
  withdrawalsProgrammed (a ++ b).
Proof.
  intros Ha Hb i pKey removed r Hlook.
  apply lookup_app_Some in Hlook as [Hlook|[Hlen Hlook]].
  - destruct (Ha _ _ _ _ Hlook) as (Hne & j & guids & Hj & Hadd & Hsub).
    split; [done|]. exists j, guids. repeat split; try done.
    by apply lookup_app_l_Some.
  - destruct (Hb _ _ _ _ Hlook) as (Hne & j & guids & Hj & Hadd & Hsub).
    split; [done|]. exists (length a + j), guids. repeat split; try done.
    + lia.
    + rewrite lookup_app_r by lia. by replace (length a + j - length a) with j by lia.
Qed.

Lemma withdrawalsProgrammed_none (P : Event → bool) (d : list Event) :
  (∀ e, P e = true → isWithdrawal e = false) →
  forallb P d = true → withdrawalsProgrammed d.
Proof.
  intros HP Hall i pKey removed r Hlook.
  rewrite forallb_forall in Hall.
  apply list_elem_of_lookup_2, list_elem_of_In, Hall, HP in Hlook. done.
Qed.

Lemma withdrawalsProgrammed_after (pKey : Z) (guids removed : list HardwareAddr)
    (d : list Event) (r : option error) :
  forallb isAnnotateCall d = true → sublist removed guids → removed ≠ [] →
  withdrawalsProgrammed
    (EvAddGuidsToPKey pKey guids None
       :: d ++ [EvRemoveGuidsFromPKey pKey removed r]).
Proof.
  intros Hall Hsub Hne i k rem r' Hlook.
  destruct i as [|i]; [done|]. simpl in Hlook.
  apply lookup_app_Some in Hlook as [Hlook|[Hlen Hlook]].
  - rewrite forallb_forall in Hall.
    by apply list_elem_of_lookup_2, list_elem_of_In, Hall in Hlook.
  - apply list_lookup_singleton_Some in Hlook as [_ [= <- <- <-]].
    split; [done|]. exists 0, guids. repeat split; [lia|done..].
Qed.

#[local] Instance emits_withdrawalsProgrammed_preorder :
  PreOrder (emits (W:=W) withdrawalsProgrammed).
Proof.
  apply emits_preorder;
    [apply withdrawalsProgrammed_nil|apply withdrawalsProgrammed_app].
Qed.

Lemma emits_quiet (Q : list Event → Prop) P s s' :
  (∀ d, forallb P d = true → Q d) → quiet P s s' → emits Q s s'.
Proof. intros HQ (_ & _ & d & Hd & Hall). exists d. auto. Qed.

(** The log of lines 265-310: calls of the annotation loop, then at most
    one withdrawal. *)
Lemma addAnnotate_log networkName ibCniSpec acc s :
  ∃ d tail,
    calls (after (addAnnotate networkName ibCniSpec acc) s)
      = calls s ++ d ++ tail ∧
    forallb isAnnotateCall d = true ∧
    (tail = [] ∨
     ∃ removed r,
       tail = [EvRemoveGuidsFromPKey (fst (ParsePKey (PKey ibCniSpec)))
                 removed r] ∧
       smNeeded ibCniSpec removed = true ∧ sublist removed (guidList acc)).
Proof.
  unfold after, addAnnotate, bind.
  pose proof (annotate_loop_quiet acc (passedPods acc) 0
                (mkUpdAcc (failedPods acc) []) s) as (_ & _ & d & Hd & Hall).
  unfold after in Hd.
  destruct (foldMi (addAnnotateStep acc) 0 (passedPods acc)
              (mkUpdAcc (failedPods acc) []) s) as [[u|] s1] eqn:Hloop;
    simpl in Hd.
  - apply annotate_loop_lists in Hloop as (_ & gs & _ & Hg & _ & Hsub & _).
    simpl in Hg, Hsub. rewrite drop_0 in Hsub. subst gs.
    unfold addWithdraw.
    destruct (negb (String.eqb (PKey ibCniSpec) "")
              && negb (length (removedGuidList u) =? 0)) eqn:Hgate.
    + unfold bind, call.
      destruct (RemoveGuidsFromPKey _ _ (world s1)) as [r w].
      exists d, [EvRemoveGuidsFromPKey (ParsePKey (PKey ibCniSpec)).1
                   (removedGuidList u) r].
      repeat split; try done.
      * destruct r; simpl; [|rewrite addBookkeeping_run; simpl];
          by rewrite Hd, <- app_assoc.
      * right. by exists (removedGuidList u), r.
    + exists d, []. rewrite addBookkeeping_run. simpl.
      rewrite app_nil_r. auto.
  - exists d, []. simpl. rewrite app_nil_r. auto.
Qed.

Lemma smNeeded_sublist ibCniSpec (removed guids : list HardwareAddr) :
  smNeeded ibCniSpec removed = true → sublist removed guids →
  smNeeded ibCniSpec guids = true ∧ removed ≠ [].
Proof.
  unfold smNeeded. intros Hgate Hsub.
  apply andb_true_iff in Hgate as [Hkey Hlen]. rewrite Hkey. simpl.
  apply sublist_length in Hsub.
  destruct removed; [done|]. destruct guids; [simpl in Hsub; lia|done].
Qed.

Lemma annotate_not_withdrawal e : isAnnotateCall e = true → isWithdrawal e = false.
Proof. by destruct e. Qed.

Lemma addProgram_withdrawals networkName ibCniSpec acc :
  respects (emits withdrawalsProgrammed)
    (addProgram networkName ibCniSpec acc).
Proof.
  intros s. unfold after, addProgram.
  destruct (negb (String.eqb (PKey ibCniSpec) "")
            && negb (length (guidList acc) =? 0)) eqn:Hgate.
  - destruct (ParsePKey (PKey ibCniSpec)) as [pKey [err|]] eqn:Hparse;
      [reflexivity|].
    unfold bind, call.
    destruct (AddGuidsToPKey pKey (guidList acc) (world s)) as [[e|] w];
      simpl.
    + eexists. split; [done|].
      by apply (withdrawalsProgrammed_none (λ e, negb (isWithdrawal e)));
        [intros ev; destruct ev|].
    + set (s1 := setWorldCalls w _ s).
      destruct (addAnnotate_log networkName ibCniSpec acc s1)
        as (d & tail & Hd & Hall & Htail).
      unfold after in Hd. subst s1. simpl in Hd.
      exists (EvAddGuidsToPKey pKey (guidList acc) None :: d ++ tail).
      split; [by rewrite Hd, <- app_assoc|].
      destruct Htail as [->|(removed & r & -> & Hneed & Hsub)].
      * rewrite app_nil_r.
        apply (withdrawalsProgrammed_none
                 (λ e, negb (isWithdrawal e))); [by intros ev; destruct ev|].
        simpl. apply forallb_forall. intros ev Hev.
        rewrite forallb_forall in Hall.
        by rewrite (annotate_not_withdrawal _ (Hall _ Hev)).
      * rewrite Hparse. simpl.
        apply withdrawalsProgrammed_after; try done.
        by destruct (smNeeded_sublist _ _ _ Hneed Hsub).
  - destruct (addAnnotate_log networkName ibCniSpec acc s)
      as (d & tail & Hd & Hall & Htail).
    unfold after in Hd.
    destruct Htail as [->|(removed & r & -> & Hneed & Hsub)].
    + exists d. rewrite app_nil_r in Hd. split; [done|].
      eapply withdrawalsProgrammed_none; [apply annotate_not_withdrawal|done].
    + destruct (smNeeded_sublist _ _ _ Hneed Hsub) as [Hopen _].
      unfold smNeeded in Hopen. congruence.
Qed.

Lemma respects_call_withdrawals {A} (op : W → A * W) (ev : A → Event) :
  (∀ r, isWithdrawal (ev r) = false) →
  respects (emits withdrawalsProgrammed) (call op ev).
Proof.
  intros Hev s. unfold after, call. destruct (op (world s)) as [r w].
  exists [ev r]. split; [done|].
  apply (withdrawalsProgrammed_none (λ e, negb (isWithdrawal e)));
    [by intros e; destruct e|].
  simpl. by rewrite Hev.
Qed.

Lemma addVisit_withdrawals networkName :
  respects (emits withdrawalsProgrammed) (addVisit networkName).
Proof.
  unfold addVisit, addNetwork, addPods, addMapUnSafeRemove.
  repeat first
    [ apply addProgram_withdrawals
    | match goal with
      | |- respects _ (foldM (addPodStep _) _ _) =>
          intros ?; eapply emits_quiet; [|apply alloc_loop_quiet];
          intros ?; apply withdrawalsProgrammed_none; by intros []
      end
    | apply respects_ret; apply _
    | apply respects_gets; apply _
    | apply respects_derefPod; apply _
    | apply respects_call_withdrawals; intros; reflexivity
    | apply respects_modify; intros ?; apply emits_unlogged;
      [apply withdrawalsProgrammed_nil|done]
    | apply respects_bind; [apply _| |intros ?]
    | match goal with
      | |- respects _ (match ?x with _ => _ end) => destruct x
      end ].
Qed.

(** X11. The add pass withdraws from a PKey only what it has programmed:
    in the log of a pass, whatever the order of the visits, every call of
    [RemoveGuidsFromPKey] comes after a call of [AddGuidsToPKey] of the
    pass that returned no error, for the same PKey value and for a batch
    that holds the withdrawn GUIDs in their order; and no withdrawal is
    empty.  So the PKey whose parse error line 298 drops was parsed without
    error at line 252. *)
Theorem add_pass_withdraws_programmed (order : list string) (s : State W) :
  emits withdrawalsProgrammed s (after (AddPeriodicUpdate order) s).
Proof.
  revert s. change (respects (W:=W) (emits withdrawalsProgrammed)
                      (AddPeriodicUpdate order)).
  unfold AddPeriodicUpdate.
  apply respects_bind; [apply _| |intros _].
  - apply respects_modify. intros s. apply emits_unlogged;
      [apply withdrawalsProgrammed_nil|done].
  - apply respects_foldM; [apply _|]. intros _ n. apply addVisit_withdrawals.
Qed.

(** *** What the add pass writes *)

#[local] Instance emits_configuredWrite_preorder :
  PreOrder (emits (W:=W) (Forall configuredWrite)).
Proof.
  apply emits_preorder; [by constructor|]. intros a b. apply Forall_app_2.
Qed.

Lemma addAnnotateStep_configured acc u index p :
  respects (emits (Forall configuredWrite)) (addAnnotateStep acc u index p).
Proof.
  intros s. unfold after, addAnnotateStep, derefPod, bind, gets. simpl.
  destruct (heap s !! p) as [pod|] eqn:Hpod; simpl; [|reflexivity].
  destruct (podNetworkMap acc !! PodUID pod) as [i|]; [|reflexivity].
  destruct (podNetworksMap s !! PodUID pod) as [networks|]; [|reflexivity].
  destruct (networks !! i) as [network|] eqn:Hnet; [|reflexivity].
  destruct (CNIArgs network) as [args|] eqn:Hargs; [|reflexivity]. simpl.
  unfold addCommit.
  destruct (jsonMarshal (<[i:=markConfigured network args]> networks))
    as [netAnnotations|e] eqn:Hmarshal;
    [|by apply emits_unlogged; [constructor|]].
  unfold setPodAnnotation, derefPod, bind, gets, modify, call. simpl.
  rewrite Hpod. simpl. rewrite lookup_insert_eq. simpl.
  set (pod' := mkPod _ _ _ _).
  assert (∀ r, configuredWrite
                 (EvSetAnnotationsOnPod pod'
                    (<[NetworkAttachmentAnnot:=netAnnotations]>
                       (Annotations pod)) r))
    as Hwrite.
  { intros r. split; [done|].
    exists (<[i:=markConfigured network args]> networks), i,
      (markConfigured network args),
      (<[InfiniBandAnnotation:=ConfiguredInfiniBandPod]> args),
      netAnnotations.
    repeat split; try done.
    - apply list_lookup_insert_eq. by eapply lookup_lt_Some.
    - by rewrite lookup_insert_eq.
    - by rewrite lookup_insert_eq. }
  destruct (SetAnnotationsOnPod pod' _ (world s)) as [[err|] w]; simpl.
  - destruct (isNotFound err); simpl.
    + destruct (guidList acc !! index) as [guidAddr|]; simpl.
      * unfold bind, call. simpl.
        destruct (ReleaseGUID (HardwareAddrString guidAddr) w) as [r w2].
        simpl. eexists [_; _]. split; [by rewrite <- app_assoc|].
        repeat (apply Forall_cons_2; [first [apply Hwrite|exact I]|]).
        apply Forall_nil_2.
      * eexists [_]. split; [done|].
        apply Forall_cons_2; [apply Hwrite|apply Forall_nil_2].
    + eexists [_]. split; [done|].
      apply Forall_cons_2; [apply Hwrite|apply Forall_nil_2].
  - eexists [_]. split; [done|].
    apply Forall_cons_2; [apply Hwrite|apply Forall_nil_2].
Qed.

Lemma respects_call_configured {A} (op : W → A * W) (ev : A → Event) :
  (∀ r, configuredWrite (ev r)) →
  respects (emits (Forall configuredWrite)) (call op ev).
Proof.
  intros Hev s. unfold after, call. destruct (op (world s)) as [r w].
  exists [ev r]. split; [done|].
  apply Forall_cons_2; [apply Hev|apply Forall_nil_2].
Qed.

(** X12. Whatever the add pass writes to the cluster carries the configured
    mark: in the log of a pass, every call of [SetAnnotationsOnPod] sends
    the annotations of the pod object it is given, and their network
    selection is the serialization of a slice of selection entries one of
    which has [mellanox.infiniband.app] set to [configured]. *)
Theorem add_pass_writes_configured (order : list string) (s : State W) :
  emits (Forall configuredWrite) s (after (AddPeriodicUpdate order) s).
Proof.
  revert s. change (respects (W:=W) (emits (Forall configuredWrite))
                      (AddPeriodicUpdate order)).
  unfold AddPeriodicUpdate, addVisit, addNetwork, addPods, addProgram,
    addAnnotate, addWithdraw, addBookkeeping, addPodStep, addAllocate,
    podNetworks, setPodAnnotation, addMapUnSafeRemove, addMapUnSafeSet.
  repeat first
    [ apply addAnnotateStep_configured
    | apply respects_ret; apply _
    | apply respects_panic; apply _
    | apply respects_gets; apply _
    | apply respects_derefPod; apply _
    | apply respects_call_configured; intros; exact I
    | apply respects_modify; intros ?; apply emits_unlogged;
      [by constructor|]; first [done | by destruct (heap _ !! _)]
    | apply respects_foldM; [apply _|intros ? ?]
    | apply respects_foldMi; [apply _|intros ? ? ?]
    | apply respects_bind; [apply _| |intros ?]
    | match goal with
      | |- respects _ (match ?x with _ => _ end) => destruct x
      | |- respects _ (if ?x then _ else _) => destruct x
      | |- respects _ (let (_, _) := ?x in _) => destruct x
      end ].
Qed.

(** *** What the add pass does to the pod objects *)

#[local] Instance sameIdentity_preorder : PreOrder (sameIdentity (W:=W)).
Proof.
  split.
  - intros s p. by destruct (heap s !! p).
  - intros s1 s2 s3 H12 H23 p. specialize (H12 p). specialize (H23 p).
    destruct (heap s1 !! p), (heap s2 !! p), (heap s3 !! p); try done.
    destruct H12 as (? & ? & ? & Ha), H23 as (? & ? & ? & Hb).
    repeat split; try congruence.
    intros key Hkey. rewrite Hb, Ha; done.
Qed.

Lemma sameIdentity_heap s s' : heap s' = heap s → sameIdentity s s'.
Proof. intros Hh p. rewrite Hh. by destruct (heap s !! p). Qed.

Lemma setPodAnnotation_identity p value :
  respects sameIdentity (setPodAnnotation (W:=W) p NetworkAttachmentAnnot value).
Proof.
  apply respects_modify. intros s q.
  destruct (heap s !! p) as [pod|] eqn:Hpod; simpl.
  - destruct (decide (q = p)) as [->|Hne].
    + rewrite Hpod, lookup_insert_eq. repeat split; try done.
      intros key Hkey. simpl. by rewrite lookup_insert_ne.
    + rewrite lookup_insert_ne by done. by destruct (heap s !! q).
  - by destruct (heap s !! q).
Qed.

(** X13. The add pass changes nothing of a pod object but its network
    selection annotation: after a pass the same pod objects exist, each with
    the UID, the namespace and the name it had, and with every annotation
    under another key than [k8s.v1.cni.cncf.io/networks] as it was. *)
Theorem add_pass_keeps_pod_identity (order : list string) (s : State W) :
  sameIdentity s (after (AddPeriodicUpdate order) s).
Proof.
  revert s. change (respects (W:=W) sameIdentity (AddPeriodicUpdate order)).
  unfold AddPeriodicUpdate, addVisit, addNetwork, addPods, addProgram,
    addAnnotate, addWithdraw, addBookkeeping, addAnnotateStep, addCommit,
    addPodStep, addAllocate, podNetworks, addMapUnSafeRemove,
    addMapUnSafeSet.
  repeat first
    [ apply setPodAnnotation_identity
    | apply respects_ret; apply _
    | apply respects_panic; apply _
    | apply respects_gets; apply _
    | apply respects_derefPod; apply _
    | apply respects_call; intros; by apply sameIdentity_heap
    | apply respects_modify; intros ?; by apply sameIdentity_heap
    | apply respects_foldM; [apply _|intros ? ?]
    | apply respects_foldMi; [apply _|intros ? ? ?]
    | apply respects_bind; [apply _| |intros ?]
    | match goal with
      | |- respects _ (match ?x with _ => _ end) => destruct x
      | |- respects _ (if ?x then _ else _) => destruct x
      | |- respects _ (let (_, _) := ?x in _) => destruct x
      end ].
Qed.

(** *** The GUIDs of the batches *)

Lemma addPodStep_identity networkName acc p :
  respects sameIdentity (addPodStep networkName acc p).
Proof.
  unfold addPodStep, addAllocate, podNetworks.
  repeat first
    [ apply setPodAnnotation_identity
    | apply respects_ret; apply _
    | apply respects_panic; apply _
    | apply respects_gets; apply _
    | apply respects_derefPod; apply _
    | apply respects_call; intros; by apply sameIdentity_heap
    | apply respects_modify; intros ?; by apply sameIdentity_heap
    | apply respects_bind; [apply _| |intros ?]
    | match goal with
      | |- respects _ (match ?x with _ => _ end) => destruct x
      | |- respects _ (let (_, _) := ?x in _) => destruct x
      end ].
Qed.

Lemma guidList_not_extended (l : list HardwareAddr) g : l ≠ l ++ [g].
Proof.
  intros Hl. apply (f_equal length) in Hl. rewrite length_app in Hl.
  simpl in Hl. lia.
Qed.

Lemma addPodStep_allocated networkName acc p s acc' s' :
  addPodStep networkName acc p s = (Done acc', s') →
  ∃ d, calls s' = calls s ++ d ∧
    ∀ g, guidList acc' = guidList acc ++ [g] →
      ∃ pod, heap s !! p = Some pod ∧
             allocatedFor networkName (PodUID pod) g d.
Proof.
  unfold addPodStep, derefPod, bind, gets. simpl.
  destruct (heap s !! p) as [pod|] eqn:Hpod; simpl; [|done].
  pose proof (quiet_noCall _ _ (stays_podNetworks noCall pod s)) as Hc0.
  unfold after in Hc0.
  destruct (podNetworks pod s) as [[parsed|] s0]; simpl in Hc0; [|done].
  assert (∀ acc0, guidList acc0 = guidList acc →
            ∃ d, calls s0 = calls s ++ d ∧
              ∀ g, guidList (addFailed p acc0) = guidList acc ++ [g] →
                ∃ pod, heap s !! p = Some pod ∧
                       allocatedFor networkName (PodUID pod) g d) as Hfail.
  { intros acc0 H0. exists []. rewrite app_nil_r. split; [done|].
    intros g Hg. simpl in Hg. rewrite H0 in Hg.
    by apply guidList_not_extended in Hg. }
  rewrite Hpod in Hfail.
  destruct parsed as [networks|?]; [|intros [= <- <-]; by apply Hfail].
  destruct (GetPodNetwork networks networkName) as [i|?];
    [|intros [= <- <-]; by apply Hfail].
  simpl. destruct (networks !! i) as [network|]; [|done].
  unfold addAllocate.
  destruct (GetPodNetworkGuid network) as [allocatedGuid|?].
  - unfold bind, call.
    destruct (AllocateGUID (PodUID pod) networkName allocatedGuid (world s0))
      as [[err|] w]; simpl.
    + intros [= <- <-]. simpl. rewrite Hc0. eexists. split; [done|].
      intros g Hg. by apply guidList_not_extended in Hg.
    + destruct (ParseMAC allocatedGuid) as [guidAddr|?] eqn:Hmac;
        intros [= <- <-]; simpl; rewrite Hc0; (eexists; split; [done|]);
        intros g Hg.
      * apply app_inv_head in Hg as [= <-].
        exists pod. split; [done|]. exists allocatedGuid.
        split; [apply list_elem_of_singleton; done|by left].
      * by apply guidList_not_extended in Hg.
  - unfold bind, call.
    destruct (GenerateGUID (world s0)) as [[guidAddr|?] w]; simpl.
    + destruct (AllocateGUID (PodUID pod) networkName
                  (HardwareAddrString guidAddr) w) as [[err|] w2]; simpl.
      * intros [= <- <-]. simpl. rewrite Hc0. eexists [_; _].
        split; [by rewrite <- app_assoc|].
        intros g Hg. by apply guidList_not_extended in Hg.
      * destruct (SetPodNetworkGuid network (HardwareAddrString guidAddr))
          as [network' [err|]]; simpl.
        -- intros [= <- <-]. simpl. rewrite Hc0. eexists [_; _].
           split; [by rewrite <- app_assoc|].
           intros g Hg. by apply guidList_not_extended in Hg.
        -- destruct (jsonMarshal (<[i:=network']> networks)) as [text|?];
             simpl.
           ++ unfold setPodAnnotation, bind, modify. simpl.
              intros [= <- <-]. simpl.
              assert (∀ (h : gmap PodRef Pod) (st : State W),
                        calls (match h !! p with
                               | Some pod1 =>
                                   setHeap (<[p:=mkPod (PodUID pod1)
                                                   (Namespace pod1)
                                                   (PodName pod1)
                                                   (<[NetworkAttachmentAnnot:=text]>
                                                      (Annotations pod1))]> h)
                                     st
                               | None => st
                               end) = calls st) as Hcalls.
              { intros h st. by destruct (h !! p). }
              rewrite Hcalls. simpl. rewrite Hc0. eexists [_; _].
              split; [by rewrite <- app_assoc|].
              intros g Hg. apply app_inv_head in Hg as [= <-].
              exists pod. split; [done|].
              exists (HardwareAddrString guidAddr).
              split; [|by right].
              rewrite !elem_of_cons. auto.
           ++ intros [= <- <-]. simpl. rewrite Hc0. eexists [_; _].
              split; [by rewrite <- app_assoc|].
              intros g Hg. by apply guidList_not_extended in Hg.
    + intros [= <- <-]. simpl. rewrite Hc0. eexists. split; [done|].
      intros g Hg. by apply guidList_not_extended in Hg.
Qed.

Lemma allocatedFor_app networkName uid g (d1 d2 : list Event) :
  allocatedFor networkName uid g d1 ∨ allocatedFor networkName uid g d2 →
  allocatedFor networkName uid g (d1 ++ d2).
Proof.
  intros [(a & Hin & Ha)|(a & Hin & Ha)]; exists a;
    (split; [|done]); rewrite elem_of_app; auto.
Qed.

Lemma alloc_loop_allocated networkName pods acc s acc' s' :
  foldM (addPodStep networkName) pods acc s = (Done acc', s') →
  ∃ d gs ps,
    calls s' = calls s ++ d ∧
    guidList acc' = guidList acc ++ gs ∧
    passedPods acc' = passedPods acc ++ ps ∧
    Forall2 (λ p g, ∃ pod, heap s !! p = Some pod ∧
                           allocatedFor networkName (PodUID pod) g d) ps gs.
Proof.
  revert acc s. induction pods as [|p pods IH]; intros acc s; simpl.
  - intros [= <- <-]. exists [], [], []. by rewrite !app_nil_r.
  - unfold bind.
    pose proof (addPodStep_identity networkName acc p s) as Hid.
    unfold after in Hid.
    destruct (addPodStep networkName acc p s) as [[acc1|] s1] eqn:Hstep;
      [|done].
    simpl in Hid. intros Hrest.
    apply IH in Hrest as (d2 & gs & ps & Hd2 & Hg & Hp & Hall).
    destruct (addPodStep_allocated _ _ _ _ _ _ Hstep) as (d1 & Hd1 & Hnew).
    assert (Forall2 (λ p0 g, ∃ pod, heap s !! p0 = Some pod ∧
                       allocatedFor networkName (PodUID pod) g (d1 ++ d2))
              ps gs) as Hall'.
    { eapply Forall2_impl; [done|]. intros q g (pod1 & Hq & Ha).
      specialize (Hid q). rewrite Hq in Hid.
      destruct (heap s !! q) as [pod|]; [|done].
      destruct Hid as (Huid & _). exists pod. split; [done|].
      apply allocatedFor_app. right. by rewrite <- Huid. }
    apply yields_addPodStep in Hstep as [Hg1 Hp1 Hf1|g Hg1 Hp1 Hf1].
    + exists (d1 ++ d2), gs, ps. rewrite Hd2, Hd1, Hg, Hp, Hg1, Hp1.
      by rewrite app_assoc.
    + exists (d1 ++ d2), (g :: gs), (p :: ps).
      rewrite Hd2, Hd1, Hg, Hp, Hg1, Hp1, <- !app_assoc.
      repeat split; try done.
      constructor; [|done].
      destruct (Hnew g Hg1) as (pod & Hpod & Ha).
      exists pod. split; [done|]. apply allocatedFor_app. by left.
Qed.

(** X14. The GUIDs of the batch of a network were all accepted by the pool
    in the allocation loop that built the batch: the GUID at an index is
    paired with the passed pod at that index, and the loop has called
    [AllocateGUID] with the UID of that pod, the network and the text of
    that GUID (the text the pod carried, which parses to the GUID, or the
    text of the generated GUID), and the call returned no error. *)
Theorem allocation_loop_guids_allocated (networkName : string)
    (pods : list PodRef) (s s' : State W) (acc : AddAcc) :
  foldM (addPodStep networkName) pods emptyAddAcc s = (Done acc, s') →
  ∃ d, calls s' = calls s ++ d ∧
    Forall2 (λ p g, ∃ pod, heap s !! p = Some pod ∧
                           allocatedFor networkName (PodUID pod) g d)
      (passedPods acc) (guidList acc).
Proof.
  intros Hloop.
  apply alloc_loop_allocated in Hloop as (d & gs & ps & Hd & Hg & Hp & Hall).
  simpl in Hg, Hp. subst gs ps. by exists d.
Qed.

Lemma Releasable_functional networkName h p g g' :
  Releasable networkName h p g → Releasable networkName h p g' → g = g'.
Proof. intros [] []. congruence. Qed.

Lemma Releasable_configured networkName h p g :
  Releasable networkName h p g → ¬ Unconfigured networkName h p.
Proof. intros [] []. congruence. Qed.

Lemma deletePodStep_cases networkName acc p s acc' s' :
  deletePodStep networkName acc p s = (Done acc', s') →
  (acc' = acc ∧ Unconfigured networkName (heap s) p) ∨
  (acc' = delFailed p acc ∧ ¬ Unconfigured networkName (heap s) p ∧
   ∀ g, ¬ Releasable networkName (heap s) p g) ∨
  (∃ g, acc' = mkDelAcc (delGuidList acc ++ [g]) (delFailedPods acc) ∧
        Releasable networkName (heap s) p g).
Proof.
  unfold deletePodStep, derefPod, bind, gets. simpl.
  destruct (heap s !! p) as [pod|] eqn:Hpod; simpl; [|done].
  destruct (ParsePodNetworkAnnotation pod) as [networks|e] eqn:Hparse.
  2:{ intros [= <- _]. right. left. split; [done|].
      split; [intros []|intros g []]; congruence. }
  destruct (GetPodNetwork networks networkName) as [i|e] eqn:Hnet.
  2:{ intros [= <- _]. right. left. split; [done|].
      split; [intros []|intros g []]; congruence. }
  destruct (networks !! i) as [network|] eqn:Hi; [|done].
  destruct (IsPodNetworkConfiguredWithInfiniBand network) eqn:Hconf; simpl.
  2:{ intros [= <- _]. left. split; [done|]. by econstructor. }
  destruct (GetPodNetworkGuid network) as [allocatedGuid|e] eqn:Hguid.
  2:{ intros [= <- _]. right. left. split; [done|].
      split; [intros []|intros g []]; congruence. }
  destruct (ParseMAC allocatedGuid) as [guidAddr|e] eqn:Hmac.
  2:{ intros [= <- _]. right. left. split; [done|].
      split; [intros []|intros g []]; congruence. }
  intros [= <- _]. right. right. exists guidAddr. split; [done|].
  by econstructor.
Qed.

Lemma delete_scan_cases networkName pods acc s acc' s' :
  foldM (deletePodStep networkName) pods acc s = (Done acc', s') →
  ∃ released gs fs,
    delGuidList acc' = delGuidList acc ++ gs ∧
    delFailedPods acc' = delFailedPods acc ++ fs ∧
    sublist released pods ∧
    Forall2 (Releasable networkName (heap s)) released gs ∧
    Forall (λ p, ¬ Unconfigured networkName (heap s) p ∧
                 ∀ g, ¬ Releasable networkName (heap s) p g) fs ∧
    ∀ p, p ∈ pods →
         Unconfigured networkName (heap s) p ∨ p ∈ fs ∨ p ∈ released.
Proof.
  revert acc. induction pods as [|p pods IH]; intros acc; simpl.
  - intros [= <- _]. exists [], [], []. rewrite !app_nil_r.
    repeat split; try done. intros p Hp. by apply elem_of_nil in Hp.
  - unfold bind.
    pose proof (deletePodStep_state networkName acc p s) as Hs1.
    unfold after in Hs1.
    destruct (deletePodStep networkName acc p s) as [[acc1|] s1] eqn:Hstep;
      [|done].
    simpl in Hs1. subst s1. intros Hrest.
    apply IH in Hrest as (released & gs & fs & Hg & Hf & Hsub & Hrel & Hfail
                          & Hall).
    apply deletePodStep_cases in Hstep
      as [[-> Hun]|[(-> & Hnu & Hnr)|(g & -> & Hr)]]; simpl in *.
    + exists released, gs, fs. repeat split; try done.
      * by apply sublist_cons.
      * intros q [->|Hq]%elem_of_cons; [by left|by apply Hall].
    + exists released, gs, (p :: fs). rewrite Hf, <- app_assoc.
      repeat split; try done.
      * by apply sublist_cons.
      * by constructor.
      * intros q [->|Hq]%elem_of_cons.
        -- right. left. by left.
        -- destruct (Hall q Hq) as [?|[?|?]]; auto.
           right. left. by right.
    + exists (p :: released), (g :: gs), fs. rewrite Hg, <- app_assoc.
      repeat split; try done.
      * by apply sublist_skip.
      * by constructor.
      * intros q [->|Hq]%elem_of_cons.
        -- right. right. by left.
        -- destruct (Hall q Hq) as [?|[?|?]]; auto.
           right. right. by right.
Qed.

(** X15. The scan of the delete pass sorts the pending pods of a network in
    three: pods whose selection entry for the network is not marked as
    configured are dropped; pods whose entry is marked and carries a GUID
    that parses give that GUID to the GUID list, in the order of the pods;
    every other pod is a failed pod. *)
Theorem delete_scan_outcome (networkName : string) (pods : list PodRef)
    (s s' : State W) (acc : DelAcc) :
  foldM (deletePodStep networkName) pods (mkDelAcc [] []) s = (Done acc, s') →
  ∃ released,
    sublist released pods ∧
    Forall2 (Releasable networkName (heap s)) released (delGuidList acc) ∧
    Forall (λ p, ¬ Unconfigured networkName (heap s) p ∧
                 ∀ g, ¬ Releasable networkName (heap s) p g)
      (delFailedPods acc) ∧
    ∀ p, p ∈ pods →
         Unconfigured networkName (heap s) p ∨ p ∈ delFailedPods acc ∨
         p ∈ released.
Proof.
  intros Hscan.
  apply delete_scan_cases in Hscan
    as (released & gs & fs & Hg & Hf & Hsub & Hrel & Hfail & Hall).
  simpl in Hg, Hf. subst gs fs. by exists released.
Qed.

Lemma release_loop_log guids s :
  ∃ d, calls (after (foldM deleteReleaseStep guids tt) s) = calls s ++ d ∧
       omap releasedGuid d = HardwareAddrString <$> guids ∧
       length d = length guids.
Proof.
  revert s. induction guids as [|g guids IH]; intros s.
  - exists []. by rewrite app_nil_r.
  - simpl. unfold after, bind.
    destruct (deleteReleaseStep () g s) as [res s1] eqn:Hstep.
    unfold deleteReleaseStep, bind, call in Hstep.
    destruct (ReleaseGUID (HardwareAddrString g) (world s)) as [r w].
    simpl in Hstep. injection Hstep as <- <-.
    destruct (IH (setWorldCalls w
                    (calls s ++ [EvReleaseGUID (HardwareAddrString g) r]) s))
      as (d & Hd & Hguids & Hlen).
    unfold after in Hd.
    exists (EvReleaseGUID (HardwareAddrString g) r :: d).
    rewrite Hd. simpl. rewrite <- app_assoc. repeat split; [|by rewrite Hlen].
    change (omap releasedGuid (EvReleaseGUID (HardwareAddrString g) r :: d))
      with (HardwareAddrString g :: omap releasedGuid d).
    f_equal. exact Hguids.
Qed.

(** X16. An error of [ReleaseGUID] changes nothing to the end of a visit of
    the delete pass: lines 414-424 call [ReleaseGUID] once for each GUID of
    the list, in the order of the list and whatever the calls return, make
    no other call, and then remove the entry of the network or set it to the
    failed pods. *)
Theorem delete_release_ignores_errors (networkName : string) (acc : DelAcc)
    (s : State W) :
  let s' := after (deleteRelease networkName acc) s in
  outcome (deleteRelease networkName acc) s = Done tt ∧
  deleteMap s' = bookkept networkName (delFailedPods acc) (deleteMap s) ∧
  ∃ d, calls s' = calls s ++ d ∧
       omap releasedGuid d = HardwareAddrString <$> delGuidList acc ∧
       length d = length (delGuidList acc).
Proof.
  intros s'. subst s'. unfold outcome, after, deleteRelease, bind.
  rewrite release_loop_done, deleteBookkeeping_run. simpl.
  destruct (release_loop_quiet (delGuidList acc) s) as (_ & Hmap & _).
  rewrite Hmap. repeat split. apply release_loop_log.
Qed.

(** *** The test for a pod that is gone *)

Lemma append_cons (c : ascii) (a b : string) :
  String c a +:+ b = String c (a +:+ b).
Proof. reflexivity. Qed.

Lemma append_empty (b : string) : "" +:+ b = b.
Proof. reflexivity. Qed.

Lemma prefix_append (a s : string) :
  String.prefix a s = true ↔ ∃ post, s = a +:+ post.
Proof.
  revert s. induction a as [|c a IH]; intros s.
  - split; [intros _; by exists s|intros _; by destruct s].
  - destruct s as [|c' s]; simpl; [split; [done|by intros [post ?]]|].
    destruct (Ascii.ascii_dec c c') as [->|Hne].
    + rewrite IH. split; intros [post Hpost]; exists post;
        rewrite append_cons in *; congruence.
    + split; [done|]. intros [post Hpost]. rewrite append_cons in Hpost.
      congruence.
Qed.

Lemma Contains_cons (c : ascii) (s sub : string) :
  Contains (String c s) sub
  = if String.prefix sub (String c s) then true else Contains s sub.
Proof. reflexivity. Qed.

Lemma Contains_append (s sub : string) :
  Contains s sub = true ↔ ∃ pre post, s = pre +:+ sub +:+ post.
Proof.
  split.
  - induction s as [|c s IH].
    + destruct sub as [|c sub]; [|done]. intros _. by exists "", "".
    + rewrite Contains_cons.
      destruct (String.prefix sub (String c s)) eqn:Hp.
      * intros _. apply prefix_append in Hp as [post Hpost].
        by exists "", post.
      * intros (pre & post & ->)%IH. by exists (String c pre), post.
  - intros (pre & post & ->).
    induction pre as [|c pre IH].
    + rewrite append_empty.
      assert (String.prefix sub (sub +:+ post) = true) as Hp
        by (apply prefix_append; by exists post).
      destruct (sub +:+ post) as [|c rest].
      * by destruct sub.
      * by rewrite Contains_cons, Hp.
    + rewrite append_cons, Contains_cons, IH.
      by destruct (String.prefix sub (String c (pre +:+ sub +:+ post))).
Qed.

Lemma ToLower_append (a b : string) :
  ToLower (a +:+ b) = ToLower a +:+ ToLower b.
Proof.
  induction a as [|c a IH]; [done|].
  rewrite append_cons. simpl. by rewrite IH.
Qed.

Lemma ToLower_split (s a b : string) :
  ToLower s = a +:+ b →
  ∃ a' b', s = a' +:+ b' ∧ ToLower a' = a ∧ ToLower b' = b.
Proof.
  revert s. induction a as [|c a IH]; intros s.
  - intros Hs. by exists "", s.
  - rewrite append_cons. destruct s as [|c' s]; simpl; [done|].
    intros [= Hc (a' & b' & -> & Ha & Hb)%IH].
    exists (String c' a'), b'. simpl. by rewrite Hc, Ha.
Qed.

(** X17. The test of line 281 for a pod that is gone holds for exactly the
    error messages in which the words [not found] occur somewhere, in any
    mix of upper and lower case letters. *)
Theorem isNotFound_anywhere_any_case (err : error) :
  isNotFound err = true ↔
  ∃ pre mid post, err = pre +:+ mid +:+ post ∧ ToLower mid = "not found".
Proof.
  unfold isNotFound. rewrite Contains_append. split.
  - intros (pre & post & (pre' & rest & -> & Hpre & Hrest)%ToLower_split).
    apply ToLower_split in Hrest as (mid & post' & -> & Hmid & Hpost).
    by exists pre', mid, post'.
  - intros (pre & mid & post & -> & Hmid).
    exists (ToLower pre), (ToLower post).
    by rewrite !ToLower_append, Hmid.
Qed.

(** *** The GUIDs the add pass gives back *)

Lemma releasesOf_app guids (a b : list Event) :
  releasesOf guids a → releasesOf guids b → releasesOf guids (a ++ b).
Proof.
  intros Ha Hb guid r [Hin|Hin]%elem_of_app; [by apply (Ha _ r)|by apply (Hb _ r)].
Qed.

Lemma releasesOf_none guids (P : Event → bool) (d : list Event) :
  (∀ e, P e = true → isRelease e = false) →
  forallb P d = true → releasesOf guids d.
Proof.
  intros HP Hall guid r Hin. rewrite forallb_forall in Hall.
  by apply list_elem_of_In, Hall, HP in Hin.
Qed.

#[local] Instance emits_releasesOf_preorder guids :
  PreOrder (emits (W:=W) (releasesOf guids)).
Proof.
  apply emits_preorder; [|apply releasesOf_app].
  intros guid r Hin. by apply elem_of_nil in Hin.
Qed.

Lemma addAnnotateStep_releasesOf acc u index p :
  respects (emits (releasesOf (guidList acc))) (addAnnotateStep acc u index p).
Proof.
  intros s.
  destruct (stays_annotate_releases acc u index p s) as (_ & _ & d & Hd & Hall).
  exists d. split; [done|]. intros guid r Hin.
  rewrite forallb_forall in Hall. apply list_elem_of_In, Hall in Hin.
  simpl in Hin. apply bool_decide_eq_true in Hin.
  destruct (guidList acc !! index) as [g|] eqn:Hg; simpl in Hin; [|done].
  injection Hin as <-. exists g. split; [by eapply list_elem_of_lookup_2|done].
Qed.

Lemma respects_call_releasesOf guids {A} (op : W → A * W) (ev : A → Event) :
  (∀ r, isRelease (ev r) = false) →
  respects (emits (releasesOf guids)) (call op ev).
Proof.
  intros Hev s. unfold after, call. destruct (op (world s)) as [r w].
  exists [ev r]. split; [done|].
  apply (releasesOf_none guids (λ e, negb (isRelease e)));
    [by intros e; destruct e|].
  simpl. by rewrite Hev.
Qed.

Lemma addProgram_releasesOf networkName ibCniSpec acc :
  respects (emits (releasesOf (guidList acc)))
    (addProgram networkName ibCniSpec acc).
Proof.
  unfold addProgram, addAnnotate, addWithdraw, addBookkeeping,
    addMapUnSafeRemove, addMapUnSafeSet.
  repeat first
    [ apply addAnnotateStep_releasesOf
    | apply respects_ret; apply _
    | apply respects_call_releasesOf; intros; reflexivity
    | apply respects_modify; intros ?; apply emits_unlogged;
      [intros ? ? Hin; by apply elem_of_nil in Hin|done]
    | apply respects_foldMi; [apply _|intros ? ? ?]
    | apply respects_bind; [apply _| |intros ?]
    | match goal with
      | |- respects _ (match ?x with _ => _ end) => destruct x
      | |- respects _ (if ?x then _ else _) => destruct x
      | |- respects _ (let (_, _) := ?x in _) => destruct x
      end ].
Qed.

Lemma releasesAllocated_nil : releasesAllocated [].
Proof. intros i guid r Hlook. done. Qed.

Lemma releasesAllocated_app (a b : list Event) :
  releasesAllocated a → releasesAllocated b → releasesAllocated (a ++ b).
Proof.
  intros Ha Hb i guid r Hlook.
  apply lookup_app_Some in Hlook as [Hlook|[Hlen Hlook]].
  - destruct (Ha _ _ _ Hlook) as (j & uid & n & str & g & Hj & Hlk & Hor & Hg).
    exists j, uid, n, str, g. repeat split; try done.
    by apply lookup_app_l_Some.
  - destruct (Hb _ _ _ Hlook) as (j & uid & n & str & g & Hj & Hlk & Hor & Hg).
    exists (length a + j), uid, n, str, g. repeat split; try done.
    + lia.
    + rewrite lookup_app_r by lia.
      by replace (length a + j - length a) with j by lia.
Qed.

Lemma releasesAllocated_none (P : Event → bool) (d : list Event) :
  (∀ e, P e = true → isRelease e = false) →
  forallb P d = true → releasesAllocated d.
Proof.
  intros HP Hall i guid r Hlook. rewrite forallb_forall in Hall.
  by apply list_elem_of_lookup_2, list_elem_of_In, Hall, HP in Hlook.
Qed.

#[local] Instance emits_releasesAllocated_preorder :
  PreOrder (emits (W:=W) releasesAllocated).
Proof.
  apply emits_preorder; [apply releasesAllocated_nil|apply releasesAllocated_app].
Qed.

Lemma alloc_not_release e : isAllocCall e = true → isRelease e = false.
Proof. by destruct e. Qed.

Lemma addPods_releasesAllocated networkName ibCniSpec pods :
  respects (emits releasesAllocated) (addPods networkName ibCniSpec pods).
Proof.
  intros s. unfold after, addPods, bind.
  pose proof (alloc_loop_quiet networkName pods emptyAddAcc s)
    as (_ & _ & d1 & Hd1 & Hall1).
  unfold after in Hd1.
  destruct (foldM (addPodStep networkName) pods emptyAddAcc s)
    as [[acc|] s2] eqn:Hloop; simpl in Hd1.
  - destruct (alloc_loop_allocated _ _ _ _ _ _ Hloop)
      as (d1' & gs & ps & Hd1' & Hg & Hp & Hall).
    simpl in Hg, Hp. rewrite Hd1 in Hd1'. apply app_inv_head in Hd1' as <-.
    destruct (addProgram_releasesOf networkName ibCniSpec acc s2)
      as (d2 & Hd2 & Hrel).
    unfold after in Hd2.
    exists (d1 ++ d2). split; [by rewrite Hd2, Hd1, app_assoc|].
    intros i guid r Hlook.
    apply lookup_app_Some in Hlook as [Hlook|[Hlen Hlook]].
    + rewrite forallb_forall in Hall1.
      by apply list_elem_of_lookup_2, list_elem_of_In, Hall1, alloc_not_release
        in Hlook.
    + destruct (Hrel guid r (list_elem_of_lookup_2 _ _ _ Hlook))
        as (g & Hin & ->).
      rewrite Hg in Hin. apply list_elem_of_lookup_1 in Hin as [k Hk].
      destruct (Forall2_lookup_r _ _ _ _ _ Hall Hk)
        as (p & _ & pod & _ & str & Hstr & Hor).
      apply list_elem_of_lookup_1 in Hstr as [j Hj].
      exists j, (PodUID pod), networkName, str, g.
      repeat split; try done.
      * apply lookup_lt_Some in Hj. lia.
      * by apply lookup_app_l_Some.
  - exists d1. split; [done|].
    eapply releasesAllocated_none; [apply alloc_not_release|done].
Qed.

Lemma respects_call_releasesAllocated {A} (op : W → A * W) (ev : A → Event) :
  (∀ r, isRelease (ev r) = false) →
  respects (emits releasesAllocated) (call op ev).
Proof.
  intros Hev s. unfold after, call. destruct (op (world s)) as [r w].
  exists [ev r]. split; [done|].
  apply (releasesAllocated_none (λ e, negb (isRelease e)));
    [by intros e; destruct e|].
  simpl. by rewrite Hev.
Qed.

Lemma addVisit_releasesAllocated networkName :
  respects (emits releasesAllocated) (addVisit networkName).
Proof.
  unfold addVisit, addNetwork, addMapUnSafeRemove.
  repeat first
    [ apply addPods_releasesAllocated
    | apply respects_ret; apply _
    | apply respects_gets; apply _
    | apply respects_derefPod; apply _
    | apply respects_call_releasesAllocated; intros; reflexivity
    | apply respects_modify; intros ?; apply emits_unlogged;
      [apply releasesAllocated_nil|done]
    | apply respects_bind; [apply _| |intros ?]
    | match goal with
      | |- respects _ (match ?x with _ => _ end) => destruct x
      end ].
Qed.

(** X18. The add pass gives back to the pool only what the pool gave it in
    the same pass: in the log of a pass, whatever the order of the visits,
    every call of [ReleaseGUID] releases the text of a GUID for which an
    earlier call of [AllocateGUID] of the pass returned no error, that call
    having been made with a text that parses to the GUID or with the text of
    the GUID. *)
Theorem add_pass_releases_allocated (order : list string) (s : State W) :
  emits releasesAllocated s (after (AddPeriodicUpdate order) s).
Proof.
  revert s. change (respects (W:=W) (emits releasesAllocated)
                      (AddPeriodicUpdate order)).
  unfold AddPeriodicUpdate.
  apply respects_bind; [apply _| |intros _].
  - apply respects_modify. intros s. apply emits_unlogged;
      [apply releasesAllocated_nil|done].
  - apply respects_foldM; [apply _|]. intros _ n.
    apply addVisit_releasesAllocated.
Qed.

(** *** The GUIDs the delete pass takes away *)

Lemma touchesPending_nil h m : touchesPending h m [].
Proof. intros e Hin. by apply elem_of_nil in Hin. Qed.

Lemma touchesPending_app h m (a b : list Event) :
  touchesPending h m a → touchesPending h m b → touchesPending h m (a ++ b).
Proof.
  intros Ha Hb e [Hin|Hin]%elem_of_app; [by apply Ha|by apply Hb].
Qed.

#[local] Instance emits_touchesPending_preorder h m :
  PreOrder (emits (W:=W) (touchesPending h m)).
Proof.
  apply emits_preorder; [apply touchesPending_nil|apply touchesPending_app].
Qed.

Lemma shrunk_refl (m : gmap string Value) : shrunk m m.
Proof. intros n l Hl. by exists l. Qed.

Lemma shrunk_trans (a b c : gmap string Value) :
  shrunk a b → shrunk b c → shrunk a c.
Proof.
  intros Hab Hbc n l Hl.
  destruct (Hbc n l Hl) as (l1 & Hl1 & Hsub1).
  destruct (Hab n l1 Hl1) as (l0 & Hl0 & Hsub0).
  exists l0. split; [done|]. by etransitivity.
Qed.

Lemma pendingGuid_shrunk h (m m' : gmap string Value) g :
  shrunk m m' → pendingGuid h m' g → pendingGuid h m g.
Proof.
  intros Hm (n & pods & p & Hn & Hp & Hr).
  destruct (Hm n pods Hn) as (pods0 & Hn0 & Hsub).
  exists n, pods0, p. repeat split; [done| |done].
  by eapply elem_of_sublist.
Qed.

Lemma touchesPending_shrunk h (m m' : gmap string Value) d :
  shrunk m m' → touchesPending h m' d → touchesPending h m d.
Proof.
  intros Hm Hd e Hin. specialize (Hd e Hin). destruct e; try done.
  - destruct Hd as (g & Hg & ->). exists g. split; [|done].
    by eapply pendingGuid_shrunk.
  - eapply Forall_impl; [done|]. intros g. by apply pendingGuid_shrunk.
Qed.

Lemma deleteRelease_touches h m networkName acc s :
  Forall (pendingGuid h m) (delGuidList acc) →
  emits (touchesPending h m) s (after (deleteRelease networkName acc) s).
Proof.
  intros Hall. unfold after, deleteRelease, bind.
  rewrite release_loop_done, deleteBookkeeping_run. simpl.
  destruct (release_loop_log (delGuidList acc) s) as (d & Hd & Hguids & _).
  destruct (release_loop_quiet (delGuidList acc) s) as (_ & _ & d' & Hd' & Hrel).
  rewrite Hd in Hd'. apply app_inv_head in Hd' as <-.
  exists d. split; [done|]. intros e Hin.
  rewrite forallb_forall in Hrel.
  pose proof (Hrel e (proj1 (list_elem_of_In _ _) Hin)) as He.
  destruct e as [| | | |guid r| |]; try done.
  assert (guid ∈ omap releasedGuid d) as Hguid
    by (apply list_elem_of_omap; by eexists).
  rewrite Hguids in Hguid. apply list_elem_of_fmap in Hguid as (g & -> & Hg).
  exists g. split; [|done]. rewrite Forall_forall in Hall. by apply Hall.
Qed.

Lemma deleteWithdraw_touches h m networkName ibCniSpec acc s :
  Forall (pendingGuid h m) (delGuidList acc) →
  emits (touchesPending h m) s
    (after (deleteWithdraw networkName ibCniSpec acc) s).
Proof.
  intros Hall. unfold after, deleteWithdraw.
  destruct (negb (String.eqb (PKey ibCniSpec) "")
            && negb (length (delGuidList acc) =? 0));
    [|by apply deleteRelease_touches].
  destruct (ParsePKey (PKey ibCniSpec)) as [pKey [err|]]; [reflexivity|].
  unfold bind, call.
  destruct (RemoveGuidsFromPKey pKey (delGuidList acc) (world s)) as [r w].
  set (s1 := setWorldCalls w _ s).
  assert (emits (touchesPending h m) s s1) as Hcall.
  { eexists [_]. split; [done|]. intros e ->%list_elem_of_singleton. done. }
  destruct r as [e|]; simpl; [done|].
  etransitivity; [done|]. by apply deleteRelease_touches.
Qed.

Lemma Forall2_pending networkName h (m : gmap string Value) pods released gs :
  m !! networkName = Some (VPods pods) →
  sublist released pods →
  Forall2 (Releasable networkName h) released gs →
  Forall (pendingGuid h m) gs.
Proof.
  intros Hentry Hsub Hall. apply Forall_forall. intros g Hg.
  apply list_elem_of_lookup_1 in Hg as [k Hk].
  destruct (Forall2_lookup_r _ _ _ _ _ Hall Hk) as (p & Hp & Hr).
  exists networkName, pods, p. repeat split; [done| |done].
  eapply elem_of_sublist; [|done]. by eapply list_elem_of_lookup_2.
Qed.

Lemma deleteVisit_touches networkName s :
  emits (touchesPending (heap s) (deleteMap s)) s
    (after (deleteVisit networkName) s).
Proof.
  unfold after, deleteVisit, bind, gets. simpl.
  destruct (deleteMap s !! networkName) as [[pods|descr]|] eqn:Hentry;
    [|reflexivity..].
  unfold deleteNetwork. destruct pods as [|p0 ps]; [reflexivity|].
  unfold derefPod, bind, gets, call. simpl.
  destruct (heap s !! p0) as [pod0|]; simpl; [|reflexivity].
  destruct (GetNetworkAttachmentDefinition (Namespace pod0) networkName
              (world s)) as [r w1].
  set (s1 := setWorldCalls w1 _ s).
  assert (emits (touchesPending (heap s) (deleteMap s)) s s1) as Hfetch.
  { eexists [_]. split; [done|]. intros e ->%list_elem_of_singleton. done. }
  destruct r as [nad|e]; simpl; [|done].
  destruct (jsonUnmarshal (SpecConfig nad)) as [spec|e]; [|done].
  destruct (GetIbSriovCniFromNetwork spec) as [ib|e]; [|done].
  etransitivity; [done|].
  unfold deletePods, bind.
  pose proof (delete_scan_state networkName (p0 :: ps) (mkDelAcc [] []) s1)
    as Hs2.
  unfold after in Hs2.
  destruct (foldM (deletePodStep networkName) (p0 :: ps) (mkDelAcc [] []) s1)
    as [[acc|] s2] eqn:Hscan; simpl in Hs2; subst s2; [|reflexivity].
  apply delete_scan_cases in Hscan
    as (released & gs & fs & Hg & _ & Hsub & Hrel & _).
  simpl in Hg. subst gs.
  apply deleteWithdraw_touches.
  by eapply (Forall2_pending networkName).
Qed.

Lemma deleteVisit_shrunk networkName s :
  shrunk (deleteMap s) (deleteMap (after (deleteVisit networkName) s)).
Proof.
  intros n l Hl. destruct (decide (n = networkName)) as [->|Hne].
  - destruct (deleteMap s !! networkName) as [[pods|descr]|] eqn:Hentry.
    + pose proof (deleteVisit_subsequence networkName pods s Hentry) as Hsub.
      rewrite Hl in Hsub. by exists pods.
    + unfold after in Hl.
      rewrite (deleteVisit_inert networkName (VOther descr) s) in Hl by done.
      simpl in Hl. congruence.
    + unfold after in Hl. rewrite (deleteVisit_None _ _ Hentry) in Hl.
      simpl in Hl. congruence.
  - destruct (deleteVisit_deleteOnly networkName s) as [_ Hd].
    rewrite Hd in Hl by done. by exists l.
Qed.

Lemma deleteVisits_touches order h m s :
  heap s = h → shrunk m (deleteMap s) →
  emits (touchesPending h m) s
    (after (foldM (λ _ n, deleteVisit n) order tt) s).
Proof.
  revert s. induction order as [|n order IH]; intros s Hh Hm; [reflexivity|].
  simpl. unfold after, bind.
  pose proof (deleteVisit_touches n s) as Hstep.
  pose proof (deleteVisit_shrunk n s) as Hshrunk.
  destruct (deleteVisit_deleteFrame n s) as (_ & Hheap & _).
  unfold after in Hstep, Hshrunk, Hheap.
  assert (emits (touchesPending h m) s (deleteVisit n s).2) as Hstep'.
  { destruct Hstep as (d & Hd & Ht). exists d. split; [done|].
    rewrite Hh in Ht. by eapply touchesPending_shrunk. }
  destruct (deleteVisit n s) as [[[]|] s1]; simpl in *; [|done].
  etransitivity; [done|]. apply IH; [congruence|].
  by eapply shrunk_trans.
Qed.

(** X19. The delete pass takes away only GUIDs of pods that were pending
    for deletion when the pass began: in the log of a pass, whatever the
    order of the visits, every GUID of a batch given to
    [RemoveGuidsFromPKey] and every GUID whose text is given to
    [ReleaseGUID] is the GUID that parses from the selection entry, marked
    as configured, of a pod of the delete map for the network the pod is
    pending for. *)
Theorem delete_pass_touches_pending (order : list string) (s : State W) :
  emits (touchesPending (heap s) (deleteMap s)) s
    (after (DeletePeriodicUpdate order) s).
Proof.
  unfold DeletePeriodicUpdate.
  apply deleteVisits_touches; [done|apply shrunk_refl].
Qed.

(** *** A pod that fails after its GUID was allocated *)

Lemma podNetworks_selected networkName p pod networks i network s :
  Selected networkName p pod networks i network s →
  podNetworks pod s
  = (Done (Ok networks),
     setPodNetworksMap (<[PodUID pod := networks]> (podNetworksMap s)) s).
Proof.
  intros [_ [Hhit|[Hmiss Hparse]] _ _]; unfold podNetworks, bind, gets; simpl.
  - rewrite Hhit. unfold ret. f_equal. destruct s. unfold setPodNetworksMap.
    simpl in *. by rewrite insert_id.
  - by rewrite Hmiss, Hparse.
Qed.

Lemma addPodStep_selected networkName acc p pod networks i network s :
  Selected networkName p pod networks i network s →
  addPodStep networkName acc p s
  = addAllocate networkName p pod networks i network
      (addNetworkOf (PodUID pod) i acc)
      (setPodNetworksMap (<[PodUID pod := networks]> (podNetworksMap s)) s).
Proof.
  intros Hsel. pose proof (podNetworks_selected _ _ _ _ _ _ _ Hsel) as Hnets.
  destruct Hsel as [Hpod _ Hnet Hi].
  unfold addPodStep, derefPod, bind, gets. simpl. rewrite Hpod. simpl.
  rewrite Hnets. simpl. by rewrite Hnet, Hi.
Qed.



Lemma releasesPassed_app acc (a b : list Event) :
  releasesPassed acc a → releasesPassed acc b → releasesPassed acc (a ++ b).
Proof.
  intros Ha Hb guid r [Hin|Hin]%elem_of_app;
    [by apply (Ha _ r)|by apply (Hb _ r)].
Qed.


#[local] Instance emits_releasesPassed_preorder acc :
  PreOrder (emits (W:=W) (releasesPassed acc)).
Proof.
  apply emits_preorder; [|apply releasesPassed_app].
  intros guid r Hin. by apply elem_of_nil in Hin.
Qed.






(** *** A pod that brings its own GUID *)

Lemma foldM_app {A B} (f : B → A → M W B) (l1 l2 : list A) (b : B) s :
  foldM f (l1 ++ l2) b s = (do b' <- foldM f l1 b; foldM f l2 b') s.
Proof.
  revert b s. induction l1 as [|a l1 IH]; intros b s; [done|].
  simpl. unfold bind. destruct (f b a s) as [[b1|] s1]; [|done].
  apply IH.
Qed.

#[local] Instance preserves_preorder (G : State W → Prop) :
  PreOrder (preserves G).
Proof.
  split; [intros s Hs; exact Hs|].
  intros s1 s2 s3 H12 H23 H1. apply H23, H12, H1.
Qed.

#[local] Instance untouched_preorder p uid : PreOrder (untouched (W:=W) p uid).
Proof.
  split; [intros s; split; reflexivity|].
  intros s1 s2 s3 [Ha1 Ha2] [Hb1 Hb2]. split; congruence.
Qed.

Lemma addPodStep_user_guid networkName acc p pod networks i network guid s :
  Selected networkName p pod networks i network s →
  GetPodNetworkGuid network = Ok guid →
  addPodStep networkName acc p s
  = (Done
       match (AllocateGUID (PodUID pod) networkName guid (world s)).1,
             ParseMAC guid with
       | None, Ok guidAddr =>
           addPassed p guidAddr (addNetworkOf (PodUID pod) i acc)
       | _, _ => addFailed p (addNetworkOf (PodUID pod) i acc)
       end,
     mkState (AllocateGUID (PodUID pod) networkName guid (world s)).2
       (calls s
        ++ [EvAllocateGUID (PodUID pod) networkName guid
              (AllocateGUID (PodUID pod) networkName guid (world s)).1])
       (heap s) (addMap s) (deleteMap s)
       (<[PodUID pod := networks]> (podNetworksMap s))).
Proof.
  intros Hsel Hguid. rewrite (addPodStep_selected _ _ _ _ _ _ _ _ Hsel).
  unfold addAllocate. rewrite Hguid. unfold bind, call. simpl.
  destruct (AllocateGUID (PodUID pod) networkName guid (world s))
    as [[e|] w]; simpl; [done|].
  by destruct (ParseMAC guid).
Qed.

Lemma podNetworks_untouched p uid podq :
  PodUID podq ≠ uid → respects (untouched p uid) (podNetworks (W:=W) podq).
Proof.
  intros Hne. unfold podNetworks.
  repeat first
    [ apply respects_ret; apply _
    | apply respects_gets; apply _
    | apply respects_modify; intros ?; split; simpl;
      [done|by rewrite lookup_insert_ne]
    | apply respects_bind; [apply _| |intros ?]
    | match goal with
      | |- respects _ (match ?x with _ => _ end) => destruct x
      end ].
Qed.

Lemma addAllocate_untouched p uid networkName q podq networks i network acc :
  PodUID podq ≠ uid → q ≠ p →
  respects (untouched p uid)
    (addAllocate networkName q podq networks i network acc).
Proof.
  intros Hne Hqp. unfold addAllocate, setPodAnnotation.
  repeat first
    [ apply respects_ret; apply _
    | apply respects_call; intros; by split
    | apply respects_modify; intros ?; split; simpl;
      [done|by rewrite lookup_insert_ne]
    | apply respects_modify; intros s0; destruct (heap s0 !! q); split;
      simpl; try done; by rewrite lookup_insert_ne
    | apply respects_bind; [apply _| |intros ?]
    | match goal with
      | |- respects _ (match ?x with _ => _ end) => destruct x
      | |- respects _ (let (_, _) := ?x in _) => destruct x
      end ].
Qed.

Lemma addPodStep_untouched p uid networkName acc q podq s :
  heap s !! q = Some podq → PodUID podq ≠ uid → q ≠ p →
  untouched p uid s (after (addPodStep networkName acc q) s).
Proof.
  intros Hq Hne Hqp.
  unfold after, addPodStep, derefPod, bind, gets. simpl. rewrite Hq. simpl.
  pose proof (podNetworks_untouched p uid podq Hne s) as H0.
  unfold after in H0.
  destruct (podNetworks podq s) as [[parsed|] s0]; simpl in *; [|done].
  destruct parsed as [nets|e]; simpl; [|done].
  destruct (GetPodNetwork nets networkName) as [j|e]; simpl; [|done].
  destruct (nets !! j) as [net|]; [|done].
  etransitivity; [exact H0|]. by apply addAllocate_untouched.
Qed.

Lemma addPodStep_carries networkName p pod networks i network guid acc q :
  GetPodNetwork networks networkName = Ok i →
  networks !! i = Some network →
  GetPodNetworkGuid network = Ok guid →
  respects (preserves (carries p pod networks)) (addPodStep networkName acc q).
Proof.
  intros Hnet Hi Hguid s [Hh Hc].
  destruct (heap s !! q) as [podq|] eqn:Hq.
  - destruct (decide (PodUID podq = PodUID pod)) as [Heq|Hne].
    + assert (Selected networkName q podq networks i network s) as Hsel.
      { constructor; try done. left. by rewrite Heq. }
      unfold after. rewrite (addPodStep_user_guid _ _ _ _ _ _ _ _ _ Hsel Hguid).
      split; simpl; [done|]. by rewrite Heq, lookup_insert_eq.
    + assert (q ≠ p) as Hqp.
      { intros ->. rewrite Hh in Hq. by injection Hq as <-. }
      destruct (addPodStep_untouched p (PodUID pod) networkName acc q podq s
                  Hq Hne Hqp) as [H1 H2].
      split; congruence.
  - unfold after, addPodStep, derefPod, bind, gets. simpl. by rewrite Hq.
Qed.

Lemma guidKept_setWorldCalls p pod networks s w c :
  preserves (guidKept p pod networks) s (setWorldCalls w c s).
Proof. by intros HG. Qed.

Lemma guidField_marked (l : list NetworkSelectionElement) j network args :
  l !! j = Some network → CNIArgs network = Some args →
  guidField <$> <[j := markConfigured network args]> l = guidField <$> l.
Proof.
  intros Hn Ha. rewrite list_fmap_insert, guidField_markConfigured by done.
  apply list_insert_id. by rewrite list_lookup_fmap, Hn.
Qed.

Lemma addCommit_guidKept p pod networks acc u index q networks' :
  (q = p → guidField <$> networks' = guidField <$> networks) →
  respects (preserves (guidKept p pod networks))
    (addCommit acc u index q networks').
Proof.
  intros Hq. unfold addCommit.
  destruct (jsonMarshal networks') as [text|e] eqn:Hm;
    [|apply respects_ret; apply _].
  apply respects_bind; [apply _| |intros _].
  - unfold setPodAnnotation. apply respects_modify.
    intros s [Hcache (pod' & Hh & Huid & Hann)].
    destruct (heap s !! q) as [podq|] eqn:Hhq; [|by split; [|exists pod']].
    split; [done|].
    destruct (decide (q = p)) as [->|Hne].
    + rewrite Hh in Hhq. injection Hhq as <-.
      eexists. split; [simpl; apply lookup_insert_eq|]. split; [done|].
      right. exists networks', text. split; [by apply Hq|]. split; [done|].
      simpl. apply lookup_insert_eq.
    + exists pod'. split; [simpl; by rewrite lookup_insert_ne|]. done.
  - repeat first
      [ apply respects_ret; apply _
      | apply respects_panic; apply _
      | apply respects_derefPod; apply _
      | apply respects_call; intros; apply guidKept_setWorldCalls
      | apply respects_bind; [apply _| |intros ?]
      | match goal with
        | |- respects _ (match ?x with _ => _ end) => destruct x
        | |- respects _ (if ?x then _ else _) => destruct x
        end ].
Qed.

Lemma addAnnotateStep_guidKept p pod networks acc u index q :
  respects (preserves (guidKept p pod networks))
    (addAnnotateStep acc u index q).
Proof.
  intros s HG. unfold after, addAnnotateStep, derefPod, bind, gets. simpl.
  destruct (heap s !! q) as [podq|] eqn:Hq; simpl; [|done].
  destruct (podNetworkMap acc !! PodUID podq) as [j|]; [|done].
  destruct (podNetworksMap s !! PodUID podq) as [lq|] eqn:Hc; [|done].
  destruct (lq !! j) as [network'|] eqn:Hn; [|done].
  destruct (CNIArgs network') as [args|] eqn:Ha; [|done].
  unfold modify. simpl.
  set (lq' := <[j := markConfigured network' args]> lq).
  set (s1 := setPodNetworksMap _ s).
  pose proof (guidField_marked lq j network' args Hn Ha) as Hgf.
  fold lq' in Hgf.
  destruct HG as [(l & Hl & Hlg) (pod' & Hh & Huid & Hann)].
  assert (guidKept p pod networks s1) as HG1.
  { split; [|by exists pod'].
    subst s1. simpl.
    destruct (decide (PodUID podq = PodUID pod)) as [Heq|Hne].
    - rewrite Heq, lookup_insert_eq. exists lq'. split; [done|].
      rewrite Hgf. rewrite Heq, Hl in Hc. by injection Hc as <-.
    - rewrite lookup_insert_ne by done. by exists l. }
  apply (addCommit_guidKept p pod networks acc u index q lq'); [|done].
  intros ->. rewrite Hh in Hq. injection Hq as <-.
  rewrite Huid, Hl in Hc. injection Hc as <-. by rewrite Hgf.
Qed.

Lemma addProgram_guidKept p pod networks networkName ibCniSpec acc :
  respects (preserves (guidKept p pod networks))
    (addProgram networkName ibCniSpec acc).
Proof.
  unfold addProgram, addAnnotate, addWithdraw, addBookkeeping,
    addMapUnSafeRemove, addMapUnSafeSet.
  repeat first
    [ apply addAnnotateStep_guidKept
    | apply respects_ret; apply _
    | apply respects_call; intros; apply guidKept_setWorldCalls
    | apply respects_modify; by intros ? ?
    | apply respects_foldMi; [apply _|intros ? ? ?]
    | apply respects_bind; [apply _| |intros ?]
    | match goal with
      | |- respects _ (match ?x with _ => _ end) => destruct x
      | |- respects _ (if ?x then _ else _) => destruct x
      | |- respects _ (let (_, _) := ?x in _) => destruct x
      end ].
Qed.

Lemma carries_guidKept p pod networks s :
  carries p pod networks s → guidKept p pod networks s.
Proof.
  intros [Hh Hc]. split; [by exists networks|].
  exists pod. split; [done|]. split; [done|]. by left.
Qed.

(** C8. A pending pod whose selection entry for the network carries a GUID
    is given that GUID and no other. The step of the pod in the allocation
    loop makes one call, [AllocateGUID] with the UID of the pod, the network
    and the GUID the entry carries, whatever the pool answers, and so no
    call of [GenerateGUID]; it leaves the pod object and the cached entries
    as they were; the pod is passed with the parsed GUID when the pool
    accepts the GUID and the GUID parses, and is a failed pod otherwise. The
    visit of the network is the loop over the pods before this one, this
    step, the loop over the pods that follow and the programming of the
    batch. When the pod is passed and the loop returns, its GUID is in the
    GUID list, and for a PKey that parses the visit calls [AddGuidsToPKey]
    on that list. When the visit ends the [guid] fields of the entries
    cached for the pod are those it came with, and the network selection
    annotation of the pod object is the one it came with or the
    serialization of entries with these [guid] fields. *)
Theorem add_pass_user_guid (networkName : string)
    (before rest : list PodRef) (p : PodRef) (ibCniSpec : IbSriovCniSpec)
    (s s1 sb : State W) (acc : AddAcc) (pod : Pod)
    (networks : list NetworkSelectionElement) (i : nat)
    (network : NetworkSelectionElement) (guid : string) :
  addMap s !! networkName = Some (VPods (before ++ p :: rest)) →
  Fetched networkName (before ++ p :: rest) ibCniSpec s s1 →
  foldM (addPodStep networkName) before emptyAddAcc s1 = (Done acc, sb) →
  Selected networkName p pod networks i network sb →
  GetPodNetworkGuid network = Ok guid →
  let r := (AllocateGUID (PodUID pod) networkName guid (world sb)).1 in
  let w1 := (AllocateGUID (PodUID pod) networkName guid (world sb)).2 in
  let s' := mkState w1
              (calls sb ++ [EvAllocateGUID (PodUID pod) networkName guid r])
              (heap sb) (addMap sb) (deleteMap sb)
              (<[PodUID pod := networks]> (podNetworksMap sb)) in
  let acc' := match r, ParseMAC guid with
              | None, Ok guidAddr =>
                  addPassed p guidAddr (addNetworkOf (PodUID pod) i acc)
              | _, _ => addFailed p (addNetworkOf (PodUID pod) i acc)
              end in
  addPodStep networkName acc p sb = (Done acc', s') ∧
  addVisit networkName s
    = (do acc'' <- foldM (addPodStep networkName) rest acc';
       addProgram networkName ibCniSpec acc'') s' ∧
  (∀ guidAddr acc'' s'' pKey,
     r = None → ParseMAC guid = Ok guidAddr →
     foldM (addPodStep networkName) rest acc' s' = (Done acc'', s'') →
     PKey ibCniSpec ≠ "" →
     ParsePKey (PKey ibCniSpec) = (pKey, None) →
     guidAddr ∈ guidList acc'' ∧
     ∃ d, calls (after (addVisit networkName) s)
          = calls s''
            ++ EvAddGuidsToPKey pKey (guidList acc'')
                 (AddGuidsToPKey pKey (guidList acc'') (world s'')).1 :: d) ∧
  guidKept p pod networks (after (addVisit networkName) s).
Proof.
  intros Hentry Hfetch Hbefore Hsel Hguid r w1 s' acc'.
  pose proof (addPodStep_user_guid networkName acc p pod networks i network
                guid sb Hsel Hguid) as Hstep.
  fold r w1 s' acc' in Hstep.
  assert (addVisit networkName s
          = (do acc'' <- foldM (addPodStep networkName) rest acc';
             addProgram networkName ibCniSpec acc'') s') as Hvisit.
  { rewrite (addVisit_fetched _ _ _ _ _ Hentry Hfetch).
    unfold addPods, bind. rewrite foldM_app. unfold bind. rewrite Hbefore.
    simpl. unfold bind. by rewrite Hstep. }
  split; [done|]. split; [done|]. split.
  - intros guidAddr acc'' s'' pKey Hr Hmac Hrest Hkey Hparse.
    assert (guidAddr ∈ guidList acc'') as Hin.
    { apply alloc_loop_lists in Hrest as (gs & _ & _ & Hg & _).
      subst acc'. rewrite Hr, Hmac in Hg. simpl in Hg.
      rewrite Hg, !elem_of_app, list_elem_of_singleton. auto. }
    split; [done|].
    unfold after. rewrite Hvisit. unfold bind. rewrite Hrest.
    unfold addProgram.
    rewrite pkey_gate_open by (done || by intros Hnil; rewrite Hnil in Hin;
                                         apply elem_of_nil in Hin).
    rewrite Hparse. unfold bind, call.
    destruct (AddGuidsToPKey pKey (guidList acc'') (world s'')) as [ra w].
    simpl. destruct ra as [e|]; simpl.
    + by exists [].
    + set (s3 := setWorldCalls w _ s'').
      destruct (addAnnotate_logGrows networkName ibCniSpec acc'' s3)
        as [d Hd].
      exists d. unfold after in Hd. rewrite Hd. subst s3. simpl.
      by rewrite <- app_assoc.
  - unfold after. rewrite Hvisit. unfold bind.
    destruct Hsel as [Hpod _ Hnet Hi].
    assert (carries p pod networks s') as Hs'.
    { split; simpl; [done|apply lookup_insert_eq]. }
    pose proof (respects_foldM (preserves (carries p pod networks))
                  (addPodStep networkName) rest acc'
                  (λ b a, addPodStep_carries networkName p pod networks i
                            network guid b a Hnet Hi Hguid) s' Hs') as Hloop.
    unfold after in Hloop.
    destruct (foldM (addPodStep networkName) rest acc' s') as [[acc''|] s''];
      simpl in *.
    + apply (addProgram_guidKept p pod networks networkName ibCniSpec acc'' s'').
      by apply carries_guidKept.
    + by apply carries_guidKept.
Qed.
End Properties.

(** ** Properties of the startup *)

Section StartupProperties.

Context {B : Type} {boot : Boot B}.

Ltac boot_step :=
  match goal with
  | |- context [ReadConfig ?c ?b] =>
      destruct (ReadConfig c b) as [[? [?|]] ?]
  | |- context [ValidateConfig ?c ?b] =>
      destruct (ValidateConfig c b) as [[?|] ?]
  | |- context [NewPodEventHandler ?b] =>
      destruct (NewPodEventHandler b) as [? ?]
  | |- context [NewK8sClient ?b] => destruct (NewK8sClient b) as [[?|?] ?]
  | |- context [NewGuidPool ?c ?k ?b] =>
      destruct (NewGuidPool c k b) as [[?|?] ?]
  | |- context [InitPool ?p ?b] => destruct (InitPool p b) as [[?|] ?]
  | |- context [NewPluginLoader ?b] => destruct (NewPluginLoader b) as [? ?]
  | |- context [LoadPlugin ?l ?p ?f ?b] =>
      destruct (LoadPlugin l p f b) as [[?|?] ?]
  | |- context [getSmClient ?f ?b] => destruct (getSmClient f b) as [[?|?] ?]
  | |- context [Validate ?c ?b] => destruct (Validate c b) as [[?|] ?]
  | |- context [NewWatcher ?h ?k ?b] => destruct (NewWatcher h k b) as [? ?]
  end; simpl.

(** X1. [NewDaemon] goes through its steps in one fixed order and stops at
    the first error. The calls it made are an initial part of the eleven
    startup steps; the plugin is loaded from [/plugins], joined with the
    plugin name of the configuration that was read and [.so]. When a daemon
    is returned all eleven steps were made and none failed, so that the pool
    was initialized and the subnet manager client validated before the
    watcher was built, and the daemon holds the configuration that was read.
    When an error is returned it is the error of the last call made, and no
    call before it failed. *)
Theorem NewDaemon_startup_order (b : B) :
  let r := (NewDaemon (b, [])).1 in
  let log := (NewDaemon (b, [])).2.2 in
  let daemonConfig := (ReadConfig emptyDaemonConfig b).1.1 in
  (∃ n, stepOf <$> log = take n startupSteps) ∧
  (∀ path symbol failure,
     EvLoadPlugin path symbol failure ∈ log →
     path = pathJoin "/plugins" (Plugin daemonConfig +:+ ".so") ∧
     symbol = InitializePluginFunc) ∧
  match r with
  | Ok d =>
      stepOf <$> log = startupSteps ∧
      Forall (λ e, failureOf e = None) log ∧
      config d = daemonConfig
  | Err err =>
      ∃ log0 e, log = log0 ++ [e] ∧ failureOf e = Some err ∧
                Forall (λ e, failureOf e = None) log0
  end.
Proof.
  unfold NewDaemon, bootBind, bootCall, bootRet. simpl.
  repeat boot_step.
  all: split; [|split].
  all: try match goal with
    | |- ∃ n, ?l = take n _ => exists (length l); reflexivity
    end.
  all: try (intros path symbol failure Hin;
            repeat (apply elem_of_cons in Hin as [Hin|Hin];
                    [by (discriminate Hin || injection Hin as -> -> _)|]);
            by apply elem_of_nil in Hin).
  all: try (split; [reflexivity|]; split; [|reflexivity];
            by repeat constructor).
  all: match goal with
    | |- ∃ log0 e0, ?l = _ ∧ _ =>
        exists (removelast l); simpl; eexists;
        split; [reflexivity|]; split; [reflexivity|]; by repeat constructor
    end.
Qed.

End StartupProperties.

(** ** The passes on the concrete cluster *)

Import Demo.

(** *** The end-to-end scenarios of the specification *)

(** Scenario A: one pod without a GUID. It gets the first GUID of the
    range, the subnet manager is told once, and the add map is empty. *)
Example scenario_happy_path :
  let s' := after (AddPeriodicUpdate ["ibnet"]) happyState in
  addMap s' = ∅ ∧
  membership (world s') = [(5%Z, addr guid1)] ∧
  poolAllocated (world s') = [(guid1, ("w1", "ibnet"))] ∧
  (heap s' !! 1 ≫= λ pod, Annotations pod !! NetworkAttachmentAnnot)
    = Some (render [configuredNet "ibnet" guid1]).
Proof. vm_compute. repeat split. Qed.

(** Scenario C: the pod is gone when its annotations are written. Its GUID
    is released and withdrawn from the partition, and the add map is
    empty. *)
Example scenario_write_race :
  let s' := after (AddPeriodicUpdate ["ibnet"]) (lateState (goneWorld false)) in
  addMap s' = ∅ ∧ membership (world s') = [] ∧ poolAllocated (world s') = [] ∧
  last (calls s') = Some (EvRemoveGuidsFromPKey 5 [addr guid1] None).
Proof. vm_compute. repeat split. Qed.

(** Scenario D: of two pods one has annotations that do not parse. It is
    the only pod left in the add map and the other is configured. *)
Example scenario_partial_failure :
  let s' := after (AddPeriodicUpdate ["ibnet"]) partialState in
  addMap s' !! "ibnet" = Some (VPods [5]) ∧
  membership (world s') = [(5%Z, addr guid1)] ∧
  (heap s' !! 4 ≫= λ pod, Annotations pod !! NetworkAttachmentAnnot)
    = Some (render [configuredNet "ibnet" guid1]).
Proof. vm_compute. repeat split. Qed.

(** Scenario E: a configured pod is deleted. Its GUID leaves the partition
    and the pool, and the delete map is empty. *)
Example scenario_delete :
  let s' := after (DeletePeriodicUpdate ["ibnet"]) (deleteState false) in
  deleteMap s' = ∅ ∧ membership (world s') = [] ∧
  poolAllocated (world s') = [].
Proof. vm_compute. repeat split. Qed.

(** *** The theorems at concrete inputs *)

Lemma fetched_demo (s : State World) (p0 : PodRef) (ps : list PodRef)
    (pod0 : Pod) (config : string) (ibCniSpec : IbSriovCniSpec) :
  heap s !! p0 = Some pod0 →
  Namespace pod0 = "default" →
  assoc "ibnet" (nads (world s)) = Some config →
  demoUnmarshal config = Ok config →
  demoGetIbSriov config = Ok ibCniSpec →
  Fetched "ibnet" (p0 :: ps) ibCniSpec s (fetchedState s).
Proof.
  intros Hpod Hns Hnad Hjson Hib.
  eapply (fetched "ibnet" (p0 :: ps) ibCniSpec s (fetchedState s) p0 ps pod0
            (mkNAD config) (world s)).
  - reflexivity.
  - exact Hpod.
  - simpl. unfold demoGetNAD. by rewrite Hnad.
  - exact Hjson.
  - exact Hib.
  - unfold fetchedState, after, call. simpl. unfold demoGetNAD.
    by rewrite Hnad, Hns.
Defined.

Lemma inert_entry_persists_witness :
  let passes := [AddPass ["ibnet"]; DeletePass ["ibnet"]; AddPass ["ibnet"]] in
  inert (VPods []) = true ∧ inert (VOther "string") = true ∧
  addMap (after (runPasses passes) inertState) !! "ibnet" = Some (VPods []) ∧
  deleteMap (after (runPasses passes) inertState) !! "ibnet"
    = Some (VOther "string").
Proof.
  intros passes. split; [reflexivity|]. split; [reflexivity|]. split.
  - destruct (inert_entry_persists (W:=World) "ibnet" (VPods []) eq_refl)
      as (_ & _ & Hadd & _).
    apply Hadd. vm_compute. reflexivity.
  - destruct (inert_entry_persists (W:=World) "ibnet" (VOther "string")
                eq_refl) as (_ & _ & _ & Hdel).
    apply Hdel. vm_compute. reflexivity.
Defined.

Lemma add_pass_unreadable_config_witness :
  addMap macvlanState !! "ibnet" = Some (VPods [1]) ∧
  addMap (after (addVisit "ibnet") macvlanState) !! "ibnet" = None ∧
  addMap malformedState !! "ibnet" = Some (VPods [1]) ∧
  addMap (after (addVisit "ibnet") malformedState) !! "ibnet"
    = Some (VPods [1]).
Proof.
  assert (addMap macvlanState !! "ibnet" = Some (VPods [1])) as Hentry1
    by (vm_compute; reflexivity).
  assert (addMap malformedState !! "ibnet" = Some (VPods [1])) as Hentry2
    by (vm_compute; reflexivity).
  assert (heap macvlanState !! 1 = Some pod1) as Hpod1
    by (vm_compute; reflexivity).
  assert (heap malformedState !! 1 = Some pod1) as Hpod2
    by (vm_compute; reflexivity).
  assert (GetNetworkAttachmentDefinition (Namespace pod1) "ibnet"
            (world macvlanState)
          = (Ok (mkNAD macvlanConfig), world macvlanState)) as Hget1
    by (vm_compute; reflexivity).
  assert (GetNetworkAttachmentDefinition (Namespace pod1) "ibnet"
            (world malformedState)
          = (Ok (mkNAD "not json"), world malformedState)) as Hget2
    by (vm_compute; reflexivity).
  split; [exact Hentry1|]. split; [|split; [exact Hentry2|]].
  - destruct (add_pass_unreadable_config "ibnet" 1 [] pod1
                (mkNAD macvlanConfig) (world macvlanState) macvlanState
                Hentry1 Hpod1 Hget1) as [_ Hrm].
    assert (jsonUnmarshal (SpecConfig (mkNAD macvlanConfig))
            = Ok (macvlanConfig : @NetworkSpec demoHelpers)) as Hjson
      by (vm_compute; reflexivity).
    assert (GetIbSriovCniFromNetwork
              (macvlanConfig : @NetworkSpec demoHelpers)
            = Err "not an ib-sriov network") as Hib
      by (vm_compute; reflexivity).
    destruct (Hrm _ _ Hjson Hib) as [Hvisit _].
    unfold after. rewrite Hvisit. vm_compute. reflexivity.
  - destruct (add_pass_unreadable_config "ibnet" 1 [] pod1
                (mkNAD "not json") (world malformedState) malformedState
                Hentry2 Hpod2 Hget2) as [Hkeep _].
    assert (jsonUnmarshal (SpecConfig (mkNAD "not json"))
            = Err "invalid character looking for beginning of value")
      as Hjson by (vm_compute; reflexivity).
    destruct (Hkeep _ Hjson) as [Hvisit Hentry].
    unfold after. rewrite Hvisit. exact Hentry.
Defined.

(** The configuration of the network is no JSON, and the entry is still in
    the add map after the pass. *)
Lemma add_pass_malformed_config_counterexample :
  jsonUnmarshal "not json"
    = Err "invalid character looking for beginning of value" ∧
  addMap (after (AddPeriodicUpdate ["ibnet"]) malformedState) !! "ibnet"
    ≠ None.
Proof. split; [reflexivity|]. vm_compute. discriminate. Qed.

Lemma add_pass_rejected_pkey_witness :
  (ParsePKey "0x7fff").2 = Some "reserved pkey" ∧
  addMap (after (addVisit "ibnet") reservedState) = addMap reservedState ∧
  ∃ d, calls (after (addVisit "ibnet") reservedState)
       = calls reservedState ++ d ∧ forallb notSMCall d = true.
Proof.
  split; [reflexivity|].
  apply (add_pass_rejected_pkey "ibnet" [1] (mkIbSpec "0x7fff") reservedState
           (fetchedState reservedState) "reserved pkey").
  - vm_compute. reflexivity.
  - apply (fetched_demo reservedState 1 [] pod1 (ibSriovConfig "0x7fff"));
      vm_compute; reflexivity.
  - discriminate.
  - vm_compute. reflexivity.
Defined.

(** The PKey of the network is the one of the management partition, which
    [ParsePKey] rejects, and the entry is still in the add map after the
    pass. *)
Lemma add_pass_reserved_pkey_counterexample :
  (ParsePKey "0x7fff").2 = Some "reserved pkey" ∧
  (ParsePKey "0x0000").2 = Some "reserved pkey" ∧
  addMap (after (AddPeriodicUpdate ["ibnet"]) reservedState) !! "ibnet"
    ≠ None.
Proof.
  split; [reflexivity|]. split; [reflexivity|]. vm_compute. discriminate.
Qed.

Lemma add_pass_withdrawal_witness :
  let ib := mkIbSpec "0x5" in
  let bad := goneWorld true in
  let good := goneWorld false in
  removedGuidList (lateUpd bad) = [addr guid1] ∧
  updFailedPods (lateUpd bad) = [] ∧
  addMap (after (addAnnotate "ibnet" ib (lateAcc bad)) (lateProgrammed bad))
    = addMap (lateProgrammed bad) ∧
  addMap (after (addAnnotate "ibnet" ib (lateAcc good)) (lateProgrammed good))
    !! "ibnet" = None.
Proof.
  intros ib bad good.
  split; [vm_compute; reflexivity|]. split; [vm_compute; reflexivity|].
  split.
  - assert (foldMi (addAnnotateStep (lateAcc bad)) 0 (passedPods (lateAcc bad))
              (mkUpdAcc (failedPods (lateAcc bad)) []) (lateProgrammed bad)
            = (Done (lateUpd bad), (lateAnnotated bad).2)) as Hloop
      by (vm_compute; reflexivity).
    assert (PKey ib ≠ "") as Hkey by discriminate.
    assert (removedGuidList (lateUpd bad) ≠ []) as Hrem
      by (vm_compute; discriminate).
    assert (RemoveGuidsFromPKey (ParsePKey (PKey ib)).1
              (removedGuidList (lateUpd bad)) (world (lateAnnotated bad).2)
            = (Some "subnet manager unreachable",
               world (lateAnnotated bad).2)) as Hsm
      by (vm_compute; reflexivity).
    destruct (add_pass_withdrawal "ibnet" ib (lateAcc bad) (lateUpd bad)
                (lateProgrammed bad) (lateAnnotated bad).2 _ _
                Hloop Hkey Hrem Hsm) as [Hrun Hmap].
    unfold after. rewrite Hrun. exact Hmap.
  - assert (foldMi (addAnnotateStep (lateAcc good)) 0
              (passedPods (lateAcc good))
              (mkUpdAcc (failedPods (lateAcc good)) []) (lateProgrammed good)
            = (Done (lateUpd good), (lateAnnotated good).2)) as Hloop
      by (vm_compute; reflexivity).
    assert (PKey ib ≠ "") as Hkey by discriminate.
    assert (removedGuidList (lateUpd good) ≠ []) as Hrem
      by (vm_compute; discriminate).
    assert (RemoveGuidsFromPKey (ParsePKey (PKey ib)).1
              (removedGuidList (lateUpd good)) (world (lateAnnotated good).2)
            = (None,
               (RemoveGuidsFromPKey 5 [addr guid1]
                  (world (lateAnnotated good).2)).2)) as Hsm
      by (vm_compute; reflexivity).
    pose proof (add_pass_withdrawal "ibnet" ib (lateAcc good) (lateUpd good)
                  (lateProgrammed good) (lateAnnotated good).2 _ _
                  Hloop Hkey Hrem Hsm) as Hrun.
    unfold after. rewrite Hrun. vm_compute. reflexivity.
Defined.

(** The pod is gone when its annotations are written, the subnet manager
    refuses to withdraw its GUID, no pod failed, and the entry is still in
    the add map after the pass, with the pod. *)
Lemma add_pass_withdrawal_counterexample :
  let s' := after (AddPeriodicUpdate ["ibnet"]) (lateState (goneWorld true)) in
  last (calls s')
    = Some (EvRemoveGuidsFromPKey 5 [addr guid1]
              (Some "subnet manager unreachable")) ∧
  updFailedPods (lateUpd (goneWorld true)) = [] ∧
  addMap s' !! "ibnet" = Some (VPods [3]).
Proof. vm_compute. repeat split. Qed.

Lemma delete_pass_release_after_removal_witness :
  let ok := deleteState false in
  let bad := deleteState true in
  delGuidList (deleteAcc false) = [addr guid2] ∧
  last (calls (after (deleteVisit "ibnet") ok))
    = Some (EvReleaseGUID guid2 None) ∧
  (∃ d, calls (after (deleteVisit "ibnet") ok) = calls ok ++ d ∧
        ∀ d1 guid r d2,
          d = d1 ++ EvReleaseGUID guid r :: d2 →
          ∃ pKey,
            EvRemoveGuidsFromPKey pKey (delGuidList (deleteAcc false)) None
              ∈ d1) ∧
  deleteMap (after (deleteVisit "ibnet") bad) = deleteMap bad.
Proof.
  intros ok bad. split; [vm_compute; reflexivity|].
  split; [vm_compute; reflexivity|]. split.
  - assert (deleteMap ok !! "ibnet" = Some (VPods [6])) as Hentry
      by (vm_compute; reflexivity).
    assert (Fetched "ibnet" [6] (mkIbSpec "0x5") ok (fetchedState ok)) as Hf
      by (apply (fetched_demo ok 6 [] pod6 (ibSriovConfig "0x5"));
          vm_compute; reflexivity).
    assert (outcome (foldM (deletePodStep "ibnet") [6] (mkDelAcc [] []))
              (fetchedState ok) = Done (deleteAcc false)) as Hscan
      by (vm_compute; reflexivity).
    assert (PKey (mkIbSpec "0x5") ≠ "") as Hkey by discriminate.
    assert (delGuidList (deleteAcc false) ≠ []) as Hguids
      by (vm_compute; discriminate).
    destruct (delete_pass_release_after_removal "ibnet" [6] (mkIbSpec "0x5")
                ok (fetchedState ok) (deleteAcc false)
                Hentry Hf Hscan Hkey Hguids) as (d & Hd & Hord & _).
    exists d. split; [exact Hd|exact Hord].
  - assert (deleteMap bad !! "ibnet" = Some (VPods [6])) as Hentry
      by (vm_compute; reflexivity).
    assert (Fetched "ibnet" [6] (mkIbSpec "0x5") bad (fetchedState bad)) as Hf
      by (apply (fetched_demo bad 6 [] pod6 (ibSriovConfig "0x5"));
          vm_compute; reflexivity).
    assert (outcome (foldM (deletePodStep "ibnet") [6] (mkDelAcc [] []))
              (fetchedState bad) = Done (deleteAcc true)) as Hscan
      by (vm_compute; reflexivity).
    assert (PKey (mkIbSpec "0x5") ≠ "") as Hkey by discriminate.
    assert (delGuidList (deleteAcc true) ≠ []) as Hguids
      by (vm_compute; discriminate).
    destruct (delete_pass_release_after_removal "ibnet" [6] (mkIbSpec "0x5")
                bad (fetchedState bad) (deleteAcc true)
                Hentry Hf Hscan Hkey Hguids) as (d & _ & _ & Hfail).
    assert (ParsePKey (PKey (mkIbSpec "0x5")) = (5%Z, None)) as Hparse
      by (vm_compute; reflexivity).
    assert (RemoveGuidsFromPKey 5 (delGuidList (deleteAcc true))
              (world (fetchedState bad))
            = (Some "subnet manager unreachable", world (fetchedState bad)))
      as Hsm by (vm_compute; reflexivity).
    destruct (Hfail _ _ _ Hparse Hsm) as (_ & _ & Hmap). exact Hmap.
Defined.

Lemma annotation_write_failure_witness :
  let gone := goneWorld false in
  isNotFound goneError = true ∧
  isNotFound "connection refused" = false ∧
  outcome (addAnnotateStep (lateAcc gone) (mkUpdAcc [] []) 0 3)
    (lateProgrammed gone) = Done (mkUpdAcc [] [addr guid1]) ∧
  last (calls (after (addAnnotateStep (lateAcc gone) (mkUpdAcc [] []) 0 3)
                 (lateProgrammed gone)))
    = Some (EvReleaseGUID guid1 None) ∧
  outcome (addAnnotateStep (lateAcc refusingWorld) (mkUpdAcc [] []) 0 3)
    (lateProgrammed refusingWorld) = Done (mkUpdAcc [3] []) ∧
  last (calls (after (addAnnotateStep (lateAcc refusingWorld)
                        (mkUpdAcc [] []) 0 3) (lateProgrammed refusingWorld)))
    = Some (EvSetAnnotationsOnPod pod3Configured (Annotations pod3Configured)
              (Some "connection refused")).
Proof.
  intros gone.
  split; [vm_compute; reflexivity|]. split; [vm_compute; reflexivity|].
  assert (jsonMarshal
            (<[0 := markConfigured (guidNet "ibnet" guid1)
                      {[ "guid" := ArgString guid1 ]}]>
               [guidNet "ibnet" guid1])
          = Ok (render [configuredNet "ibnet" guid1])) as Hmarshal
    by (vm_compute; reflexivity).
  assert (∀ w, w = gone ∨ w = refusingWorld →
            heap (lateProgrammed w) !! 3 = Some pod3Allocated ∧
            podNetworkMap (lateAcc w) !! PodUID pod3Allocated = Some 0 ∧
            podNetworksMap (lateProgrammed w) !! PodUID pod3Allocated
              = Some [guidNet "ibnet" guid1] ∧
            guidList (lateAcc w) !! 0 = Some (addr guid1)) as Hstate.
  { intros w [->| ->]; vm_compute; repeat split. }
  destruct (Hstate gone (or_introl eq_refl)) as (Hpod & Hi & Hcache & Hguid).
  destruct (Hstate refusingWorld (or_intror eq_refl))
    as (Hpod' & Hi' & Hcache' & Hguid').
  assert (SetAnnotationsOnPod pod3Configured (Annotations pod3Configured)
            (world (lateProgrammed gone))
          = (Some goneError, world (lateProgrammed gone))) as Hwrite
    by (vm_compute; reflexivity).
  assert (SetAnnotationsOnPod pod3Configured (Annotations pod3Configured)
            (world (lateProgrammed refusingWorld))
          = (Some "connection refused",
             world (lateProgrammed refusingWorld))) as Hwrite'
    by (vm_compute; reflexivity).
  pose proof (annotation_write_failure (lateAcc gone) (mkUpdAcc [] []) 0 3
                (lateProgrammed gone) pod3Allocated 0 [guidNet "ibnet" guid1]
                (guidNet "ibnet" guid1) {[ "guid" := ArgString guid1 ]}
                (render [configuredNet "ibnet" guid1]) goneError
                (world (lateProgrammed gone)) (addr guid1)
                Hpod Hi Hcache eq_refl eq_refl Hmarshal Hwrite Hguid)
    as (Hout & Hcalls & _).
  pose proof (annotation_write_failure (lateAcc refusingWorld)
                (mkUpdAcc [] []) 0 3 (lateProgrammed refusingWorld)
                pod3Allocated 0 [guidNet "ibnet" guid1]
                (guidNet "ibnet" guid1) {[ "guid" := ArgString guid1 ]}
                (render [configuredNet "ibnet" guid1]) "connection refused"
                (world (lateProgrammed refusingWorld)) (addr guid1)
                Hpod' Hi' Hcache' eq_refl eq_refl Hmarshal Hwrite' Hguid')
    as (Hout' & Hcalls' & _).
  split; [exact Hout|]. split.
  { rewrite Hcalls. rewrite last_app. reflexivity. }
  split; [exact Hout'|].
  rewrite Hcalls'. rewrite last_app. reflexivity.
Defined.

Lemma pass_bookkeeping_witness :
  updFailedPods partialUpd = [5] ∧
  addMap (after (addVisit "ibnet") partialState) !! "ibnet"
    = Some (VPods [5]) ∧
  delFailedPods (deleteAcc false) = [] ∧
  deleteMap (after (deleteVisit "ibnet") (deleteState false)) !! "ibnet"
    = None.
Proof.
  split; [vm_compute; reflexivity|]. split; [|split].
  - assert (Fetched "ibnet" [4; 5] (mkIbSpec "0x5") partialState
              (fetchedState partialState)) as Hf
      by (apply (fetched_demo partialState 4 [5] pod4 (ibSriovConfig "0x5"));
          vm_compute; reflexivity).
    destruct (pass_bookkeeping "ibnet" [4; 5] (mkIbSpec "0x5") partialState
                (fetchedState partialState) Hf) as [Hadd _].
    assert (addMap partialState !! "ibnet" = Some (VPods [4; 5])) as Hentry
      by (vm_compute; reflexivity).
    assert (foldM (addPodStep "ibnet") [4; 5] emptyAddAcc
              (fetchedState partialState)
            = (Done partialAcc, partialAlloc.2)) as Halloc
      by (vm_compute; reflexivity).
    assert (Programmed (mkIbSpec "0x5") (guidList partialAcc) partialAlloc.2
              partialProgrammed) as Hprog.
    { apply (programmed_guids _ _ _ _ 5%Z (world partialProgrammed));
        vm_compute; reflexivity. }
    assert (foldMi (addAnnotateStep partialAcc) 0 (passedPods partialAcc)
              (mkUpdAcc (failedPods partialAcc) []) partialProgrammed
            = (Done partialUpd, partialAnnotated.2)) as Hann
      by (vm_compute; reflexivity).
    assert (Withdrawn (mkIbSpec "0x5") (removedGuidList partialUpd)
              partialAnnotated.2 partialAnnotated.2) as Hwd.
    { apply withdrawn_nothing; first [reflexivity|vm_compute; reflexivity]. }
    unfold after.
    rewrite (Hadd partialAcc partialAlloc.2 partialProgrammed partialUpd
               partialAnnotated.2 partialAnnotated.2
               Hentry Halloc Hprog Hann Hwd).
    vm_compute. reflexivity.
  - vm_compute. reflexivity.
  - set (s := deleteState false).
    assert (Fetched "ibnet" [6] (mkIbSpec "0x5") s (fetchedState s)) as Hf
      by (apply (fetched_demo s 6 [] pod6 (ibSriovConfig "0x5"));
          vm_compute; reflexivity).
    destruct (pass_bookkeeping "ibnet" [6] (mkIbSpec "0x5") s
                (fetchedState s) Hf) as [_ Hdel].
    assert (deleteMap s !! "ibnet" = Some (VPods [6])) as Hentry
      by (vm_compute; reflexivity).
    assert (foldM (deletePodStep "ibnet") [6] (mkDelAcc [] [])
              (fetchedState s)
            = (Done (deleteAcc false), (deleteScanned false).2)) as Hscan
      by (vm_compute; reflexivity).
    assert (Removed (mkIbSpec "0x5") (delGuidList (deleteAcc false))
              (deleteScanned false).2 deleteRemoved) as Hrem.
    { apply (removed_guids _ _ _ _ 5%Z (world deleteRemoved));
        vm_compute; reflexivity. }
    unfold after.
    rewrite (Hdel (deleteAcc false) (deleteScanned false).2 deleteRemoved
               Hentry Hscan Hrem).
    vm_compute. reflexivity.
Defined.

Lemma delete_pass_skips_unconfigured_witness :
  let s := unconfiguredState in
  IsPodNetworkConfiguredWithInfiniBand (guidNet "ibnet" guid1) = false ∧
  deleteMap s !! "ibnet" = Some (VPods [7]) ∧
  deleteMap (after (deleteVisit "ibnet") s) !! "ibnet" = None ∧
  calls (after (deleteVisit "ibnet") s)
    = [EvGetNetworkAttachmentDefinition "default" "ibnet"
         (Ok (mkNAD (ibSriovConfig "0x5")))].
Proof.
  intros s.
  assert (deleteMap s !! "ibnet" = Some (VPods [7])) as Hentry
    by (vm_compute; reflexivity).
  assert (Fetched "ibnet" [7] (mkIbSpec "0x5") s (fetchedState s)) as Hf
    by (apply (fetched_demo s 7 [] pod7 (ibSriovConfig "0x5"));
        vm_compute; reflexivity).
  assert (Forall (Unconfigured "ibnet" (heap s)) [7]) as Hall.
  { constructor; [|constructor].
    apply (unconfigured "ibnet" (heap s) 7 pod7 [guidNet "ibnet" guid1] 0
             (guidNet "ibnet" guid1)); vm_compute; reflexivity. }
  destruct (delete_pass_skips_unconfigured "ibnet" [7] (mkIbSpec "0x5") s
              (fetchedState s) Hentry Hf Hall) as (_ & Hvisit & _).
  split; [vm_compute; reflexivity|]. split; [exact Hentry|].
  unfold after. rewrite Hvisit. split; vm_compute; reflexivity.
Defined.


Lemma add_pass_user_guid_witness :
  let s := userState in
  let s' := after (addVisit "ibnet") s in
  GetPodNetworkGuid (guidNet "ibnet" guid3) = Ok guid3 ∧
  take 3 (calls s')
    = [EvGetNetworkAttachmentDefinition "default" "ibnet"
         (Ok (mkNAD (ibSriovConfig "0x5")));
       EvAllocateGUID "w2" "ibnet" guid3 None;
       EvAddGuidsToPKey 5 [addr guid3] None] ∧
  poolAllocated (world s') = [(guid3, ("w2", "ibnet"))] ∧
  membership (world s') = [(5%Z, addr guid3)] ∧
  addMap s' = ∅ ∧
  guidKept 2 pod2 [guidNet "ibnet" guid3] s'.
Proof.
  intros s s'.
  assert (addMap s !! "ibnet" = Some (VPods ([] ++ 2 :: []))) as Hentry
    by (vm_compute; reflexivity).
  assert (Fetched "ibnet" ([] ++ 2 :: []) (mkIbSpec "0x5") s (fetchedState s))
    as Hf
    by (apply (fetched_demo s 2 [] pod2 (ibSriovConfig "0x5"));
        vm_compute; reflexivity).
  assert (Selected "ibnet" 2 pod2 [guidNet "ibnet" guid3] 0
            (guidNet "ibnet" guid3) (fetchedState s)) as Hsel.
  { constructor.
    - vm_compute; reflexivity.
    - right. split; vm_compute; reflexivity.
    - vm_compute; reflexivity.
    - reflexivity. }
  assert (GetPodNetworkGuid (guidNet "ibnet" guid3) = Ok guid3) as Hguid
    by (vm_compute; reflexivity).
  destruct (add_pass_user_guid "ibnet" [] [] 2 (mkIbSpec "0x5") s
              (fetchedState s) (fetchedState s) emptyAddAcc pod2
              [guidNet "ibnet" guid3] 0 (guidNet "ibnet" guid3) guid3
              Hentry Hf eq_refl Hsel Hguid) as (_ & _ & _ & Hkept).
  split; [exact Hguid|].
  split; [vm_compute; reflexivity|]. split; [vm_compute; reflexivity|].
  split; [vm_compute; reflexivity|]. split; [vm_compute; reflexivity|].
  exact Hkept.
Defined.

(** *** The further properties at concrete inputs *)

Lemma allocation_loop_partition_witness :
  foldM (addPodStep "ibnet") [4; 5] emptyAddAcc (fetchedState partialState)
    = (Done partialAcc, partialAlloc.2) ∧
  passedPods partialAcc = [4] ∧ failedPods partialAcc = [5] ∧
  guidList partialAcc = [addr guid1] ∧
  passedPods partialAcc ++ failedPods partialAcc ≡ₚ [4; 5].
Proof.
  assert (foldM (addPodStep "ibnet") [4; 5] emptyAddAcc
            (fetchedState partialState)
          = (Done partialAcc, partialAlloc.2)) as Hloop
    by (vm_compute; reflexivity).
  split; [exact Hloop|].
  split; [vm_compute; reflexivity|]. split; [vm_compute; reflexivity|].
  split; [vm_compute; reflexivity|].
  exact (proj1 (allocation_loop_partition "ibnet" [4; 5]
                  (fetchedState partialState) partialAlloc.2 partialAcc
                  Hloop)).
Defined.

Lemma annotation_loop_outcome_witness :
  let w := goneWorld false in
  foldMi (addAnnotateStep (lateAcc w)) 0 (passedPods (lateAcc w))
    (mkUpdAcc (failedPods (lateAcc w)) []) (lateProgrammed w)
    = (Done (lateUpd w), (lateAnnotated w).2) ∧
  passedPods (lateAcc w) = [3] ∧
  updFailedPods (lateUpd w) = [] ∧
  removedGuidList (lateUpd w) = [addr guid1] ∧
  sublist (removedGuidList (lateUpd w)) (guidList (lateAcc w)).
Proof.
  intros w.
  assert (foldMi (addAnnotateStep (lateAcc w)) 0 (passedPods (lateAcc w))
            (mkUpdAcc (failedPods (lateAcc w)) []) (lateProgrammed w)
          = (Done (lateUpd w), (lateAnnotated w).2)) as Hloop
    by (vm_compute; reflexivity).
  split; [exact Hloop|].
  split; [vm_compute; reflexivity|]. split; [vm_compute; reflexivity|].
  split; [vm_compute; reflexivity|].
  exact (proj2 (annotation_loop_outcome (lateAcc w) (lateUpd w)
                  (lateProgrammed w) (lateAnnotated w).2 Hloop)).
Defined.

Lemma add_pass_never_adds_pods_witness :
  addMap partialState !! "ibnet" = Some (VPods [4; 5]) ∧
  addMap (after (AddPeriodicUpdate ["ibnet"]) partialState) !! "ibnet"
    = Some (VPods [5]) ∧
  withinPods [4; 5]
    (addMap (after (AddPeriodicUpdate ["ibnet"]) partialState) !! "ibnet").
Proof.
  assert (addMap partialState !! "ibnet" = Some (VPods [4; 5])) as Hentry
    by (vm_compute; reflexivity).
  split; [exact Hentry|]. split; [vm_compute; reflexivity|].
  exact (add_pass_never_adds_pods "ibnet" [4; 5] ["ibnet"] partialState
           Hentry).
Defined.

Lemma delete_pass_never_adds_pods_witness :
  deleteMap mixedDeleteState !! "ibnet" = Some (VPods [7; 6; 5]) ∧
  deleteMap (after (DeletePeriodicUpdate ["ibnet"]) mixedDeleteState)
    !! "ibnet" = Some (VPods [5]) ∧
  subsequenceOfPods [7; 6; 5]
    (deleteMap (after (DeletePeriodicUpdate ["ibnet"]) mixedDeleteState)
       !! "ibnet").
Proof.
  assert (deleteMap mixedDeleteState !! "ibnet" = Some (VPods [7; 6; 5]))
    as Hentry by (vm_compute; reflexivity).
  split; [exact Hentry|]. split; [vm_compute; reflexivity|].
  exact (delete_pass_never_adds_pods "ibnet" [7; 6; 5] ["ibnet"]
           mixedDeleteState Hentry).
Defined.

Lemma add_pass_programming_failure_witness :
  let s := unreachableState in
  guidList unreachableAcc = [addr guid1] ∧
  AddGuidsToPKey 5 (guidList unreachableAcc) (world unreachableAlloc.2)
    = (Some "subnet manager unreachable", world unreachableAlloc.2) ∧
  outcome (addVisit "ibnet") s = Done tt ∧
  addMap (after (addVisit "ibnet") s) = addMap s ∧
  poolAllocated (world (after (addVisit "ibnet") s))
    = [(guid1, ("w1", "ibnet"))] ∧
  ∃ d, calls (after (addVisit "ibnet") s) = calls s ++ d ∧
       forallb isProgramCall d = true.
Proof.
  intros s.
  assert (addMap s !! "ibnet" = Some (VPods [1])) as Hentry
    by (vm_compute; reflexivity).
  assert (Fetched "ibnet" [1] (mkIbSpec "0x5") s (fetchedState s)) as Hf
    by (apply (fetched_demo s 1 [] pod1 (ibSriovConfig "0x5"));
        vm_compute; reflexivity).
  assert (foldM (addPodStep "ibnet") [1] emptyAddAcc (fetchedState s)
          = (Done unreachableAcc, unreachableAlloc.2)) as Hloop
    by (vm_compute; reflexivity).
  assert (smNeeded (mkIbSpec "0x5") (guidList unreachableAcc) = true) as Hgate
    by (vm_compute; reflexivity).
  assert (ParsePKey (PKey (mkIbSpec "0x5")) = (5%Z, None)) as Hparse
    by (vm_compute; reflexivity).
  assert (AddGuidsToPKey 5 (guidList unreachableAcc)
            (world unreachableAlloc.2)
          = (Some "subnet manager unreachable", world unreachableAlloc.2))
    as Hadd by (vm_compute; reflexivity).
  destruct (add_pass_programming_failure "ibnet" [1] (mkIbSpec "0x5") s
              (fetchedState s) unreachableAlloc.2 unreachableAcc 5
              "subnet manager unreachable" (world unreachableAlloc.2)
              Hentry Hf Hloop Hgate Hparse Hadd) as (Hvisit & Hmap & Hlog).
  split; [vm_compute; reflexivity|]. split; [exact Hadd|].
  unfold outcome, after. rewrite Hvisit. simpl.
  split; [reflexivity|]. split; [exact Hmap|].
  split; [vm_compute; reflexivity|]. exact Hlog.
Defined.

Lemma visit_unusable_definition_witness :
  let s := missingState in
  let s1 := setWorldCalls (world s)
              [EvGetNetworkAttachmentDefinition "default" "gone"
                 (Err missingError)] s in
  heap s !! 1 = Some pod1 ∧
  GetNetworkAttachmentDefinition "default" "gone" (world s)
    = (Err missingError, world s) ∧
  addVisit "gone" s = (Done tt, s1) ∧
  deleteVisit "gone" s = (Done tt, s1) ∧
  addMap s1 !! "gone" = Some (VPods [1]) ∧
  deleteMap s1 !! "gone" = Some (VPods [1]).
Proof.
  intros s s1.
  assert (heap s !! 1 = Some pod1) as Hpod by (vm_compute; reflexivity).
  assert (GetNetworkAttachmentDefinition (Namespace pod1) "gone" (world s)
          = (Err missingError, world s)) as Hget
    by (vm_compute; reflexivity).
  destruct (visit_unusable_definition "gone" 1 [] pod1 (Err missingError)
              (world s) s Hpod Hget) as (Hadd & Hdel).
  split; [exact Hpod|]. split; [exact Hget|].
  split; [apply Hadd; [discriminate|vm_compute; reflexivity]|].
  split; [apply Hdel; [left; discriminate|vm_compute; reflexivity]|].
  split; vm_compute; reflexivity.
Defined.

Lemma visit_without_pkey_witness :
  let s := noPKeyState in
  PKey (mkIbSpec "") = "" ∧
  emits (λ d, forallb notSMCall d = true) s (after (addVisit "ibnet") s) ∧
  emits (λ d, forallb notSMCall d = true) s (after (deleteVisit "ibnet") s) ∧
  addMap (after (addVisit "ibnet") s) = ∅ ∧
  deleteMap (after (deleteVisit "ibnet") s) = ∅ ∧
  poolAllocated (world (after (deleteVisit "ibnet") s)) = [].
Proof.
  intros s.
  assert (Fetched "ibnet" [6] (mkIbSpec "") s (fetchedState s)) as Hf
    by (apply (fetched_demo s 6 [] pod6 ibSriovConfigNoPKey);
        vm_compute; reflexivity).
  destruct (visit_without_pkey "ibnet" [6] (mkIbSpec "") s (fetchedState s)
              Hf eq_refl) as (Hadd & Hdel).
  split; [reflexivity|].
  split; [apply Hadd; vm_compute; reflexivity|].
  split; [apply Hdel; vm_compute; reflexivity|].
  repeat split; vm_compute; reflexivity.
Defined.

Lemma allocation_loop_guids_allocated_witness :
  foldM (addPodStep "ibnet") [4; 5] emptyAddAcc (fetchedState partialState)
    = (Done partialAcc, partialAlloc.2) ∧
  passedPods partialAcc = [4] ∧ guidList partialAcc = [addr guid1] ∧
  HardwareAddrString (addr guid1) = guid1 ∧
  ∃ d, calls partialAlloc.2 = calls (fetchedState partialState) ++ d ∧
    Forall2 (λ p g, ∃ pod, heap (fetchedState partialState) !! p = Some pod ∧
                           allocatedFor "ibnet" (PodUID pod) g d)
      (passedPods partialAcc) (guidList partialAcc).
Proof.
  assert (foldM (addPodStep "ibnet") [4; 5] emptyAddAcc
            (fetchedState partialState)
          = (Done partialAcc, partialAlloc.2)) as Hloop
    by (vm_compute; reflexivity).
  split; [exact Hloop|].
  split; [vm_compute; reflexivity|]. split; [vm_compute; reflexivity|].
  split; [vm_compute; reflexivity|].
  exact (allocation_loop_guids_allocated "ibnet" [4; 5]
           (fetchedState partialState) partialAlloc.2 partialAcc Hloop).
Defined.

Lemma delete_scan_outcome_witness :
  let s := mixedDeleteState in
  foldM (deletePodStep "ibnet") [7; 6; 5] (mkDelAcc [] []) s
    = (Done (mkDelAcc [addr guid2] [5]), s) ∧
  ∃ released,
    sublist released [7; 6; 5] ∧
    Forall2 (Releasable "ibnet" (heap s)) released [addr guid2] ∧
    Forall (λ p, ¬ Unconfigured "ibnet" (heap s) p ∧
                 ∀ g, ¬ Releasable "ibnet" (heap s) p g) [5].
Proof.
  intros s.
  assert (foldM (deletePodStep "ibnet") [7; 6; 5] (mkDelAcc [] []) s
          = (Done (mkDelAcc [addr guid2] [5]), s)) as Hscan
    by (vm_compute; reflexivity).
  split; [exact Hscan|].
  destruct (delete_scan_outcome "ibnet" [7; 6; 5] s s
              (mkDelAcc [addr guid2] [5]) Hscan)
    as (released & Hsub & Hrel & Hfail & _).
  exists released. split; [exact Hsub|]. split; [exact Hrel|exact Hfail].
Defined.
